(** * Caption studio: timed-text model, layout engine, animation and export

    A shallow embedding of the caption pipeline of the repository:
    - [src/utils/fileUtils.ts]: [parseSRT], [generateSRT];
    - [src/components/ResultsView.tsx]: [parseTime], the layout cache and
      [getWrappedLines], the animation branch of [drawFrameToCanvas], the
      export handlers and the key-frame rule of [processFrame];
    - further parts of the same two files, after the vocabulary of the first
      ones: the live preview, the audio chunks and the progress of the fast
      export, the caption on screen and its text track, the waveform, the
      controls of the caption style and the caption panel of a frame.

    Conventions of the embedding.
    - A JavaScript string is a [string]: a sequence of code units, here the
      code units below U+0100.
    - A JavaScript number that holds an id or a count is a [Z], taken in the
      range where a double is an exact integer; a number that holds a time, a
      scale, an opacity or a width is a [Q].
    - Where a property depends on the rounding of IEEE doubles (the times of
      the frame loop, the animation of a caption, the widths the layout adds
      up) the source is embedded with the rounding written out: every
      operation is the exact one followed by [Double.fl].  Elsewhere the
      arithmetic is exact; there a measured width is a [Z], a whole number of
      pixels.
    - [undefined] is [None]; the not-a-number value is [None] as well.
    - A call that would raise a [TypeError] returns [Throw]. *)

From Stdlib Require Import ZArith QArith Qabs Qminmax Qround Qpower Lia Lqa List Bool
  Ascii Sorted Morphisms.
From Stdlib Require String.
From stdpp Require Import base option list gmap strings.

Import ListNotations.
Local Open Scope Z_scope.

(** ** Double arithmetic *)

(** The numbers of the sources are IEEE 754 doubles.  Where a claim depends
    on their rounding, the source is embedded over the rationals with the
    rounding made explicit: every arithmetic operation of the source is the
    exact operation followed by [fl], the rounding to the nearest double,
    ties to even, with the 53 bits of a double and its gradual underflow
    down to [2^-1074].  A rational is a double when [fl] leaves it as it is.
    Infinities and NaN are outside this part of the model: [fl] has no
    largest exponent, so that a result past the overflow threshold
    [2^1024] is a number above every double, as [Infinity] is in the
    comparisons of the sources. *)
Module Double.

Definition pow2 (e : Z) : Q := Qpower 2 e.

(** The exponent of the leading bit of a positive rational:
    [2^(ilog2 x) <= x < 2^(ilog2 x + 1)]. *)
Definition ilog2 (x : Q) : Z :=
  let k := Z.log2 (Qnum x) - Z.log2 (Zpos (Qden x)) in
  if Qle_bool (pow2 k) x then k else k - 1.

(** The nearest integer, a tie going to the even one. *)
Definition rne (x : Q) : Z :=
  let f := Qfloor x in
  match (x - inject_Z f ?= 1 # 2)%Q with
  | Lt => f
  | Gt => f + 1
  | Eq => if Z.even f then f else f + 1
  end.

Definition emin : Z := -1074.

(** The exponent of the unit in the last place of [x]: 53 bits of
    precision, and the fixed unit [2^-1074] below the normal range. *)
Definition ulpExp (x : Q) : Z := Z.max (ilog2 (Qabs x) - 52) emin.

(** Rounding to the nearest double, ties to even. *)
Definition fl (x : Q) : Q :=
  if Qeq_bool x 0 then 0%Q
  else (inject_Z (rne (x / pow2 (ulpExp x))) * pow2 (ulpExp x))%Q.

(** [x] is a double. *)
Definition isDouble (x : Q) : Prop := (fl x == x)%Q.

(** The grid of the least positive double, [2^-1074]: all doubles lie on it. *)
Definition onGrid (x : Q) : Prop :=
  exists m : Z, (x == inject_Z m * pow2 emin)%Q.

End Double.

Import Double.

(** ** The JavaScript built-ins the sources call *)

Module JS.

Definition LF : ascii := "010"%char.
Definition CR : ascii := "013"%char.

(** [WhiteSpace] and [LineTerminator] of ECMAScript, below U+0100: what
    [String.prototype.trim] strips and what [parseInt] and [parseFloat] skip. *)
Definition is_white (c : ascii) : bool :=
  match c with
  | "009" | "010" | "011" | "012" | "013" | " " | "160" => true
  | _ => false
  end%char.

Definition truthy (s : string) : bool :=
  match s with EmptyString => false | String _ _ => true end.

(** The first piece of a split is grown character by character. *)
Definition cons_head (c : ascii) (l : list string) : list string :=
  match l with
  | [] => [String c EmptyString]
  | h :: t => String c h :: t
  end.

(** [s.split(sep)] for a non-empty separator: [skip] counts the characters of
    a separator that has just been matched and is still to be passed over. *)
Fixpoint split_from (sep : string) (skip : nat) (s : string) : list string :=
  match s with
  | EmptyString => [EmptyString]
  | String c s' =>
      match skip with
      | S k => split_from sep k s'
      | O =>
          if String.prefix sep s
          then EmptyString :: split_from sep (String.length sep - 1) s'
          else cons_head c (split_from sep 0 s')
      end
  end.

Definition split (sep s : string) : list string := split_from sep 0 s.

(** [a.join(sep)]. *)
Definition join (sep : string) (l : list string) : string := String.concat sep l.

(** [s.replace(/\r\n/g, '\n')]. *)
Fixpoint replace_crlf (s : string) : string :=
  match s with
  | EmptyString => EmptyString
  | String c s' =>
      match s' with
      | String d s'' =>
          if (Ascii.eqb c CR && Ascii.eqb d LF)%bool
          then String LF (replace_crlf s'')
          else String c (replace_crlf s')
      | EmptyString => String c EmptyString
      end
  end.

(** [s.replace(',', '.')]: a string pattern replaces its first match only. *)
Fixpoint replace_first_comma (s : string) : string :=
  match s with
  | EmptyString => EmptyString
  | String c s' =>
      if Ascii.eqb c ","%char then String "."%char s'
      else String c (replace_first_comma s')
  end.

Fixpoint trim_start (s : string) : string :=
  match s with
  | EmptyString => EmptyString
  | String c s' => if is_white c then trim_start s' else s
  end.

Fixpoint trim_end (s : string) : string :=
  match s with
  | EmptyString => EmptyString
  | String c s' =>
      match trim_end s' with
      | EmptyString => if is_white c then EmptyString else String c EmptyString
      | r => String c r
      end
  end.

(** [s.trim()]. *)
Definition trim (s : string) : string := trim_end (trim_start s).

(** The code unit of a character, and the value of a decimal digit:
    the digits are the code units 48 to 57. *)
Definition code_unit (c : ascii) : Z := Z.of_N (N_of_ascii c).

Definition digit_val (c : ascii) : option Z :=
  let n := code_unit c in
  if (48 <=? n) && (n <=? 57) then Some (n - 48) else None.

Definition hex_val (c : ascii) : option Z :=
  match c with
  | "a" | "A" => Some 10 | "b" | "B" => Some 11 | "c" | "C" => Some 12
  | "d" | "D" => Some 13 | "e" | "E" => Some 14 | "f" | "F" => Some 15
  | _ => digit_val c
  end%char.

Definition is_digit (c : ascii) : bool :=
  match digit_val c with Some _ => true | None => false end.

(** The value of the longest run of digits at the head of [s], continuing
    from [acc]. *)
Fixpoint read_digits (dv : ascii -> option Z) (radix acc : Z) (s : string) : Z :=
  match s with
  | EmptyString => acc
  | String c s' =>
      match dv c with
      | Some d => read_digits dv radix (radix * acc + d) s'
      | None => acc
      end
  end.

Definition starts_with_digit (dv : ascii -> option Z) (s : string) : bool :=
  match s with
  | String c _ => match dv c with Some _ => true | None => false end
  | EmptyString => false
  end.

Definition read_radix (dv : ascii -> option Z) (radix : Z) (s : string) : option Z :=
  if starts_with_digit dv s then Some (read_digits dv radix 0 s) else None.

(** The characters after the first [n]. *)
Fixpoint sdrop (n : nat) (s : string) : string :=
  match n, s with
  | S k, String _ s' => sdrop k s'
  | _, _ => s
  end.

Definition strip_sign (s : string) : bool * string :=
  match s with
  | String c s' =>
      if Ascii.eqb c "-" then (true, s')
      else if Ascii.eqb c "+" then (false, s')
      else (false, s)
  | EmptyString => (false, s)
  end.

Definition hex_prefix (s : string) : bool :=
  match s with
  | String c0 (String c1 _) =>
      Ascii.eqb c0 "0" && (Ascii.eqb c1 "x" || Ascii.eqb c1 "X")
  | _ => false
  end.

(** [parseInt(v)] without a radix; [None] is NaN.  An [undefined] argument is
    converted to the string "undefined", which has no digit. *)
Definition parseInt (v : option string) : option Z :=
  match v with
  | None => None
  | Some s =>
      let (neg, s1) := strip_sign (trim_start s) in
      let r :=
        if hex_prefix s1 then read_radix hex_val 16 (sdrop 2 s1)
        else read_radix digit_val 10 s1 in
      match r with
      | Some n => Some (if neg then - n else n)
      | None => None
      end
  end.

Definition digit_char (d : Z) : ascii := ascii_of_N (Z.to_N (48 + d)).

Fixpoint digits_of (fuel : nat) (n : Z) (tail : string) : string :=
  let tail' := String (digit_char (n mod 10)) tail in
  match fuel with
  | O => tail'
  | S f => if n <? 10 then tail' else digits_of f (n / 10) tail'
  end.

(** [String(n)] for an integer [n], as a template literal prints an id. *)
Definition Number_toString (n : Z) : string :=
  if n <? 0
  then String "-"%char (digits_of (Z.to_nat (Z.log2 (- n))) (- n) EmptyString)
  else digits_of (Z.to_nat (Z.log2 n)) n EmptyString.

Fixpoint skip_digits (s : string) : string :=
  match s with
  | EmptyString => EmptyString
  | String c s' => if is_digit c then skip_digits s' else s
  end.

Fixpoint count_digits (s : string) : nat :=
  match s with
  | EmptyString => O
  | String c s' => if is_digit c then S (count_digits s') else O
  end.

(** The exponent part of a decimal literal: [e] or [E], an optional sign and
    at least one digit; a malformed exponent is not part of the literal. *)
Definition read_exponent (s : string) : Z :=
  match s with
  | String "e"%char r | String "E"%char r =>
      let (neg, r') := strip_sign r in
      match read_radix digit_val 10 r' with
      | Some e => if neg then - e else e
      | None => 0
      end
  | _ => 0
  end.

(** [parseFloat(v)]: the longest decimal literal at the head of the trimmed
    string; [None] is NaN.  The literal [Infinity] is outside the model. *)
Definition parseFloat (v : option string) : option Q :=
  match v with
  | None => None
  | Some s =>
      let (neg, s1) := strip_sign (trim_start s) in
      let ip := read_digits digit_val 10 0 s1 in
      let ni := count_digits s1 in
      let r1 := skip_digits s1 in
      let '(fp, nf, r2) :=
        match r1 with
        | String "."%char r =>
            (read_digits digit_val 10 0 r, count_digits r, skip_digits r)
        | _ => (0, O, r1)
        end in
      if (ni + nf =? 0)%nat then None
      else
        let scale := 10 ^ Z.of_nat nf in
        let mant := (inject_Z (ip * scale + fp) / inject_Z scale)%Q in
        let v := (mant * Qpower (inject_Z 10) (read_exponent r2))%Q in
        Some (if neg then (- v)%Q else v)
  end.

End JS.

(** ** [src/utils/fileUtils.ts] *)

Module FileUtils.
Import JS.

Record CaptionSegment : Type := mkSegment {
  id : Z;
  startTime : string;
  endTime : string;
  text : string
}.

(** The outcome of a call: a value, or a thrown [TypeError]. *)
Inductive result (A : Type) : Type :=
| Ok (a : A)
| Throw.
Arguments Ok {A} a.
Arguments Throw {A}.

#[global] Instance result_ret : MRet result := fun A a => Ok a.
#[global] Instance result_bind : MBind result := fun A B f m =>
  match m with
  | Ok a => f a
  | Throw => Throw
  end.

(** A method call on a value that may be [undefined]. *)
Definition method {A : Type} (recv : option string) (f : string -> A) : result A :=
  match recv with
  | Some s => Ok (f s)
  | None => Throw
  end.

Definition truthy_opt (v : option string) : bool :=
  match v with
  | Some s => truthy s
  | None => false
  end.

Definition NL : string := String LF EmptyString.
Definition BLANK : string := String LF (String LF EmptyString).
Definition ARROW : string := " --> ".

(** The body of the [forEach] callback of [parseSRT]: [segments] is the array
    the callback pushes to. *)
Definition parseBlock (segments : list CaptionSegment) (block : string)
  : result (list CaptionSegment) :=
  let lines := split NL block in
  if (3 <=? length lines)%nat then
    let id := parseInt (lines !! 0%nat) in
    let timeLine := lines !! 1%nat in
    let text := join " " (drop 2 lines) in
    parts ← method timeLine (split ARROW);
    let start := parts !! 0%nat in
    let end_ := parts !! 1%nat in
    match id with
    | Some n =>
        if truthy_opt start && truthy_opt end_ then
          s ← method start trim;
          e ← method end_ trim;
          mret (segments ++ [mkSegment n s e (trim text)])
        else mret segments
    | None => mret segments
    end
  else mret segments.

Fixpoint forEach {S A : Type} (f : S -> A -> result S) (l : list A) (s : S)
  : result S :=
  match l with
  | [] => mret s
  | a :: l' => s' ← f s a; forEach f l' s'
  end.

Definition parseSRT (srt : string) : result (list CaptionSegment) :=
  let normalized := replace_crlf srt in
  let blocks := split BLANK normalized in
  forEach parseBlock blocks [].

Definition formatSegment (s : CaptionSegment) : string :=
  Number_toString (id s) +:+ NL +:+ startTime s +:+ ARROW +:+ endTime s
    +:+ NL +:+ text s.

Definition generateSRT (segments : list CaptionSegment) : string :=
  join BLANK (map formatSegment segments).

End FileUtils.

(** ** [src/components/ResultsView.tsx] *)

Module ResultsView.
Import JS FileUtils.

(** *** Timestamps *)

Definition COLON : string := ":".

(** [parseTime]: [None] is NaN. *)
Definition parseTime (timeString : string) : option Q :=
  if negb (truthy timeString) then Some 0%Q
  else
    let parts := split COLON (replace_first_comma timeString) in
    if (length parts <? 3)%nat then Some 0%Q
    else
      let h := parseFloat (parts !! 0%nat) in
      let m := parseFloat (parts !! 1%nat) in
      let s := parseFloat (parts !! 2%nat) in
      match h, m, s with
      | Some h, Some m, Some s => Some (h * 3600 + m * 60 + s)%Q
      | _, _, _ => None
      end.

(** *** The layout cache and the handlers that touch it *)

(** [textLayoutCache.current], keyed by caption id. *)
Abbreviation textLayoutCache := (gmap Z (list string)).

(** The state the invalidation effect depends on. *)
Record styleDeps : Type := mkDeps {
  selectedFont : string;
  fontSize : Q;
  visualMaxWords : Z
}.

(** A dependency differs between two renders. *)
Definition depsChanged (old new : styleDeps) : bool :=
  negb (String.eqb (selectedFont old) (selectedFont new))
  || negb (Qeq_bool (fontSize old) (fontSize new))
  || negb (visualMaxWords old =? visualMaxWords new).

(** The effect on [selectedFont, fontSize, visualMaxWords]: after a render in
    which one of the three has changed it replaces the cache by an empty
    object; otherwise it does not run. *)
Definition styleInvalidationEffect (old new : styleDeps)
    (cache : textLayoutCache) : textLayoutCache :=
  if depsChanged old new then ∅ else cache.

Definition setText (newText : string) (c : CaptionSegment) : CaptionSegment :=
  mkSegment (id c) (startTime c) (endTime c) newText.

(** [handleCaptionChange]: the new caption list and the cache after it. *)
Definition handleCaptionChange (id_ : Z) (newText : string)
    (captions : list CaptionSegment) (cache : textLayoutCache)
  : list CaptionSegment * textLayoutCache :=
  (map (fun c => if id c =? id_ then setText newText c else c) captions,
   delete id_ cache).

(** *** Text wrapping *)

(** The layout over whole-number widths, whose sums are exact; [TextWrap]
    further down is the same code over doubles, with their rounding. *)

(** [getRangeWidth]: the width of the words [start, end_).  An index past the
    end of [wordWidths] reads 0 here; the callers never pass one. *)
Definition getRangeWidth (wordWidths : list Z) (spaceWidth : Z)
    (start end_ : nat) : Z :=
  if (end_ <=? start)%nat then 0
  else
    let width :=
      fold_left (fun width i => width + nth i wordWidths 0)
                (seq start (end_ - start)) 0 in
    width + Z.max 0 (Z.of_nat end_ - Z.of_nat start - 1) * spaceWidth.

(** The variables of the split search; [minDiff = None] is [Infinity]. *)
Record splitState : Type := mkSplit {
  bestSplit : Z;
  minDiff : option Z
}.

Definition lt_minDiff (diff : Z) (m : option Z) : bool :=
  match m with
  | Some d => diff <? d
  | None => true
  end.

(** One turn of the loop over the split points. *)
Definition splitStep (wordWidths : list Z) (spaceWidth maxWidth visualMaxWords : Z)
    (n : nat) (st : splitState) (i : nat) : splitState :=
  if (Z.of_nat i >? visualMaxWords) || (Z.of_nat (n - i) >? visualMaxWords)
  then st
  else
    let w1 := getRangeWidth wordWidths spaceWidth 0 i in
    let w2 := getRangeWidth wordWidths spaceWidth i n in
    if (w1 <=? maxWidth) && (w2 <=? maxWidth) then
      let diff := Z.abs (w1 - w2) in
      if lt_minDiff diff (minDiff st) then mkSplit (Z.of_nat i) (Some diff)
      else st
    else st.

Definition searchSplit (wordWidths : list Z) (spaceWidth maxWidth visualMaxWords : Z)
    (n : nat) : splitState :=
  fold_left (splitStep wordWidths spaceWidth maxWidth visualMaxWords n)
            (seq 1 (n - 1)) (mkSplit (-1) None).

(** The variables of the greedy loop. *)
Record wrapState : Type := mkWrap {
  lines : list string;
  currentLine : list string;
  currentWidth : Z
}.

(** One turn of the greedy loop, on [words[i]] and [wordWidths[i]]. *)
Definition wrapStep (spaceWidth maxWidth visualMaxWords : Z)
    (st : wrapState) (ww : string * Z) : wrapState :=
  let (word, w) := ww in
  let widthOverflow :=
    (0 <? length (currentLine st))%nat
    && (currentWidth st + spaceWidth + w >? maxWidth) in
  let wordCountOverflow := Z.of_nat (length (currentLine st)) >=? visualMaxWords in
  if widthOverflow || wordCountOverflow then
    if (0 <? length (currentLine st))%nat then
      mkWrap (lines st ++ [join " " (currentLine st)]) [word] w
    else mkWrap (lines st) (currentLine st ++ [word]) w
  else
    if (length (currentLine st) =? 0)%nat then
      mkWrap (lines st) (currentLine st ++ [word]) w
    else
      mkWrap (lines st) (currentLine st ++ [word])
             (currentWidth st + (spaceWidth + w)).

Definition greedyWrap (spaceWidth maxWidth visualMaxWords : Z)
    (words : list string) (wordWidths : list Z) : list string :=
  let st := fold_left (wrapStep spaceWidth maxWidth visualMaxWords)
                      (combine words wordWidths) (mkWrap [] [] 0) in
  if (0 <? length (currentLine st))%nat
  then lines st ++ [join " " (currentLine st)]
  else lines st.

(** [getWrappedLines]: [measure s] is [ctx.measureText(s).width]; the result
    is the returned array and the cache after the call. *)
Definition getWrappedLines (measure : string -> Z) (visualMaxWords : Z)
    (cache : textLayoutCache) (text : string) (maxWidth : Z) (captionId : Z)
  : list string * textLayoutCache :=
  match cache !! captionId with
  | Some res => (res, cache)
  | None =>
      let words := split " " text in
      if (length words =? 0)%nat then ([], cache)
      else
        let spaceWidth := measure " " in
        let wordWidths := map measure words in
        let totalWidth := getRangeWidth wordWidths spaceWidth 0 (length words) in
        if (totalWidth <=? maxWidth) && (Z.of_nat (length words) <=? visualMaxWords)
        then
          let res := [text] in
          (res, <[captionId := res]> cache)
        else
          let st := searchSplit wordWidths spaceWidth maxWidth visualMaxWords
                                (length words) in
          if negb (bestSplit st =? -1) then
            let res := [join " " (take (Z.to_nat (bestSplit st)) words);
                        join " " (drop (Z.to_nat (bestSplit st)) words)] in
            (res, <[captionId := res]> cache)
          else
            let res := greedyWrap spaceWidth maxWidth visualMaxWords
                                  words wordWidths in
            (res, <[captionId := res]> cache)
  end.

(** *** The animation branch of [drawFrameToCanvas] *)

(** The animation in exact arithmetic; [Animation] further down is the same
    code with the rounding of doubles. *)

(** [selectedAnimation], one of the values of [ANIMATIONS]. *)
Inductive animation : Type :=
| none | fade | slide | pop | bounce | glow | shake.

(** What the animation code sets on the 2D context: the opacity, the current
    transform (a uniform scale and a translation) and the shadow blur. *)
Record ctxState : Type := mkCtx {
  globalAlpha : Q;
  scaleXY : Q;
  translateX : Q;
  translateY : Q;
  shadowBlur : Q
}.

(** The context after [ctx.save()] on the export canvas: the defaults. *)
Definition defaultCtx : ctxState := mkCtx 1 1 0 0 0.

Definition setAlpha (a : Q) (c : ctxState) : ctxState :=
  mkCtx a (scaleXY c) (translateX c) (translateY c) (shadowBlur c).

Definition setShadowBlur (b : Q) (c : ctxState) : ctxState :=
  mkCtx (globalAlpha c) (scaleXY c) (translateX c) (translateY c) b.

(** [ctx.translate(tx, ty)] composes with the current transform. *)
Definition translate (tx ty : Q) (c : ctxState) : ctxState :=
  mkCtx (globalAlpha c) (scaleXY c)
        (translateX c + scaleXY c * tx)%Q (translateY c + scaleXY c * ty)%Q
        (shadowBlur c).

(** [ctx.scale(k, k)]. *)
Definition scale (k : Q) (c : ctxState) : ctxState :=
  mkCtx (globalAlpha c) (scaleXY c * k)%Q (translateX c) (translateY c)
        (shadowBlur c).

Definition Qltb (a b : Q) : bool := negb (Qle_bool b a).

(** [Math.max(0, Math.min(1, x))]. *)
Definition clamp01 (x : Q) : Q := Qmax 0 (Qmin 1 x).

Definition bounceDuration : Q := 0.6.
Definition fadeDuration : Q := 0.25.
Definition slideDuration : Q := 0.3.
Definition popDuration : Q := 0.3.
Definition shakeDuration : Q := 0.5.

(** The piecewise [yOffset] of the bounce. *)
Definition bounceOffset (progress : Q) : Q :=
  (if Qltb progress 0.3 then -20 * (1 - progress / 0.3)
   else if Qltb progress 0.5 then
     let p := (progress - 0.3) / 0.2 in -10 * p
   else if Qltb progress 0.7 then
     let p := (progress - 0.5) / 0.2 in -10 * (1 - p)
   else if Qltb progress 0.9 then
     let p := (progress - 0.7) / 0.2 in -2 * p
   else
     let p := (progress - 0.9) / 0.1 in -2 * (1 - p))%Q.

(** The block under [if (selectedAnimation !== 'none')]; [sin] is [Math.sin],
    [x] is [width / 2] and [captionY] the vertical position in percent. *)
Definition animate (sin : Q -> Q) (selectedAnimation : animation)
    (elapsed width height captionY : Q) (ctx : ctxState) : ctxState :=
  let x := (width / 2)%Q in
  match selectedAnimation with
  | none => ctx
  | fade =>
      let progress := clamp01 (elapsed / fadeDuration) in
      setAlpha progress ctx
  | slide =>
      let progress := clamp01 (elapsed / slideDuration) in
      let slideOffset := ((1 - progress) * (height * 0.05))%Q in
      translate 0 slideOffset (setAlpha progress ctx)
  | pop =>
      let progress := clamp01 (elapsed / popDuration) in
      let k := (0.5 + 0.5 * progress)%Q in
      let centerY := (height * (captionY / 100))%Q in
      translate (- x) (- centerY)
        (scale k (translate x centerY (setAlpha progress ctx)))
  | bounce =>
      let progress := clamp01 (elapsed / bounceDuration) in
      let ctx1 :=
        if Qltb progress 0.3 then setAlpha (progress / 0.3) ctx else ctx in
      let yOffset := bounceOffset progress in
      let scaleFactor := (height / 1000)%Q in
      translate 0 (yOffset * scaleFactor * 50) ctx1
  | glow =>
      let pulse := ((sin (elapsed * 4) + 1) / 2)%Q in
      setShadowBlur ((5 + pulse * 15) * (height / 1000)) ctx
  | shake =>
      let progress := clamp01 (elapsed / shakeDuration) in
      if Qltb progress 1 then
        let intensity := (5 * (1 - progress))%Q in
        let xOff := (sin (progress * 50) * intensity * (width / 1000))%Q in
        translate (xOff * 5) 0 ctx
      else ctx
  end.

(** *** The frame loop of [handleFastExport] *)

(** The times of the loop are doubles: [1 / fps] and every [+=] round. *)
Definition fps : Z := 30.
Definition interval : Q := fl (1 / inject_Z fps).

(** [Math.round]: the nearest integer, a half going up. *)
Definition Math_round (x : Q) : Z := Qfloor (x + 0.5)%Q.

(** The [keyFrame] option [processFrame] passes to the encoder; [%] is the
    remainder that takes the sign of the dividend. *)
Definition keyFrame (t : Q) : bool :=
  Qeq_bool t 0 || (Z.rem (Math_round (fl (t * inject_Z fps))) (2 * fps) =? 0).

(** A frame handed to the encoder: its time in seconds and its key flag. *)
Record encodedFrame : Type := mkFrame {
  frameTime : Q;
  frameKey : bool
}.

(** [processFrame]: the frame drawn at time [t] goes to the encoder. *)
Definition processFrame (t : Q) : encodedFrame := mkFrame t (keyFrame t).

(** [while (currentTime < duration)]: the frames submitted in [fuel] turns. *)
Fixpoint frameLoop (fuel : nat) (duration currentTime : Q) : list encodedFrame :=
  match fuel with
  | O => []
  | S fuel' =>
      if Qltb currentTime duration
      then processFrame currentTime
             :: frameLoop fuel' duration (fl (currentTime + interval))
      else []
  end.

(** *** The export handlers and the [isExporting] flag *)

(** The flag and the jobs in flight: a frame-accurate job from the entry of
    the [try] block of [handleFastExport] to its [finally]; a recording from
    [mediaRecorder.start()] to [onstop]. *)
Record exportState : Type := mkExport {
  isExporting : bool;
  fastJobs : nat;
  realtimeJobs : nat
}.

Definition idleExport : exportState := mkExport false 0 0.

Definition jobsInFlight (st : exportState) : nat :=
  (fastJobs st + realtimeJobs st)%nat.

Definition setIsExporting (b : bool) (st : exportState) : exportState :=
  mkExport b (fastJobs st) (realtimeJobs st).

(** [handleRealtimeExport] up to its first [await]: it sets the flag and
    starts the recorder; it reads no flag. *)
Definition handleRealtimeExport (st : exportState) : exportState :=
  let st1 := setIsExporting true st in
  mkExport (isExporting st1) (fastJobs st1) (S (realtimeJobs st1)).

(** [handleFastExport] up to its first [await]; [webCodecs] is
    ['VideoEncoder' in window].  It reads no flag either. *)
Definition handleFastExport (webCodecs : bool) (st : exportState) : exportState :=
  if negb webCodecs then handleRealtimeExport st
  else
    let st1 := setIsExporting true st in
    mkExport (isExporting st1) (S (fastJobs st1)) (realtimeJobs st1).

(** The [finally] block of [handleFastExport]. *)
Definition fastFinally (st : exportState) : exportState :=
  let st1 := setIsExporting false st in
  mkExport (isExporting st1) (Nat.pred (fastJobs st1)) (realtimeJobs st1).

(** The [catch] block of [handleFastExport]: the fallback is called and not
    awaited, so the [finally] block runs once the fallback has started. *)
Definition fastCatch (st : exportState) : exportState :=
  fastFinally (handleRealtimeExport st).

(** [mediaRecorder.onstop]. *)
Definition recorderOnStop (st : exportState) : exportState :=
  let st1 := setIsExporting false st in
  mkExport (isExporting st1) (fastJobs st1) (Nat.pred (realtimeJobs st1)).

Inductive exportEvent : Type :=
| ClickExport      (* a click on the Export button *)
| FastCompletes    (* the frame-accurate job reaches the end of [try] *)
| FastThrows       (* the frame-accurate job throws *)
| RecorderStops.   (* the recorder fires [onstop] *)

(** The button carries [disabled={isExporting}]: a click while the flag is
    set reaches no handler. *)
Definition exportStep (webCodecs : bool) (st : exportState) (e : exportEvent)
  : exportState :=
  match e with
  | ClickExport =>
      if isExporting st then st else handleFastExport webCodecs st
  | FastCompletes =>
      if (0 <? fastJobs st)%nat then fastFinally st else st
  | FastThrows =>
      if (0 <? fastJobs st)%nat then fastCatch st else st
  | RecorderStops =>
      if (0 <? realtimeJobs st)%nat then recorderOnStop st else st
  end.

Definition exportRun (webCodecs : bool) (es : list exportEvent) : exportState :=
  fold_left (exportStep webCodecs) es idleExport.

Definition isThrow (e : exportEvent) : bool :=
  match e with
  | FastThrows => true
  | _ => false
  end.

(** What the flag is meant to say: it is up exactly while one job runs. *)
Definition flagTracksJob (st : exportState) : Prop :=
  (isExporting st = false /\ jobsInFlight st = 0%nat)
  \/ (isExporting st = true /\ jobsInFlight st = 1%nat).

End ResultsView.

Import JS FileUtils ResultsView.

(** ** Vocabulary of the statements *)

(** *** Strings *)

(** [c] occurs in [s]; every character of [s] passes [p]. *)
Fixpoint has_char (c : ascii) (s : string) : bool :=
  match s with
  | EmptyString => false
  | String d s' => Ascii.eqb c d || has_char c s'
  end.

Fixpoint all_chars (p : ascii -> bool) (s : string) : bool :=
  match s with
  | EmptyString => true
  | String d s' => p d && all_chars p s'
  end.

(** The first and the last character of a string. *)
Definition starts_with (c : ascii) (s : string) : bool :=
  match s with
  | String d _ => Ascii.eqb c d
  | EmptyString => false
  end.

Fixpoint ends_with (c : ascii) (s : string) : bool :=
  match s with
  | EmptyString => false
  | String d EmptyString => Ascii.eqb c d
  | String _ s' => ends_with c s'
  end.

(** [sep] does not occur in [a]. *)
Fixpoint no_occ (sep a : string) : bool :=
  match a with
  | EmptyString => true
  | String _ a' => negb (String.prefix sep a) && no_occ sep a'
  end.

(** [sep] does not occur in [a +:+ sep] before its last position: a split of
    [a +:+ sep +:+ rest] on [sep] cuts exactly after [a]. *)
Fixpoint no_early (sep a : string) : bool :=
  match a with
  | EmptyString => true
  | String _ a' => negb (String.prefix sep (a +:+ sep)) && no_early sep a'
  end.

(** No carriage return stands right before a line feed. *)
Fixpoint no_crlf (s : string) : bool :=
  match s with
  | EmptyString => true
  | String c s' => negb (Ascii.eqb c CR && starts_with LF s') && no_crlf s'
  end.

(** A string that [replace_crlf] leaves alone wherever it is appended. *)
Definition crlf_safe (s : string) : bool :=
  no_crlf s && negb (ends_with CR s).

(** A string that is empty or begins with a character [trim] keeps. *)
Definition nonwhite (c : ascii) : bool := negb (is_white c).

Definition head_nonwhite (s : string) : bool :=
  match s with
  | String c _ => nonwhite c
  | EmptyString => true
  end.

(** *** Timed text *)

(** The blocks [parseSRT] cuts its input into. *)
Definition blocksOf (srt : string) : list string :=
  split BLANK (replace_crlf srt).

(** The segment the callback of [parseSRT] pushes for a block, if any. *)
Definition segmentOf (block : string) : option CaptionSegment :=
  match split NL block with
  | idLine :: timeLine :: textLine :: more =>
      match parseInt (Some idLine), split ARROW timeLine with
      | Some n, start :: end_ :: _ =>
          if truthy start && truthy end_
          then Some (mkSegment n (trim start) (trim end_)
                               (trim (join " " (textLine :: more))))
          else None
      | _, _ => None
      end
  | _ => None
  end.

(** An integer id line: decimal digits, at least one, of a value a double
    holds exactly. *)
Definition isIntegerLine (s : string) : bool :=
  truthy s && all_chars is_digit s && (read_digits digit_val 10 0 s <? 2 ^ 53).


Definition is_ts_char (c : ascii) : bool :=
  is_digit c || Ascii.eqb c ":" || Ascii.eqb c "," || Ascii.eqb c ".".

(** A timestamp in the manner of [HH:MM:SS,mmm]: digits, colons and one of
    the two decimal separators. *)
Definition isTimestamp (s : string) : bool :=
  truthy s && all_chars is_ts_char s.

(** A well-formed block: an integer id line, a [start --> end] line and at
    least one text line. *)
Definition wellFormedBlock (block : string) : Prop :=
  exists idLine start end_ textLine more,
    block = join NL (idLine :: (start +:+ ARROW +:+ end_) :: textLine :: more)
    /\ isIntegerLine idLine = true
    /\ isTimestamp start = true
    /\ isTimestamp end_ = true
    /\ Forall (fun l => has_char LF l = false) (textLine :: more).

(** A well-formed text: all its blocks are well-formed. *)
Definition wellFormedSRT (srt : string) : Prop :=
  Forall wellFormedBlock (blocksOf srt).

(** The text of a block: its lines from the third on, joined and trimmed. *)
Definition blockText (block : string) : string :=
  trim (join " " (drop 2 (split NL block))).

(** The text of a block is not blank. *)
Definition hasText (block : string) : Prop := truthy (blockText block) = true.

(** [P] holds of every element of a list but the last. *)
Fixpoint allButLast {A : Type} (P : A -> Prop) (l : list A) : Prop :=
  match l with
  | [] => True
  | a :: l' =>
      match l' with
      | [] => True
      | _ :: _ => P a /\ allButLast P l'
      end
  end.




(** A segment as [parseSRT] makes it from a well-formed block. *)
Definition canonical (seg : CaptionSegment) : Prop :=
  0 <= id seg < 2 ^ 53
  /\ isTimestamp (startTime seg) = true
  /\ isTimestamp (endTime seg) = true
  /\ has_char LF (text seg) = false
  /\ trim (text seg) = text seg.

(** *** Frames *)

(** [n] is the integer nearest to [x], a half going up. *)
Definition nearest (x : Q) (n : Z) : Prop :=
  (inject_Z n - (1 # 2) <= x < inject_Z n + (1 # 2))%Q.

(** The frames for which the times of the loop are followed here: 38 hours
    of video. *)
Definition frameHorizon : Z := 2 ^ 22.

(** *** Layout *)

(** The word count of a line. *)
Definition wordCount (line : string) : nat := length (split " " line).

(** The width of a list of words over whole-number widths: that of the words
    and of the spaces between them. *)
Definition sumZ (l : list Z) : Z := fold_right Z.add 0 l.

Definition wordsWidth (measure : string -> Z) (words : list string) : Z :=
  sumZ (map measure words)
  + Z.max 0 (Z.of_nat (length words) - 1) * measure " ".

(** The single-line test of [getWrappedLines]. *)
Definition fitsOneLine (measure : string -> Z) (visualMaxWords maxWidth : Z)
    (text : string) : bool :=
  let words := split " " text in
  (getRangeWidth (map measure words) (measure " ") 0 (length words) <=? maxWidth)
  && (Z.of_nat (length words) <=? visualMaxWords).

(** The two widths at split point [i], and their difference. *)
Definition splitWidths (measure : string -> Z) (words : list string) (i : nat)
  : Z * Z :=
  (getRangeWidth (map measure words) (measure " ") 0 i,
   getRangeWidth (map measure words) (measure " ") i (length words)).

Definition splitDiff (measure : string -> Z) (words : list string) (i : nat) : Z :=
  Z.abs (fst (splitWidths measure words i) - snd (splitWidths measure words i)).

(** A valid split point: [1 <= i <= N - 1], both halves within the word
    limit and both widths within [maxWidth]. *)
Definition validSplit (measure : string -> Z) (visualMaxWords maxWidth : Z)
    (words : list string) (i : nat) : bool :=
  (1 <=? i)%nat && (i <? length words)%nat
  && (Z.of_nat i <=? visualMaxWords)
  && (Z.of_nat (length words - i) <=? visualMaxWords)
  && (fst (splitWidths measure words i) <=? maxWidth)
  && (snd (splitWidths measure words i) <=? maxWidth).

(** The state of the search after the split points [1 .. k]. *)
Definition searchInv measure vmw maxWidth words (k : nat) (st : splitState) : Prop :=
  (bestSplit st = -1 /\ minDiff st = None
   /\ forall i, (i <= k)%nat -> validSplit measure vmw maxWidth words i = false)
  \/ (exists b, bestSplit st = Z.of_nat b
        /\ minDiff st = Some (splitDiff measure words b)
        /\ (b <= k)%nat
        /\ validSplit measure vmw maxWidth words b = true
        /\ forall i, (i <= k)%nat ->
             validSplit measure vmw maxWidth words i = true ->
             splitDiff measure words b <= splitDiff measure words i).

(** A group of words that makes one line: it is not empty, it respects the
    word limit when the limit is at least 1, and it fits [maxWidth] unless it
    is a single word. *)
Definition chunkOk (measure : string -> Z) (visualMaxWords maxWidth : Z)
    (ch : list string) : Prop :=
  ch <> []
  /\ (1 <= visualMaxWords -> Z.of_nat (length ch) <= visualMaxWords)
  /\ (wordsWidth measure ch <= maxWidth \/ length ch = 1%nat).

(** The state of the greedy loop once the words [processed] are consumed. *)
Definition wrapInv (measure : string -> Z) (visualMaxWords maxWidth : Z)
    (processed : list string) (st : wrapState) : Prop :=
  exists chunks : list (list string),
    lines st = map (join " ") chunks
    /\ concat chunks ++ currentLine st = processed
    /\ Forall (chunkOk measure visualMaxWords maxWidth) chunks
    /\ (currentLine st = [] -> chunks = [])
    /\ (currentLine st <> [] ->
        chunkOk measure visualMaxWords maxWidth (currentLine st)
        /\ currentWidth st = wordsWidth measure (currentLine st)).

(** *** Sample values *)

(** Two captions and a cache that holds a layout for each. *)
Definition sampleCaptions : list CaptionSegment :=
  [mkSegment 1 "00:00:01,000" "00:00:02,000" "hello there";
   mkSegment 2 "00:00:03,000" "00:00:04,000" "good bye"].

Definition sampleCache : textLayoutCache :=
  <[2 := ["good"; "bye"]]> (<[1 := ["hello"; "there"]]> ∅).

(** A sample measure: ten units a character. *)
Definition len_measure (s : string) : Z := 10 * Z.of_nat (String.length s).

(** A caption with dots for decimal separators. *)
Definition dottedSRT : string :=
  "1" +:+ NL +:+ "00:00:01.000 --> 00:00:02.000" +:+ NL +:+ "hi".

(** Two blocks, the first with a blank text line. *)
Definition blankTextSRT : string :=
  "1" +:+ NL +:+ "00:00:01,000 --> 00:00:02,000" +:+ NL +:+ " " +:+ BLANK
  +:+ "2" +:+ NL +:+ "00:00:03,000 --> 00:00:04,000" +:+ NL +:+ "hi".



(** Two well-formed blocks; the text of the last one is blank. *)
Definition sampleSRT : string :=
  "1" +:+ NL +:+ "00:00:01,000 --> 00:00:02,500" +:+ NL +:+ "hello" +:+ NL
  +:+ " there" +:+ BLANK
  +:+ "2" +:+ NL +:+ "00:00:03.000 --> 00:00:04.000" +:+ NL +:+ " ".

(** * Further parts of the sources *)

(** ** Array built-ins *)

Module JSArray.

(** The relative index of [Array.prototype.slice]: a negative index counts
    from the end, and both ends are clamped to the array. *)
Definition relativeIndex (len k : Z) : Z :=
  if k <? 0 then Z.max (len + k) 0 else Z.min k len.

(** [arr.slice(start, end)], for arrays and typed arrays alike. *)
Definition slice {A : Type} (arr : list A) (start end_ : Z) : list A :=
  let len := Z.of_nat (length arr) in
  let k := relativeIndex len start in
  let final := relativeIndex len end_ in
  take (Z.to_nat (final - k)) (drop (Z.to_nat k) arr).

End JSArray.

(** ** [src/components/ResultsView.tsx]: the live preview *)

Module Preview.
Import JS FileUtils JSArray.

(** The [for] loop of [getVisualPreviewText]: [i] is the loop variable and
    [chunks] the array it pushes to; [None] when [fuel] turns do not reach
    the end of the loop. *)
Fixpoint previewLoop (fuel : nat) (visualMaxWords : Z) (words : list string)
    (i : Z) (chunks : list string) : option (list string) :=
  match fuel with
  | O => None
  | S fuel' =>
      if i <? Z.of_nat (length words) then
        previewLoop fuel' visualMaxWords words (i + visualMaxWords)
          (chunks ++ [join " " (slice words i (i + visualMaxWords))])
      else Some chunks
  end.

Definition getVisualPreviewText (fuel : nat) (visualMaxWords : Z)
    (text : string) : option string :=
  if visualMaxWords >=? 50 then Some text
  else
    chunks ← previewLoop fuel visualMaxWords (split " " text) 0 [];
    Some (join NL chunks).

End Preview.

(** ** [src/components/ResultsView.tsx]: the audio track of the fast export *)

Module AudioTrack.
Import JSArray.

Section Samples.
Context {A : Type}.

(** The fields of the [AudioData] the loop builds. *)
Record AudioData : Type := mkAudioData {
  numberOfFrames : Z;
  timestamp : Q;
  data : list A
}.

Definition CHUNK_DURATION_SEC : Q := 1.

Definition CHUNK_SIZE (sampleRate : Q) : Z :=
  Qfloor (sampleRate * CHUNK_DURATION_SEC).

(** The chunk loop of [handleFastExport]: [encoded] is what went to
    [audioEncoder.encode] so far; [None] when [fuel] turns do not reach the
    end of the loop. *)
Fixpoint audioLoop (fuel : nat) (pcmData : list A) (sampleRate : Q) (i : Z)
    (encoded : list AudioData) : option (list AudioData) :=
  match fuel with
  | O => None
  | S fuel' =>
      let totalFrames := Z.of_nat (length pcmData) in
      if i <? totalFrames then
        let len := Z.min (CHUNK_SIZE sampleRate) (totalFrames - i) in
        let chunkData := slice pcmData i (i + len) in
        let audioData :=
          mkAudioData len ((inject_Z i / sampleRate) * 1000000)%Q chunkData in
        audioLoop fuel' pcmData sampleRate (i + CHUNK_SIZE sampleRate)
                  (encoded ++ [audioData])
      else Some encoded
  end.

Definition encodeAudio (fuel : nat) (pcmData : list A) (sampleRate : Q)
  : option (list AudioData) :=
  audioLoop fuel pcmData sampleRate 0 [].

End Samples.
Global Arguments AudioData : clear implicits.

End AudioTrack.

(** ** [src/components/ResultsView.tsx]: the frame loop and its progress *)

Module RenderLoop.
Import ResultsView.

(** [Math.min(99, Math.floor((currentTime / duration) * 100))], the division
    and the product rounded. *)
Definition exportProgress (currentTime duration : Q) : Z :=
  Z.min 99 (Qfloor (fl (fl (currentTime / duration) * 100))).

(** The [while] loop of [handleFastExport] with both of its effects: the
    frames it hands to the encoder and the values it passes to
    [setExportProgress]; [None] when [fuel] turns do not reach the end of the
    loop. *)
Fixpoint renderLoop (fuel : nat) (duration currentTime : Q)
    (frames : list encodedFrame) (reports : list Z)
  : option (list encodedFrame * list Z) :=
  match fuel with
  | O => None
  | S fuel' =>
      if Qltb currentTime duration then
        let frames' := frames ++ [processFrame currentTime] in
        let currentTime' := fl (currentTime + interval) in
        renderLoop fuel' duration currentTime' frames'
                   (reports ++ [exportProgress currentTime' duration])
      else Some (frames, reports)
  end.

End RenderLoop.

(** ** [src/utils/fileUtils.ts] and [src/components/ResultsView.tsx]: small
    helpers *)

Module Helpers.
Import JS.

(** The [onload] handler of [fileToBase64]: what it resolves with, from
    [reader.result]; [None] is [undefined]. *)
Definition base64Of (result : string) : option string :=
  split "," result !! 1%nat.

(** [Math.trunc]. *)
Definition trunc (x : Q) : Z := if Qle_bool 0 x then Qfloor x else Qceiling x.

(** [x % y] on numbers, for [y] other than 0: the remainder has the sign of
    [x]. *)
Definition remNum (x y : Q) : Q := (x - y * inject_Z (trunc (x / y)))%Q.

Fixpoint repeatChar (n : nat) (c : ascii) : string :=
  match n with
  | O => EmptyString
  | S n' => String c (repeatChar n' c)
  end.

(** [s.padStart(n, c)] for a one-character filler. *)
Definition padStart (n : nat) (c : ascii) (s : string) : string :=
  repeatChar (n - String.length s) c +:+ s.

Definition formatTime (seconds : Q) : string :=
  let mins := Qfloor (seconds / 60) in
  let secs := Qfloor (remNum seconds 60) in
  Number_toString mins +:+ ":" +:+ padStart 2 "0" (Number_toString secs).

End Helpers.

(** ** [src/components/ResultsView.tsx]: playback *)

Module Playback.
Import JS FileUtils ResultsView.

(** A caption with its two times as numbers; [None] is NaN. *)
Record numericCaption : Type := mkNumeric {
  caption : CaptionSegment;
  start : option Q;
  end_ : option Q
}.

Definition numericCaptions (captions : list CaptionSegment)
  : list numericCaption :=
  map (fun c => mkNumeric c (parseTime (startTime c)) (parseTime (endTime c)))
      captions.

(** [a >= b] and [a <= b]: a comparison with NaN is false. *)
Definition geNum (a : Q) (b : option Q) : bool :=
  match b with Some b => Qle_bool b a | None => false end.

Definition leNum (a : Q) (b : option Q) : bool :=
  match b with Some b => Qle_bool a b | None => false end.

(** [numericCaptions.find(c => currentTime >= c.start && currentTime <= c.end)],
    of [activeCaption] and of [drawFrameToCanvas]. *)
Definition activeCaption (currentTime : Q) (ncs : list numericCaption)
  : option numericCaption :=
  List.find (fun c => geNum currentTime (start c) && leNum currentTime (end_ c))
            ncs.

(** The cue [vttUrl] writes for a caption. *)
Definition vttCue (c : CaptionSegment) : string :=
  replace_first_comma (startTime c) +:+ ARROW
  +:+ replace_first_comma (endTime c) +:+ NL +:+ text c.

(** The text of the track behind [vttUrl]; [None] is [undefined]. *)
Definition vttContent (captions : list CaptionSegment) : option string :=
  if (length captions =? 0)%nat then None
  else
    let vttBody := join BLANK (map vttCue captions) in
    Some ("WEBVTT" +:+ BLANK +:+ vttBody).

(** What [handleWaveformClick] does to [video.currentTime]. *)
Inductive seek : Type :=
| NoSeek                 (* the handler returns before the assignment *)
| SeekTo (t : Q)         (* the assignment of a finite time *)
| SeekNaN.               (* the assignment of NaN *)

(** [handleWaveformClick]: [rectWidth] is [rect.width], not negative.  A
    division by a zero width gives an infinity, which the clamp brings back
    to 0 or 1, or NaN, which it keeps. *)
Definition handleWaveformClick (hasVideo : bool) (duration : Q)
    (isExporting hasCanvas : bool) (clientX rectLeft rectWidth : Q) : seek :=
  if negb hasVideo || Qeq_bool duration 0 || isExporting then NoSeek
  else if negb hasCanvas then NoSeek
  else
    let x := (clientX - rectLeft)%Q in
    if Qeq_bool rectWidth 0 then
      if Qltb 0 x then SeekTo (1 * duration)%Q
      else if Qltb x 0 then SeekTo (0 * duration)%Q
      else SeekNaN
    else
      let clickProgress := Qmax 0 (Qmin 1 (x / rectWidth)) in
      SeekTo (clickProgress * duration)%Q.

(** A bar of the waveform, as passed to [roundRect] or [rect], and its
    fill: the gradient of the played part or the colour of the rest. *)
Record bar : Type := mkBar {
  barX : Q;
  barY : Q;
  barW : Q;
  barH : Q;
  isPlayed : bool
}.

(** The drawing effect of the waveform, for peaks that are numbers. *)
Definition drawWaveform (width height : Q) (peaks : list Q)
    (duration currentTime : Q) : list bar :=
  if (length peaks =? 0)%nat then []
  else
    let barWidth := (width / inject_Z (Z.of_nat (length peaks)))%Q in
    let actualBarWidth := (barWidth - 1)%Q in
    let progress := if Qltb 0 duration then (currentTime / duration)%Q else 0%Q in
    imap (fun index peak =>
            let x := (inject_Z (Z.of_nat index) * barWidth)%Q in
            let barHeight := Qmax (peak * height) 2 in
            let y := ((height - barHeight) / 2)%Q in
            let isPlayed :=
              Qltb (inject_Z (Z.of_nat index)
                    / inject_Z (Z.of_nat (length peaks))) progress in
            mkBar x y actualBarWidth barHeight isPlayed)
         peaks.

End Playback.

(** ** [src/components/ResultsView.tsx]: the controls of the caption style *)

Module Controls.
Import JS.

Inductive position : Type := top | bottom | custom.

(** [captionPosition] and [captionY]; [None] is NaN. *)
Record placement : Type := mkPlacement {
  captionPosition : position;
  captionY : option Z
}.

(** The initial state of the component. *)
Definition initialPlacement : placement := mkPlacement bottom (Some 90).

Definition handlePositionChange (pos : position) (st : placement) : placement :=
  let st1 := mkPlacement pos (captionY st) in
  let st2 :=
    match pos with top => mkPlacement pos (Some 10) | _ => st1 end in
  match pos with bottom => mkPlacement pos (Some 90) | _ => st2 end.

(** The [onChange] of the position slider, which is on the page only when
    [captionPosition === 'custom']. *)
Definition onPositionSlider (value : string) (st : placement) : placement :=
  match captionPosition st with
  | custom => mkPlacement custom (parseInt (Some value))
  | _ => st
  end.

Inductive placementEvent : Type :=
| SelectPosition (pos : position)
| SlidePosition (value : string).

Definition placementStep (st : placement) (e : placementEvent) : placement :=
  match e with
  | SelectPosition pos => handlePositionChange pos st
  | SlidePosition value => onPositionSlider value st
  end.

Definition placementRun (es : list placementEvent) : placement :=
  fold_left placementStep es initialPlacement.

(** The [onChange] of the word-limit slider: the new [visualMaxWords];
    [None] is NaN. *)
Definition onMaxWordsSlider (value : string) : option Z :=
  match parseInt (Some value) with
  | Some val => Some (if val =? 15 then 100 else val)
  | None => None
  end.

(** The [value] the word-limit slider is given. *)
Definition maxWordsSliderValue (visualMaxWords : Z) : Z :=
  if visualMaxWords =? 100 then 15 else visualMaxWords.

(** The label beside the word-limit slider. *)
Definition maxWordsLabel (visualMaxWords : Z) : string :=
  if visualMaxWords >=? 50 then "All" else Number_toString visualMaxWords.

End Controls.

(** ** [src/components/ResultsView.tsx]: the caption panel of a frame *)

Module Panel.
Import ResultsView.

Section Drawing.
Variable measure : string -> Q.   (* [ctx.measureText(line).width] *)

Definition calculatedFontSize (height fontSize : Q) : Z :=
  Qfloor (height * (fontSize / 100)).

(** The [forEach] that finds the widest line. *)
Definition maxLineWidth (lines : list string) : Q :=
  fold_left (fun maxLineWidth line =>
               if Qltb maxLineWidth (measure line) then measure line
               else maxLineWidth)
            lines 0%Q.

(** The rectangle passed to [roundRect] or [rect]. *)
Record box : Type := mkBox {
  boxX : Q;
  boxY : Q;
  boxWidth : Q;
  boxHeight : Q
}.

Definition backgroundBox (lines : list string) (width height fontSize captionY : Q)
  : box :=
  let size := inject_Z (calculatedFontSize height fontSize) in
  let x := (width / 2)%Q in
  let lineHeight := (size * 1.2)%Q in
  let totalTextHeight := (inject_Z (Z.of_nat (length lines)) * lineHeight)%Q in
  let centerY := (height * (captionY / 100))%Q in
  let paddingX := (size * 0.6)%Q in
  let paddingY := (size * 0.3)%Q in
  let boxWidth := (maxLineWidth lines + paddingX * 2)%Q in
  let boxHeight := (totalTextHeight + paddingY * 2)%Q in
  mkBox (x - boxWidth / 2)%Q (centerY - totalTextHeight / 2 - paddingY)%Q
        boxWidth boxHeight.

(** A call of [strokeText] and [fillText]: the line, its anchor (the centre
    of its bottom edge) and the stroke width in force. *)
Record drawnLine : Type := mkDrawn {
  lineText : string;
  lineX : Q;
  lineY : Q;
  strokeWidth : Q
}.

(** The state of the text loop: the calls so far, [lineY] and
    [ctx.lineWidth]. *)
Definition drawLine (showBackground : bool) (backgroundOpacity : Z)
    (x lineHeight : Q) (st : list drawnLine * Q * Q) (line : string)
  : list drawnLine * Q * Q :=
  let '(drawn, lineY, lineWidth) := st in
  let lineWidth' :=
    if negb showBackground || (backgroundOpacity <? 50) then lineWidth
    else (lineWidth * 0.5)%Q in
  (drawn ++ [mkDrawn line x lineY lineWidth'], (lineY + lineHeight)%Q, lineWidth').

Definition drawText (showBackground : bool) (backgroundOpacity : Z)
    (lines : list string) (width height fontSize captionY : Q)
  : list drawnLine :=
  let size := inject_Z (calculatedFontSize height fontSize) in
  let x := (width / 2)%Q in
  let lineWidth := Qmax 2 (size * 0.08) in
  let lineHeight := (size * 1.2)%Q in
  let totalTextHeight := (inject_Z (Z.of_nat (length lines)) * lineHeight)%Q in
  let centerY := (height * (captionY / 100))%Q in
  let lineY := (centerY - totalTextHeight / 2 + lineHeight - lineHeight * 0.15)%Q in
  fst (fst (fold_left (drawLine showBackground backgroundOpacity x lineHeight)
                      lines ([], lineY, lineWidth))).

End Drawing.

End Panel.

(** ** [src/components/ResultsView.tsx]: the peaks of the waveform *)

Module Waveform.

(** A number that may be NaN. *)
Definition num : Type := option Q.

Definition addNum (a b : num) : num :=
  match a, b with
  | Some a, Some b => Some (a + b)%Q
  | _, _ => None
  end.

(** [Math.abs(channelData[k])]: a read past the end is [undefined], and its
    absolute value NaN. *)
Definition absAt (channelData : list Q) (k : Z) : num :=
  if k <? 0 then None else option_map Qabs (channelData !! Z.to_nat k).

Definition SAMPLES : Z := 100.

(** The inner loop over a block: [sum] and [count] when it ends, [None]
    when [fuel] turns do not reach the end. *)
Fixpoint blockLoop (fuel : nat) (channelData : list Q)
    (start blockSize stride j : Z) (sum : num) (count : Z)
  : option (num * Z) :=
  match fuel with
  | O => None
  | S fuel' =>
      if j <? blockSize then
        blockLoop fuel' channelData start blockSize stride (j + stride)
                  (addNum sum (absAt channelData (start + j))) (count + 1)
      else Some (sum, count)
  end.

(** [sum / count]: with no sample counted the sum is still 0, and 0 / 0 is
    NaN. *)
Definition average (sum : num) (count : Z) : num :=
  if count =? 0 then None
  else match sum with
       | Some s => Some (s / inject_Z count)%Q
       | None => None
       end.

(** The body of the outer loop: the peak pushed for block [i]. *)
Definition blockPeak (fuel : nat) (channelData : list Q) (blockSize i : Z)
  : option num :=
  let start := i * blockSize in
  let stride := Qceiling (inject_Z blockSize / 100) in
  match blockLoop fuel channelData start blockSize stride 0 (Some 0%Q) 0 with
  | Some (sum, count) => Some (average sum count)
  | None => None
  end.

(** [Math.max(...values)] for a list that is not empty: NaN as soon as one
    of the values is NaN. *)
Fixpoint Math_max (values : list num) : num :=
  match values with
  | [] => None
  | [v] => v
  | v :: rest =>
      match v, Math_max rest with
      | Some a, Some b => Some (Qmax a b)
      | _, _ => None
      end
  end.

(** [p / max], for a [max] that is not 0. *)
Definition normalise (max p : num) : num :=
  match p, max with
  | Some p, Some m => Some (p / m)%Q
  | _, _ => None
  end.

(** The decoding branch of [generateWaveform], from the samples of the first
    channel to the peaks it passes to [setPeaks]. *)
Definition calculatePeaks (fuel : nat) (channelData : list Q)
  : option (list num) :=
  let blockSize := Z.of_nat (length channelData) / SAMPLES in
  calculatedPeaks ←
    mapM (fun i => blockPeak fuel channelData blockSize (Z.of_nat i))
         (seq 0 (Z.to_nat SAMPLES));
  let max := Math_max (calculatedPeaks ++ [Some 0.01%Q]) in
  Some (map (normalise max) calculatedPeaks).

End Waveform.

(** ** [src/components/ResultsView.tsx]: the animation in double arithmetic *)

(** The animation branch of [drawFrameToCanvas] once more, with the rounding
    of every operation of the source written out; a decimal literal is the
    double nearest to it.  What the context does with the numbers it is
    given is as in [ResultsView]. *)
Module Animation.
Import ResultsView.

Definition bounceDuration : Q := fl 0.6.
Definition fadeDuration : Q := fl 0.25.
Definition slideDuration : Q := fl 0.3.
Definition popDuration : Q := fl 0.3.
Definition shakeDuration : Q := fl 0.5.

(** The piecewise [yOffset] of the bounce. *)
Definition bounceOffset (progress : Q) : Q :=
  if Qltb progress (fl 0.3) then fl (-20 * fl (1 - fl (progress / fl 0.3)))
  else if Qltb progress (fl 0.5) then
    let p := fl (fl (progress - fl 0.3) / fl 0.2) in fl (-10 * p)
  else if Qltb progress (fl 0.7) then
    let p := fl (fl (progress - fl 0.5) / fl 0.2) in fl (-10 * fl (1 - p))
  else if Qltb progress (fl 0.9) then
    let p := fl (fl (progress - fl 0.7) / fl 0.2) in fl (-2 * p)
  else
    let p := fl (fl (progress - fl 0.9) / fl 0.1) in fl (-2 * fl (1 - p)).

(** The block under [if (selectedAnimation !== 'none')]. *)
Definition animate (sin : Q -> Q) (selectedAnimation : animation)
    (elapsed width height captionY : Q) (ctx : ctxState) : ctxState :=
  let x := fl (width / 2) in
  match selectedAnimation with
  | none => ctx
  | fade =>
      let progress := clamp01 (fl (elapsed / fadeDuration)) in
      setAlpha progress ctx
  | slide =>
      let progress := clamp01 (fl (elapsed / slideDuration)) in
      let slideOffset := fl (fl (1 - progress) * fl (height * fl 0.05)) in
      translate 0 slideOffset (setAlpha progress ctx)
  | pop =>
      let progress := clamp01 (fl (elapsed / popDuration)) in
      let k := fl (fl 0.5 + fl (fl 0.5 * progress)) in
      let centerY := fl (height * fl (captionY / 100)) in
      translate (- x) (- centerY)
        (scale k (translate x centerY (setAlpha progress ctx)))
  | bounce =>
      let progress := clamp01 (fl (elapsed / bounceDuration)) in
      let ctx1 :=
        if Qltb progress (fl 0.3) then setAlpha (fl (progress / fl 0.3)) ctx
        else ctx in
      let yOffset := bounceOffset progress in
      let scaleFactor := fl (height / 1000) in
      translate 0 (fl (fl (yOffset * scaleFactor) * 50)) ctx1
  | glow =>
      let pulse := fl (fl (sin (fl (elapsed * 4)) + 1) / 2) in
      setShadowBlur (fl (fl (5 + fl (pulse * 15)) * fl (height / 1000))) ctx
  | shake =>
      let progress := clamp01 (fl (elapsed / shakeDuration)) in
      if Qltb progress 1 then
        let intensity := fl (5 * fl (1 - progress)) in
        let xOff :=
          fl (fl (sin (fl (progress * 50)) * intensity) * fl (width / 1000)) in
        translate (fl (xOff * 5)) 0 ctx
      else ctx
  end%Q.

End Animation.

(** ** [src/components/ResultsView.tsx]: the layout in double arithmetic *)

(** [getWrappedLines] once more, with measured widths that are doubles and
    the rounding of every sum of the source written out. *)
Module TextWrap.
Import ResultsView.

(** [getRangeWidth]: the width of the words [start, end_).  An index past the
    end of [wordWidths] reads 0 here; the callers never pass one. *)
Definition getRangeWidth (wordWidths : list Q) (spaceWidth : Q)
    (start end_ : nat) : Q :=
  if (end_ <=? start)%nat then 0%Q
  else
    let width :=
      fold_left (fun width i => fl (width + nth i wordWidths 0)%Q)
                (seq start (end_ - start)) 0%Q in
    fl (width
        + fl (inject_Z (Z.max 0 (Z.of_nat end_ - Z.of_nat start - 1))
              * spaceWidth))%Q.

(** The variables of the split search; [minDiff = None] is [Infinity]. *)
Record splitState : Type := mkSplit {
  bestSplit : Z;
  minDiff : option Q
}.

Definition lt_minDiff (diff : Q) (m : option Q) : bool :=
  match m with
  | Some d => Qltb diff d
  | None => true
  end.

(** One turn of the loop over the split points. *)
Definition splitStep (wordWidths : list Q) (spaceWidth maxWidth : Q)
    (visualMaxWords : Z) (n : nat) (st : splitState) (i : nat) : splitState :=
  if (Z.of_nat i >? visualMaxWords) || (Z.of_nat (n - i) >? visualMaxWords)
  then st
  else
    let w1 := getRangeWidth wordWidths spaceWidth 0 i in
    let w2 := getRangeWidth wordWidths spaceWidth i n in
    if Qle_bool w1 maxWidth && Qle_bool w2 maxWidth then
      let diff := Qabs (fl (w1 - w2)%Q) in
      if lt_minDiff diff (minDiff st) then mkSplit (Z.of_nat i) (Some diff)
      else st
    else st.

Definition searchSplit (wordWidths : list Q) (spaceWidth maxWidth : Q)
    (visualMaxWords : Z) (n : nat) : splitState :=
  fold_left (splitStep wordWidths spaceWidth maxWidth visualMaxWords n)
            (seq 1 (n - 1)) (mkSplit (-1) None).

(** The variables of the greedy loop. *)
Record wrapState : Type := mkWrap {
  lines : list string;
  currentLine : list string;
  currentWidth : Q
}.

(** One turn of the greedy loop, on [words[i]] and [wordWidths[i]]: the test
    adds the space first, the update of [currentWidth] the word. *)
Definition wrapStep (spaceWidth maxWidth : Q) (visualMaxWords : Z)
    (st : wrapState) (ww : string * Q) : wrapState :=
  let (word, w) := ww in
  let widthOverflow :=
    (0 <? length (currentLine st))%nat
    && Qltb maxWidth (fl (fl (currentWidth st + spaceWidth) + w)%Q) in
  let wordCountOverflow := Z.of_nat (length (currentLine st)) >=? visualMaxWords in
  if widthOverflow || wordCountOverflow then
    if (0 <? length (currentLine st))%nat then
      mkWrap (lines st ++ [join " " (currentLine st)]) [word] w
    else mkWrap (lines st) (currentLine st ++ [word]) w
  else
    if (length (currentLine st) =? 0)%nat then
      mkWrap (lines st) (currentLine st ++ [word]) w
    else
      mkWrap (lines st) (currentLine st ++ [word])
             (fl (currentWidth st + fl (spaceWidth + w))%Q).

Definition greedyWrap (spaceWidth maxWidth : Q) (visualMaxWords : Z)
    (words : list string) (wordWidths : list Q) : list string :=
  let st := fold_left (wrapStep spaceWidth maxWidth visualMaxWords)
                      (combine words wordWidths) (mkWrap [] [] 0%Q) in
  if (0 <? length (currentLine st))%nat
  then lines st ++ [join " " (currentLine st)]
  else lines st.

(** [getWrappedLines]: [measure s] is [ctx.measureText(s).width]; the result
    is the returned array and the cache after the call. *)
Definition getWrappedLines (measure : string -> Q) (visualMaxWords : Z)
    (cache : textLayoutCache) (text : string) (maxWidth : Q) (captionId : Z)
  : list string * textLayoutCache :=
  match cache !! captionId with
  | Some res => (res, cache)
  | None =>
      let words := split " " text in
      if (length words =? 0)%nat then ([], cache)
      else
        let spaceWidth := measure " " in
        let wordWidths := map measure words in
        let totalWidth := getRangeWidth wordWidths spaceWidth 0 (length words) in
        if Qle_bool totalWidth maxWidth
           && (Z.of_nat (length words) <=? visualMaxWords)
        then
          let res := [text] in
          (res, <[captionId := res]> cache)
        else
          let st := searchSplit wordWidths spaceWidth maxWidth visualMaxWords
                                (length words) in
          if negb (bestSplit st =? -1) then
            let res := [join " " (take (Z.to_nat (bestSplit st)) words);
                        join " " (drop (Z.to_nat (bestSplit st)) words)] in
            (res, <[captionId := res]> cache)
          else
            let res := greedyWrap spaceWidth maxWidth visualMaxWords
                                  words wordWidths in
            (res, <[captionId := res]> cache)
  end.

End TextWrap.

Import JSArray Preview AudioTrack RenderLoop Helpers Playback Controls Panel Waveform.

(** *** More vocabulary: line ends *)

(** The same text with Windows line ends: every line feed gets a carriage
    return before it. *)
Fixpoint to_crlf (s : string) : string :=
  match s with
  | EmptyString => EmptyString
  | String c s' =>
      if Ascii.eqb c LF then String CR (String LF (to_crlf s'))
      else String c (to_crlf s')
  end.

(** *** More vocabulary: timestamps *)

(** A non-empty run of decimal digits, and its value. *)
Definition isDigits (s : string) : bool := truthy s && all_chars is_digit s.

Definition digitsValue (s : string) : Z := read_digits digit_val 10 0 s.

(** How many times [c] occurs in [s]. *)
Fixpoint count_char (c : ascii) (s : string) : nat :=
  match s with
  | EmptyString => O
  | String d s' => ((if Ascii.eqb c d then 1 else 0) + count_char c s')%nat
  end.

(** *** More vocabulary: chunks *)

(** The consecutive runs of [n] elements of [l]; the last run may be
    shorter.  [fuel] bounds the number of runs. *)
Fixpoint chunksOf {A : Type} (fuel n : nat) (l : list A) : list (list A) :=
  match fuel with
  | O => []
  | S fuel' =>
      match l with
      | [] => []
      | _ :: _ => take n l :: chunksOf fuel' n (drop n l)
      end
  end.

(** *** More vocabulary: playback *)

(** The caption [c] covers the time [t]: both of its timestamps are read as
    numbers, and [t] lies between them, ends included. *)
Definition covers (c : CaptionSegment) (t : Q) : Prop :=
  exists s e,
    parseTime (startTime c) = Some s /\ parseTime (endTime c) = Some e
    /\ (s <= t <= e)%Q.

(** The numeric caption made from [c]. *)
Definition numericOf (c : CaptionSegment) : numericCaption :=
  mkNumeric c (parseTime (startTime c)) (parseTime (endTime c)).

(** *** More vocabulary: controls *)

(** A value a range input with the bounds [lo] and [hi] can report: a
    decimal integer within the bounds. *)
Definition rangeValue (lo hi : Z) (value : string) : bool :=
  isDigits value && (lo <=? digitsValue value) && (digitsValue value <=? hi).

(** The events of a session in which the position slider reports values
    within its bounds, 5 and 95. *)
Definition sliderInBounds (e : placementEvent) : bool :=
  match e with
  | SelectPosition _ => true
  | SlidePosition value => rangeValue 5 95 value
  end.

(** *** More vocabulary: greedy breaks *)

(** The word [next] cannot join the line [line]: with it the line would be
    wider than [maxWidth], or the line has its [visualMaxWords] words. *)
Definition mustBreak (measure : string -> Z) (visualMaxWords maxWidth : Z)
    (line : list string) (next : string) : Prop :=
  maxWidth < wordsWidth measure line + measure " " + measure next
  \/ visualMaxWords <= Z.of_nat (length line).

(** Every line of [chunks] but the last is followed by a word that cannot
    join it. *)
Fixpoint greedyBreaks (measure : string -> Z) (visualMaxWords maxWidth : Z)
    (chunks : list (list string)) : Prop :=
  match chunks with
  | [] => True
  | c :: rest =>
      match rest with
      | [] => True
      | next :: _ =>
          (forall w, head next = Some w ->
                     mustBreak measure visualMaxWords maxWidth c w)
          /\ greedyBreaks measure visualMaxWords maxWidth rest
      end
  end.


(** *** Widths in double arithmetic *)

(** The sum of a list of doubles, added from the left as a loop does, and
    the exact sum of the same numbers. *)
Definition sumD (l : list Q) : Q := fold_left (fun a w => fl (a + w)%Q) l 0%Q.

Definition sumQ (l : list Q) : Q := fold_right Qplus 0%Q l.

(** The spaces between the words of a line. *)
Definition gaps (ws : list string) : Z := Z.max 0 (Z.of_nat (length ws) - 1).

(** The width the layout estimates for a line of words: the sum of the
    measured widths of the words, and then a measured space for every gap,
    in double arithmetic. *)
Definition estimatedWidth (measure : string -> Q) (ws : list string) : Q :=
  fl (sumD (map measure ws) + fl (inject_Z (gaps ws) * measure " "))%Q.

(** The same sum in exact arithmetic. *)
Definition exactWidth (measure : string -> Q) (ws : list string) : Q :=
  (sumQ (map measure ws) + inject_Z (gaps ws) * measure " ")%Q.

(** What [n] roundings can take from a sum of non-negative doubles: each
    leaves at least [1 - 2^-53] of it. *)
Fixpoint slack (n : nat) : Q :=
  match n with
  | O => 1
  | S n' => (1 - pow2 (-53)) * slack n'
  end%Q.

(** The measure returns non-negative doubles. *)
Definition measuresDoubles (measure : string -> Q) : Prop :=
  forall s, (0 <= measure s)%Q /\ isDouble (measure s).

(** The single-line test: the whole text within the width and the word
    limit. *)
Definition oneLineFits (measure : string -> Q) (visualMaxWords : Z)
    (maxWidth : Q) (text : string) : bool :=
  Qle_bool (estimatedWidth measure (split " " text)) maxWidth
  && (Z.of_nat (length (split " " text)) <=? visualMaxWords).

(** The difference of the estimated widths of the two lines of the cut
    before word [i], as a double. *)
Definition cutDiff (measure : string -> Q) (words : list string) (i : nat) : Q :=
  Qabs (fl (estimatedWidth measure (take i words)
            - estimatedWidth measure (drop i words))%Q).

(** A valid cut: [1 <= i <= N - 1], both lines within the word limit and
    both estimated widths within [maxWidth]. *)
Definition validCut (measure : string -> Q) (visualMaxWords : Z) (maxWidth : Q)
    (words : list string) (i : nat) : bool :=
  (1 <=? i)%nat && (i <? length words)%nat
  && (Z.of_nat i <=? visualMaxWords)
  && (Z.of_nat (length words - i) <=? visualMaxWords)
  && Qle_bool (estimatedWidth measure (take i words)) maxWidth
  && Qle_bool (estimatedWidth measure (drop i words)) maxWidth.

(** The state of the search after the cuts [1 .. k]. *)
Definition cutInv measure vmw maxWidth words (k : nat)
    (st : TextWrap.splitState) : Prop :=
  (TextWrap.bestSplit st = -1 /\ TextWrap.minDiff st = None
   /\ forall i, (i <= k)%nat -> validCut measure vmw maxWidth words i = false)
  \/ (exists b, TextWrap.bestSplit st = Z.of_nat b
        /\ TextWrap.minDiff st = Some (cutDiff measure words b)
        /\ (b <= k)%nat
        /\ validCut measure vmw maxWidth words b = true
        /\ forall i, (i <= k)%nat ->
             validCut measure vmw maxWidth words i = true ->
             (cutDiff measure words b <= cutDiff measure words i)%Q).

(** A group of words that makes one line: it is not empty, it respects the
    word limit when the limit is at least 1, and its exact width, less what
    the roundings of its sum can take, is within [maxWidth] unless it is a
    single word. *)
Definition lineOk (measure : string -> Q) (visualMaxWords : Z) (maxWidth : Q)
    (ch : list string) : Prop :=
  ch <> []
  /\ (1 <= visualMaxWords -> Z.of_nat (length ch) <= visualMaxWords)
  /\ ((exactWidth measure ch * slack (2 * length ch) <= maxWidth)%Q
      \/ length ch = 1%nat).

(** The state of the greedy loop once the words [processed] are consumed. *)
Definition greedyInv (measure : string -> Q) (visualMaxWords : Z) (maxWidth : Q)
    (processed : list string) (st : TextWrap.wrapState) : Prop :=
  exists chunks : list (list string),
    TextWrap.lines st = map (join " ") chunks
    /\ concat chunks ++ TextWrap.currentLine st = processed
    /\ Forall (lineOk measure visualMaxWords maxWidth) chunks
    /\ (TextWrap.currentLine st = [] -> chunks = [])
    /\ (TextWrap.currentLine st <> [] ->
        lineOk measure visualMaxWords maxWidth (TextWrap.currentLine st)
        /\ onGrid (TextWrap.currentWidth st)
        /\ (exactWidth measure (TextWrap.currentLine st)
            * slack (2 * (length (TextWrap.currentLine st) - 1))
            <= TextWrap.currentWidth st)%Q).

(** *** Sample measures *)

(** Ten units a character, but the line [b c] is 38 wide: the width of a
    line is not the sum of the widths of its words and spaces. *)
Definition kerned_measure (s : string) : Q :=
  if String.eqb s "b c" then 38%Q
  else inject_Z (10 * Z.of_nat (String.length s)).

(** Widths with fractions: a table for single words and for the space. *)
Definition tableWidth (w : string) : Q :=
  if String.eqb w "a" then fl 4.8
  else if String.eqb w "b" then fl 0.5
  else if String.eqb w "c" then fl 4.4
  else if String.eqb w "d" then fl 0.1
  else if String.eqb w " " then fl 0.3
  else 0%Q.

(** A measure as additive as doubles allow: the width of a line is the
    double nearest to the exact sum of its words and spaces. *)
Definition rounded_measure (s : string) : Q :=
  if String.eqb s " " then tableWidth s
  else fl (exactWidth tableWidth (split " " s)).

(** Three widths whose double sum is below their exact sum. *)
Definition fraction_measure (s : string) : Q :=
  if String.eqb s "a" then fl 23.9
  else if String.eqb s "b" then fl 0.3
  else if String.eqb s " " then fl 4.2
  else 0%Q.
(** * Properties *)

(** ** Double arithmetic: the rounding *)

Lemma pow2_pos e : (0 < pow2 e)%Q.
Proof. apply Qpower_0_lt. reflexivity. Qed.

Lemma pow2_nonzero e : ~ (pow2 e == 0)%Q.
Proof. pose proof (pow2_pos e). lra. Qed.

Lemma pow2_add a b : (pow2 (a + b) == pow2 a * pow2 b)%Q.
Proof. apply Qpower_plus. discriminate. Qed.

Lemma pow2_le a b : a <= b -> (pow2 a <= pow2 b)%Q.
Proof. intros H. apply Qpower_le_compat_l; [exact H|discriminate]. Qed.

Lemma pow2_lt a b : a < b -> (pow2 a < pow2 b)%Q.
Proof. intros H. apply Qpower_lt_compat_l; [exact H|reflexivity]. Qed.

Lemma pow2_Z k : 0 <= k -> (pow2 k == inject_Z (2 ^ k))%Q.
Proof. intros H. unfold pow2. now rewrite Zpower_Qpower. Qed.

Lemma pow2_succ e : (pow2 (e + 1) == 2 * pow2 e)%Q.
Proof. rewrite pow2_add. change (pow2 1) with 2%Q. ring. Qed.

(** The leading bit of a positive rational. *)
Lemma ilog2_spec x :
  (0 < x)%Q -> (pow2 (ilog2 x) <= x < pow2 (ilog2 x + 1))%Q.
Proof.
  intros Hx. destruct x as [n d]. unfold ilog2. cbn [Qnum Qden].
  assert (Hn : 0 < n) by (unfold Qlt in Hx; cbn in Hx; lia).
  set (a := Z.log2 n). set (b := Z.log2 (Z.pos d)).
  pose proof (Z.log2_spec n Hn) as [Ha1 Ha2]. fold a in Ha1, Ha2.
  pose proof (Z.log2_spec (Z.pos d) ltac:(lia)) as [Hb1 Hb2]. fold b in Hb1, Hb2.
  pose proof (Z.log2_nonneg n) as Ha0. fold a in Ha0.
  pose proof (Z.log2_nonneg (Z.pos d)) as Hb0. fold b in Hb0.
  assert (Hx' : (n # d == inject_Z n / inject_Z (Z.pos d))%Q) by apply Qmake_Qdiv.
  assert (Hd : (0 < inject_Z (Z.pos d))%Q) by reflexivity.
  assert (Hlow : (pow2 (a - b - 1) <= n # d)%Q).
  { rewrite Hx'. apply Qle_shift_div_l; [exact Hd|].
    replace (a - b - 1) with (a - (b + 1)) by lia.
    unfold pow2. rewrite Qpower_minus by discriminate.
    fold (pow2 a). fold (pow2 (b + 1)).
    rewrite (pow2_Z a), (pow2_Z (b + 1)) by lia.
    unfold Qdiv. rewrite <- Qmult_assoc.
    apply Qle_trans with (inject_Z (2 ^ a) * 1)%Q; [|rewrite Qmult_1_r, <- Zle_Qle; lia].
    apply Qmult_le_l; [change 0%Q with (inject_Z 0); rewrite <- Zlt_Qlt; lia|].
    rewrite Qmult_comm. apply Qle_shift_div_r;
      [change 0%Q with (inject_Z 0); rewrite <- Zlt_Qlt; lia|].
    rewrite Qmult_1_l, <- Zle_Qle. lia. }
  assert (Hhigh : (n # d < pow2 (a - b + 1))%Q).
  { rewrite Hx'. apply Qlt_shift_div_r; [exact Hd|].
    replace (a - b + 1) with ((a + 1) - b) by lia.
    unfold pow2. rewrite Qpower_minus by discriminate.
    fold (pow2 (a + 1)). fold (pow2 b).
    rewrite (pow2_Z (a + 1)), (pow2_Z b) by lia.
    unfold Qdiv. rewrite <- Qmult_assoc.
    apply Qlt_le_trans with (inject_Z (2 ^ (a + 1)) * 1)%Q;
      [rewrite Qmult_1_r, <- Zlt_Qlt; lia|].
    apply Qmult_le_l; [change 0%Q with (inject_Z 0); rewrite <- Zlt_Qlt; lia|].
    rewrite Qmult_comm. apply Qle_shift_div_l;
      [change 0%Q with (inject_Z 0); rewrite <- Zlt_Qlt; lia|].
    rewrite Qmult_1_l, <- Zle_Qle. lia. }
  destruct (Qle_bool (pow2 (a - b)) (n # d)) eqn:E.
  - apply Qle_bool_iff in E. split; [exact E|exact Hhigh].
  - split.
    + exact Hlow.
    + replace (a - b - 1 + 1) with (a - b) by lia.
      apply Qnot_le_lt. intros H. apply Qle_bool_iff in H. congruence.
Qed.

Lemma ilog2_unique x k :
  (pow2 k <= x < pow2 (k + 1))%Q -> ilog2 x = k.
Proof.
  intros [H1 H2].
  assert (Hx : (0 < x)%Q) by (pose proof (pow2_pos k); lra).
  destruct (ilog2_spec x Hx) as [H3 H4].
  destruct (Z.lt_trichotomy (ilog2 x) k) as [Hlt|[Heq|Hgt]]; [|exact Heq|].
  - pose proof (pow2_le (ilog2 x + 1) k ltac:(lia)). lra.
  - pose proof (pow2_le (k + 1) (ilog2 x) ltac:(lia)). lra.
Qed.

Lemma ilog2_le x y : (0 < x)%Q -> (x <= y)%Q -> ilog2 x <= ilog2 y.
Proof.
  intros Hx Hxy.
  destruct (ilog2_spec x Hx) as [H1 H2].
  destruct (ilog2_spec y ltac:(lra)) as [H3 H4].
  destruct (Z.le_gt_cases (ilog2 x) (ilog2 y)) as [|Hgt]; [assumption|].
  pose proof (pow2_le (ilog2 y + 1) (ilog2 x) ltac:(lia)). lra.
Qed.

Lemma ilog2_comp x y : (0 < x)%Q -> (x == y)%Q -> ilog2 x = ilog2 y.
Proof.
  intros Hx Hxy. symmetry. apply ilog2_unique. rewrite <- Hxy.
  now apply ilog2_spec.
Qed.

(** The nearest integer. *)
Lemma rne_Z k : rne (inject_Z k) = k.
Proof.
  unfold rne. rewrite Qfloor_Z.
  assert (H : forall q, (q - q ?= 1 # 2)%Q = Lt)
    by (intros q; apply (proj1 (Qlt_alt _ _)); lra).
  now rewrite H.
Qed.

Lemma rne_near x : (inject_Z (rne x) - (1 # 2) <= x <= inject_Z (rne x) + (1 # 2))%Q.
Proof.
  unfold rne. pose proof (Qfloor_le x) as H1. pose proof (Qlt_floor x) as H2.
  rewrite inject_Z_plus in H2. change (inject_Z 1) with 1%Q in H2.
  destruct (Qcompare_spec (x - inject_Z (Qfloor x)) (1 # 2)) as [E|E|E].
  - destruct (Z.even (Qfloor x));
      rewrite ?inject_Z_plus; change (inject_Z 1) with 1%Q; lra.
  - lra.
  - rewrite inject_Z_plus. change (inject_Z 1) with 1%Q. lra.
Qed.

Lemma rne_floor x : Qfloor x <= rne x <= Qfloor x + 1.
Proof.
  unfold rne. destruct (x - inject_Z (Qfloor x) ?= 1 # 2)%Q;
    [destruct (Z.even (Qfloor x))| |]; lia.
Qed.

Lemma rne_le x y : (x <= y)%Q -> rne x <= rne y.
Proof.
  intros Hxy. pose proof (Qfloor_resp_le x y Hxy) as Hf.
  destruct (Z.eq_dec (Qfloor x) (Qfloor y)) as [E|E].
  - unfold rne. rewrite <- E.
    destruct (Qcompare_spec (x - inject_Z (Qfloor x)) (1 # 2)) as [Ex|Ex|Ex];
      destruct (Qcompare_spec (y - inject_Z (Qfloor x)) (1 # 2)) as [Ey|Ey|Ey];
      try destruct (Z.even (Qfloor x)); first [lia | exfalso; lra].
  - pose proof (rne_floor x). pose proof (rne_floor y). lia.
Qed.

Lemma rne_comp x y : (x == y)%Q -> rne x = rne y.
Proof. intros H. apply Z.le_antisymm; apply rne_le; lra. Qed.

(** The unit in the last place. *)
Lemma ulpExp_comp x y : ~ (x == 0)%Q -> (x == y)%Q -> ulpExp x = ulpExp y.
Proof.
  intros Hx Hxy. unfold ulpExp. f_equal. f_equal.
  apply ilog2_comp; [|now apply Qabs_wd].
  apply Qabs_case; intros; lra.
Qed.

Lemma fl_comp x y : (x == y)%Q -> (fl x == fl y)%Q.
Proof.
  intros Hxy. unfold fl.
  destruct (Qeq_bool x 0) eqn:Ex.
  - apply Qeq_bool_iff in Ex.
    assert (Ey : Qeq_bool y 0 = true) by (apply Qeq_bool_iff; lra).
    now rewrite Ey.
  - assert (Hx : ~ (x == 0)%Q).
    { intros H. apply Qeq_bool_iff in H. congruence. }
    assert (Ey : Qeq_bool y 0 = false).
    { destruct (Qeq_bool y 0) eqn:E; [|reflexivity].
      apply Qeq_bool_iff in E. lra. }
    rewrite Ey, <- (ulpExp_comp x y Hx Hxy).
    rewrite (rne_comp (x / pow2 (ulpExp x)) (y / pow2 (ulpExp x))); [reflexivity|].
    apply Qdiv_comp; [exact Hxy|reflexivity].
Qed.

#[global] Instance fl_Proper : Proper (Qeq ==> Qeq) fl.
Proof. intros x y. apply fl_comp. Qed.

Lemma fl_0 : (fl 0 == 0)%Q.
Proof. reflexivity. Qed.

(** A positive rational rounds into its own binade. *)
Lemma fl_pos_bounds x :
  (0 < x)%Q ->
  (fl x == inject_Z (rne (x / pow2 (ulpExp x))) * pow2 (ulpExp x))%Q
  /\ (pow2 (ilog2 x) <= x < pow2 (ilog2 x + 1))%Q
  /\ (emin < ilog2 x - 52 -> (pow2 (ilog2 x) <= fl x)%Q)
  /\ (fl x <= pow2 (ulpExp x + 53))%Q
  /\ (0 <= fl x)%Q.
Proof.
  intros Hx.
  assert (E0 : Qeq_bool x 0 = false).
  { destruct (Qeq_bool x 0) eqn:E; [|reflexivity]. apply Qeq_bool_iff in E. lra. }
  assert (Ea : (Qabs x == x)%Q) by (apply Qabs_pos; lra).
  assert (Eu : ulpExp x = Z.max (ilog2 x - 52) emin).
  { unfold ulpExp. f_equal. f_equal. apply ilog2_comp; [|exact Ea].
    rewrite Ea. exact Hx. }
  pose proof (ilog2_spec x Hx) as [H1 H2].
  pose proof (pow2_pos (ulpExp x)) as Hp.
  split; [unfold fl; now rewrite E0|]. split; [now split|].
  assert (Efl : (fl x == inject_Z (rne (x / pow2 (ulpExp x))) * pow2 (ulpExp x))%Q)
    by (unfold fl; now rewrite E0).
  split; [|split].
  - intros Hn. rewrite Efl.
    assert (Ee : ulpExp x = ilog2 x - 52) by lia.
    assert (Hq : (inject_Z (2 ^ 52) <= x / pow2 (ulpExp x))%Q).
    { apply Qle_shift_div_l; [exact Hp|].
      rewrite <- (pow2_Z 52) by lia. rewrite <- pow2_add, Ee.
      now replace (52 + (ilog2 x - 52)) with (ilog2 x) by lia. }
    apply rne_le in Hq. rewrite rne_Z in Hq.
    apply Qle_trans with (inject_Z (2 ^ 52) * pow2 (ulpExp x))%Q.
    + rewrite <- (pow2_Z 52) by lia. rewrite <- pow2_add, Ee.
      replace (52 + (ilog2 x - 52)) with (ilog2 x) by lia. lra.
    + apply Qmult_le_compat_r; [now rewrite <- Zle_Qle|lra].
  - rewrite Efl.
    assert (Hq : (x / pow2 (ulpExp x) <= inject_Z (2 ^ 53))%Q).
    { apply Qle_shift_div_r; [exact Hp|].
      rewrite <- (pow2_Z 53) by lia. rewrite <- pow2_add.
      pose proof (pow2_le (ilog2 x + 1) (53 + ulpExp x) ltac:(lia)). lra. }
    apply rne_le in Hq. rewrite rne_Z in Hq.
    rewrite Z.add_comm, pow2_add, (pow2_Z 53) by lia.
    apply Qmult_le_compat_r; [now rewrite <- Zle_Qle|lra].
  - rewrite Efl.
    assert (Hq : (inject_Z 0 <= x / pow2 (ulpExp x))%Q).
    { apply Qle_shift_div_l; [exact Hp|]. change (inject_Z 0) with 0%Q. lra. }
    apply rne_le in Hq. rewrite rne_Z in Hq.
    apply Qmult_le_0_compat; [|lra].
    change 0%Q with (inject_Z 0). now rewrite <- Zle_Qle.
Qed.

Lemma fl_opp_bounds x :
  (x < 0)%Q ->
  (fl x == inject_Z (rne (x / pow2 (ulpExp x))) * pow2 (ulpExp x))%Q
  /\ ulpExp x = Z.max (ilog2 (- x) - 52) emin
  /\ (emin < ilog2 (- x) - 52 -> (fl x <= - pow2 (ilog2 (- x)))%Q)
  /\ (- pow2 (ulpExp x + 53) <= fl x)%Q
  /\ (fl x <= 0)%Q.
Proof.
  intros Hx.
  assert (E0 : Qeq_bool x 0 = false).
  { destruct (Qeq_bool x 0) eqn:E; [|reflexivity]. apply Qeq_bool_iff in E. lra. }
  assert (Ea : (Qabs x == - x)%Q) by (apply Qabs_neg; lra).
  assert (Eu : ulpExp x = Z.max (ilog2 (- x) - 52) emin).
  { unfold ulpExp. f_equal. f_equal. apply ilog2_comp; [|exact Ea].
    rewrite Ea. lra. }
  pose proof (ilog2_spec (- x) ltac:(lra)) as [H1 H2].
  pose proof (pow2_pos (ulpExp x)) as Hp.
  assert (Efl : (fl x == inject_Z (rne (x / pow2 (ulpExp x))) * pow2 (ulpExp x))%Q)
    by (unfold fl; now rewrite E0).
  split; [exact Efl|]. split; [exact Eu|]. split; [|split].
  - intros Hn. rewrite Efl.
    assert (Ee : ulpExp x = ilog2 (- x) - 52) by lia.
    assert (Hq : (x / pow2 (ulpExp x) <= inject_Z (- 2 ^ 52))%Q).
    { apply Qle_shift_div_r; [exact Hp|].
      rewrite inject_Z_opp, <- (pow2_Z 52) by lia.
      assert (E : (- pow2 52 * pow2 (ulpExp x) == - pow2 (ilog2 (- x)))%Q).
      { rewrite Ee. replace (ilog2 (- x)) with (52 + (ilog2 (- x) - 52)) at 2 by lia.
        rewrite (pow2_add 52). ring. }
      rewrite E. lra. }
    apply rne_le in Hq. rewrite rne_Z in Hq.
    apply Qle_trans with (inject_Z (- 2 ^ 52) * pow2 (ulpExp x))%Q.
    + apply Qmult_le_compat_r; [now rewrite <- Zle_Qle|lra].
    + rewrite inject_Z_opp, <- (pow2_Z 52) by lia.
      rewrite Ee. replace (ilog2 (- x)) with (52 + (ilog2 (- x) - 52)) at 2 by lia.
      rewrite (pow2_add 52). lra.
  - rewrite Efl.
    assert (Hq : (inject_Z (- 2 ^ 53) <= x / pow2 (ulpExp x))%Q).
    { apply Qle_shift_div_l; [exact Hp|].
      rewrite inject_Z_opp, <- (pow2_Z 53) by lia.
      assert (E : (- pow2 53 * pow2 (ulpExp x) == - pow2 (53 + ulpExp x))%Q)
        by (rewrite (pow2_add 53); ring).
      rewrite E.
      pose proof (pow2_le (ilog2 (- x) + 1) (53 + ulpExp x) ltac:(lia)). lra. }
    apply rne_le in Hq. rewrite rne_Z in Hq.
    rewrite Z.add_comm, pow2_add, (pow2_Z 53) by lia.
    apply Qle_trans with (inject_Z (- 2 ^ 53) * pow2 (ulpExp x))%Q.
    + rewrite inject_Z_opp. lra.
    + apply Qmult_le_compat_r; [now rewrite <- Zle_Qle|lra].
  - rewrite Efl.
    assert (Hq : (x / pow2 (ulpExp x) <= inject_Z 0)%Q).
    { apply Qle_shift_div_r; [exact Hp|]. change (inject_Z 0) with 0%Q. lra. }
    apply rne_le in Hq. rewrite rne_Z in Hq.
    assert (H : (inject_Z (rne (x / pow2 (ulpExp x))) <= 0)%Q)
      by (change 0%Q with (inject_Z 0); now rewrite <- Zle_Qle).
    assert (H' : (0 <= - inject_Z (rne (x / pow2 (ulpExp x))) * pow2 (ulpExp x))%Q)
      by (apply Qmult_le_0_compat; lra).
    lra.
Qed.

(** Rounding is monotone. *)
Theorem fl_le x y : (x <= y)%Q -> (fl x <= fl y)%Q.
Proof.
  intros Hxy.
  destruct (Qlt_le_dec 0 x) as [Hx|Hx].
  - (* both positive *)
    destruct (fl_pos_bounds x Hx) as (Ex & _ & _ & Hxu & _).
    destruct (fl_pos_bounds y ltac:(lra)) as (Ey & [Hy1 Hy2] & Hyl & _ & _).
    assert (Ea : (Qabs x == x)%Q) by (apply Qabs_pos; lra).
    assert (Eb : (Qabs y == y)%Q) by (apply Qabs_pos; lra).
    assert (Hux : ulpExp x = Z.max (ilog2 x - 52) emin).
    { unfold ulpExp. f_equal. f_equal. apply ilog2_comp; [rewrite Ea|]; assumption. }
    assert (Huy : ulpExp y = Z.max (ilog2 y - 52) emin).
    { unfold ulpExp. f_equal. f_equal. apply ilog2_comp; [rewrite Eb; lra|assumption]. }
    pose proof (ilog2_le x y Hx Hxy) as Hl.
    destruct (Z.eq_dec (ulpExp x) (ulpExp y)) as [E|E].
    + rewrite Ex, Ey, E. pose proof (pow2_pos (ulpExp y)) as Hp.
      apply Qmult_le_compat_r; [|lra]. rewrite <- Zle_Qle. apply rne_le.
      apply Qmult_le_compat_r; [exact Hxy|]. apply Qlt_le_weak, Qinv_lt_0_compat, Hp.
    + assert (Hn : emin < ilog2 y - 52) by lia.
      specialize (Hyl Hn).
      pose proof (pow2_le (ulpExp x + 53) (ilog2 y) ltac:(lia)). lra.
  - destruct (Qlt_le_dec y 0) as [Hy|Hy].
    + (* both negative *)
      assert (Hx' : (x < 0)%Q) by lra.
      destruct (fl_opp_bounds x Hx') as (Ex & Hux & Hxl & _ & _).
      destruct (fl_opp_bounds y Hy) as (Ey & Huy & _ & Hyu & _).
      pose proof (ilog2_le (- y) (- x) ltac:(lra) ltac:(lra)) as Hl.
      destruct (Z.eq_dec (ulpExp x) (ulpExp y)) as [E|E].
      * rewrite Ex, Ey, E. pose proof (pow2_pos (ulpExp y)) as Hp.
        apply Qmult_le_compat_r; [|lra]. rewrite <- Zle_Qle. apply rne_le.
        apply Qmult_le_compat_r; [exact Hxy|].
        apply Qlt_le_weak, Qinv_lt_0_compat, Hp.
      * assert (Hn : emin < ilog2 (- x) - 52) by lia.
        specialize (Hxl Hn).
        pose proof (pow2_le (ulpExp y + 53) (ilog2 (- x)) ltac:(lia)). lra.
    + (* x <= 0 <= y *)
      assert (Hfx : (fl x <= 0)%Q).
      { destruct (Qlt_le_dec x 0) as [H|H];
          [now apply fl_opp_bounds|].
        assert (E : (x == 0)%Q) by lra. rewrite E. apply Qle_refl. }
      assert (Hfy : (0 <= fl y)%Q).
      { destruct (Qlt_le_dec 0 y) as [H|H];
          [now apply fl_pos_bounds|].
        assert (E : (y == 0)%Q) by lra. rewrite E. apply Qle_refl. }
      lra.
Qed.

(** An integer that fits in 53 bits is a double. *)
Lemma rne_scaled (k L : Z) (s : Q) :
  0 <= L <= 52 ->
  rne (s * inject_Z k / pow2 (L - 52)) = rne (s * inject_Z (k * 2 ^ (52 - L))).
Proof.
  intros HL. apply rne_comp.
  rewrite inject_Z_mult, <- (pow2_Z (52 - L)) by lia.
  assert (Hinv : (/ pow2 (L - 52) == pow2 (52 - L))%Q).
  { unfold pow2. rewrite <- Qpower_opp. now replace (- (L - 52)) with (52 - L) by lia. }
  unfold Qdiv. rewrite Hinv. ring.
Qed.

Lemma fl_int n : Z.abs n <= 2 ^ 53 -> (fl (inject_Z n) == inject_Z n)%Q.
Proof.
  intros Hn.
  destruct (Z.eq_dec n 0) as [->|Hne]; [reflexivity|].
  assert (Hcase : forall k, 0 < k <= 2 ^ 53 ->
            (fl (inject_Z k) == inject_Z k)%Q
            /\ (fl (- inject_Z k) == - inject_Z k)%Q).
  { intros k Hk.
    assert (Hx : (0 < inject_Z k)%Q)
      by (change 0%Q with (inject_Z 0); rewrite <- Zlt_Qlt; lia).
    assert (Hb : (inject_Z k <= pow2 53)%Q)
      by (rewrite (pow2_Z 53) by lia; rewrite <- Zle_Qle; lia).
    destruct (fl_pos_bounds _ Hx) as (Ex & [H1 H2] & _).
    destruct (fl_opp_bounds (- inject_Z k) ltac:(lra)) as (Eo & Huo & _).
    assert (Hil : ilog2 (- - inject_Z k) = ilog2 (inject_Z k))
      by (apply ilog2_comp; [lra|ring]).
    rewrite Hil in Huo.
    assert (Ea : (Qabs (inject_Z k) == inject_Z k)%Q) by (apply Qabs_pos; lra).
    assert (Hux : ulpExp (inject_Z k) = Z.max (ilog2 (inject_Z k) - 52) emin).
    { unfold ulpExp. f_equal. f_equal. apply ilog2_comp; [rewrite Ea|]; assumption. }
    revert Ex Eo H1 H2 Huo Hux.
    generalize (ulpExp (- inject_Z k)) as u', (ulpExp (inject_Z k)) as u,
      (ilog2 (inject_Z k)) as L.
    intros u' u L Ex Eo H1 H2 Huo Hux.
    assert (HL53 : L <= 53).
    { destruct (Z.le_gt_cases L 53) as [|Hgt]; [assumption|].
      pose proof (pow2_lt 53 L ltac:(lia)). lra. }
    assert (HL0 : 0 <= L).
    { destruct (Z.le_gt_cases 0 L) as [|Hlt]; [assumption|].
      pose proof (pow2_le (L + 1) 0 ltac:(lia)) as Hp.
      change (pow2 0) with 1%Q in Hp.
      assert (Hk2 : (inject_Z k < inject_Z 1)%Q) by (change (inject_Z 1) with 1%Q; lra).
      rewrite <- Zlt_Qlt in Hk2. lia. }
    assert (Hu : u = L - 52) by (unfold emin in *; lia).
    assert (Hu' : u' = L - 52) by (unfold emin in *; lia).
    clear Huo Hux. subst u u'.
    destruct (Z.eq_dec L 53) as [->|Hne53].
    - assert (Ex53 : (inject_Z k == pow2 53)%Q) by lra.
      change (53 - 52) with 1 in *.
      assert (Er : rne (inject_Z k / pow2 1) = 2 ^ 52).
      { rewrite <- (rne_Z (2 ^ 52)). apply rne_comp. rewrite Ex53.
        rewrite <- (pow2_Z 52) by lia. reflexivity. }
      assert (Er' : rne (- inject_Z k / pow2 1) = - 2 ^ 52).
      { rewrite <- (rne_Z (- 2 ^ 52)). apply rne_comp. rewrite Ex53.
        rewrite inject_Z_opp, <- (pow2_Z 52) by lia. reflexivity. }
      rewrite Er in Ex. rewrite Er' in Eo. rewrite Ex, Eo, Ex53.
      rewrite inject_Z_opp, <- (pow2_Z 52) by lia. split; reflexivity.
    - assert (E1 : rne (inject_Z k / pow2 (L - 52)) = k * 2 ^ (52 - L)).
      { rewrite <- (rne_Z (k * 2 ^ (52 - L))) at 1.
        assert (E : (inject_Z (k * 2 ^ (52 - L)) == 1 * inject_Z (k * 2 ^ (52 - L)))%Q)
          by ring.
        rewrite (rne_comp _ _ E), <- (rne_scaled k L 1) by lia.
        apply rne_comp. field. apply pow2_nonzero. }
      assert (E2 : rne (- inject_Z k / pow2 (L - 52)) = - (k * 2 ^ (52 - L))).
      { rewrite <- (rne_Z (- (k * 2 ^ (52 - L)))) at 1. rewrite inject_Z_opp.
        assert (E : (- inject_Z (k * 2 ^ (52 - L)) == -1 * inject_Z (k * 2 ^ (52 - L)))%Q)
          by ring.
        rewrite (rne_comp _ _ E), <- (rne_scaled k L (-1)) by lia.
        apply rne_comp. field. apply pow2_nonzero. }
      rewrite E1 in Ex. rewrite E2 in Eo. rewrite Ex, Eo.
      rewrite inject_Z_opp, inject_Z_mult, <- (pow2_Z (52 - L)) by lia.
      assert (Hp : (pow2 (52 - L) * pow2 (L - 52) == 1)%Q).
      { rewrite <- pow2_add. now replace (52 - L + (L - 52)) with 0 by lia. }
      split.
      + rewrite <- !Qmult_assoc, Hp. ring.
      + assert (E : (- (inject_Z k * pow2 (52 - L)) * pow2 (L - 52)
                     == - (inject_Z k * (pow2 (52 - L) * pow2 (L - 52))))%Q) by ring.
        rewrite E, Hp. ring. }
  destruct (Z.abs_spec n) as [[H0 E]|[H0 E]].
  - apply Hcase. lia.
  - destruct (Hcase (- n) ltac:(lia)) as [_ Hc].
    rewrite inject_Z_opp in Hc.
    assert (E' : (- - inject_Z n == inject_Z n)%Q) by ring.
    now rewrite E' in Hc.
Qed.

(** The error of rounding: half a unit in the last place, which in the
    normal range is at most [2^-53] of the number. *)
Lemma fl_error x :
  (pow2 (-1022) <= x)%Q ->
  (x - x * pow2 (-53) <= fl x <= x + x * pow2 (-53))%Q.
Proof.
  intros Hn. pose proof (pow2_pos (-1022)) as H0.
  assert (Hx : (0 < x)%Q) by lra.
  destruct (fl_pos_bounds x Hx) as (Ex & [H1 H2] & _).
  assert (Ea : (Qabs x == x)%Q) by (apply Qabs_pos; lra).
  assert (Hux : ulpExp x = Z.max (ilog2 x - 52) emin).
  { unfold ulpExp. f_equal. f_equal. apply ilog2_comp; [rewrite Ea|]; assumption. }
  assert (Hil : -1022 <= ilog2 x).
  { destruct (Z.le_gt_cases (-1022) (ilog2 x)) as [|Hlt]; [assumption|].
    pose proof (pow2_le (ilog2 x + 1) (-1022) ltac:(lia)). lra. }
  assert (Hu : ulpExp x = ilog2 x - 52) by (unfold emin in *; lia).
  pose proof (rne_near (x / pow2 (ulpExp x))) as [R1 R2].
  pose proof (pow2_pos (ulpExp x)) as Hp.
  assert (Hhalf : (pow2 (ulpExp x) * (1 # 2) <= x * pow2 (-53))%Q).
  { apply Qle_trans with (pow2 (ilog2 x) * pow2 (-53))%Q.
    - rewrite <- pow2_add, Hu.
      replace (ilog2 x + -53) with ((ilog2 x - 52) + -1) by lia.
      rewrite pow2_add. change (pow2 (-1)) with (1 # 2)%Q. lra.
    - apply Qmult_le_compat_r; [exact H1|]. apply Qlt_le_weak, pow2_pos. }
  assert (Hxq : (x == x / pow2 (ulpExp x) * pow2 (ulpExp x))%Q)
    by (field; apply pow2_nonzero).
  set (q := (x / pow2 (ulpExp x))%Q) in *.
  set (p := pow2 (ulpExp x)) in *.
  set (r := inject_Z (rne q)) in *.
  assert (B1 : ((r - (1 # 2)) * p <= q * p)%Q) by (apply Qmult_le_compat_r; lra).
  assert (B2 : (q * p <= (r + (1 # 2)) * p)%Q) by (apply Qmult_le_compat_r; lra).
  rewrite Ex. split; nra.
Qed.

Lemma fl_nonneg x : (0 <= x)%Q -> (0 <= fl x)%Q.
Proof. intros H. rewrite <- fl_0. now apply fl_le. Qed.

Lemma fl_nonpos x : (x <= 0)%Q -> (fl x <= 0)%Q.
Proof. intros H. rewrite <- fl_0. now apply fl_le. Qed.

(** Every double is a whole multiple of the least positive one. *)
Lemma fl_onGrid x : onGrid (fl x).
Proof.
  unfold fl. destruct (Qeq_bool x 0).
  - exists 0. ring.
  - assert (He : emin <= ulpExp x) by (unfold ulpExp; lia).
    exists (rne (x / pow2 (ulpExp x)) * 2 ^ (ulpExp x - emin)).
    rewrite inject_Z_mult, <- (pow2_Z (ulpExp x - emin)) by lia.
    rewrite <- Qmult_assoc, <- pow2_add.
    now replace (ulpExp x - emin + emin) with (ulpExp x) by lia.
Qed.

Lemma isDouble_onGrid x : isDouble x -> onGrid x.
Proof.
  intros H. destruct (fl_onGrid x) as [m Hm]. exists m.
  unfold isDouble in H. now rewrite <- H.
Qed.

Lemma onGrid_add x y : onGrid x -> onGrid y -> onGrid (x + y)%Q.
Proof.
  intros [m Hm] [n Hn]. exists (m + n). rewrite inject_Z_plus, Hm, Hn. ring.
Qed.

Lemma onGrid_mult k x : onGrid x -> onGrid (inject_Z k * x)%Q.
Proof.
  intros [m Hm]. exists (k * m). rewrite inject_Z_mult, Hm. ring.
Qed.

(** Below the normal range the doubles are the whole grid: rounding a grid
    point there changes nothing. *)
Lemma fl_grid_small x :
  onGrid x -> (0 <= x < pow2 (-1022))%Q -> (fl x == x)%Q.
Proof.
  intros [m Hm] [H0 H1].
  destruct (Qeq_dec x 0) as [E|E]; [rewrite E; apply fl_0|].
  assert (Hx : (0 < x)%Q) by lra.
  destruct (fl_pos_bounds x Hx) as (Ex & [H2 H3] & _).
  assert (Ea : (Qabs x == x)%Q) by (apply Qabs_pos; lra).
  assert (Hux : ulpExp x = Z.max (ilog2 x - 52) emin).
  { unfold ulpExp. f_equal. f_equal. apply ilog2_comp; [rewrite Ea|]; assumption. }
  assert (Hil : ilog2 x < -1022).
  { destruct (Z.lt_ge_cases (ilog2 x) (-1022)) as [|Hge]; [assumption|].
    pose proof (pow2_le (-1022) (ilog2 x) Hge). lra. }
  assert (Hu : ulpExp x = emin) by (unfold emin in *; lia).
  rewrite Ex, Hu.
  assert (Er : rne (x / pow2 emin) = m).
  { rewrite <- (rne_Z m). apply rne_comp. rewrite Hm. field. apply pow2_nonzero. }
  rewrite Er. symmetry. exact Hm.
Qed.

(** Rounding a non-negative grid point loses at most [2^-53] of it. *)
Lemma fl_lower x :
  onGrid x -> (0 <= x)%Q -> (x * (1 - pow2 (-53)) <= fl x)%Q.
Proof.
  intros Hg H0. pose proof (pow2_pos (-53)) as Hp.
  destruct (Qlt_le_dec x (pow2 (-1022))) as [Hs|Hn].
  - rewrite (fl_grid_small x Hg) by (split; assumption). nra.
  - destruct (fl_error x Hn) as [H _]. lra.
Qed.

(** ** Strings: append, prefix, join and split *)

Lemma app_cons c s t : String c s +:+ t = String c (s +:+ t).
Proof. reflexivity. Qed.

Lemma app_nil_l' s : EmptyString +:+ s = s.
Proof. reflexivity. Qed.

Lemma app_assoc' s t u : (s +:+ t) +:+ u = s +:+ t +:+ u.
Proof.
  induction s as [|c s IH]; [reflexivity|]. now rewrite !app_cons, IH.
Qed.

Lemma length_app' s t :
  String.length (s +:+ t) = (String.length s + String.length t)%nat.
Proof.
  induction s as [|c s IH]; [reflexivity|]. rewrite app_cons. cbn. now rewrite IH.
Qed.

Lemma prefix_cons c p d s :
  String.prefix (String c p) (String d s)
  = if Ascii.eqb c d then String.prefix p s else false.
Proof.
  cbn. destruct (ascii_dec c d) as [->|Hn].
  - now rewrite Ascii.eqb_refl.
  - apply Ascii.eqb_neq in Hn. now rewrite Hn.
Qed.

Lemma prefix_nil_l s : String.prefix EmptyString s = true.
Proof. now destruct s. Qed.

Lemma prefix_app p r : String.prefix p (p +:+ r) = true.
Proof.
  induction p as [|c p IH]; [apply prefix_nil_l|].
  now rewrite app_cons, prefix_cons, Ascii.eqb_refl.
Qed.

Lemma prefix_app_r p x y :
  String.prefix p x = true -> String.prefix p (x +:+ y) = true.
Proof.
  revert x. induction p as [|c p IH]; intros x H; [apply prefix_nil_l|].
  destruct x as [|d x]; [discriminate|].
  rewrite app_cons, prefix_cons in *. destruct (Ascii.eqb c d); auto.
Qed.

Lemma prefix_long p x y :
  (String.length p <= String.length x)%nat ->
  String.prefix p (x +:+ y) = String.prefix p x.
Proof.
  revert x. induction p as [|c p IH]; intros x H.
  - now rewrite !prefix_nil_l.
  - destruct x as [|d x]; [cbn in H; lia|].
    rewrite app_cons, !prefix_cons. destruct (Ascii.eqb c d); [|reflexivity].
    apply IH. cbn in H. lia.
Qed.

Lemma prefix_sdrop p s :
  String.prefix p s = true -> s = p +:+ sdrop (String.length p) s.
Proof.
  revert s. induction p as [|c p IH]; intros s H; [now destruct s|].
  destruct s as [|d s]; [discriminate|].
  rewrite prefix_cons in H. destruct (Ascii.eqb_spec c d) as [->|]; [|discriminate].
  rewrite app_cons. cbn. f_equal. now apply IH.
Qed.

Lemma join_one sep a : join sep [a] = a.
Proof. reflexivity. Qed.

Lemma join_cons sep a l :
  l <> [] -> join sep (a :: l) = a +:+ sep +:+ join sep l.
Proof. destruct l; [congruence|reflexivity]. Qed.

Lemma join_app sep (l1 l2 : list string) :
  l1 <> [] -> l2 <> [] ->
  join sep (l1 ++ l2) = join sep l1 +:+ sep +:+ join sep l2.
Proof.
  intros H1 H2. induction l1 as [|a l1 IH]; [congruence|].
  destruct l1 as [|b l1].
  - cbn [app]. now rewrite join_cons, join_one.
  - change ((a :: b :: l1) ++ l2) with (a :: (b :: l1) ++ l2).
    rewrite join_cons by (now destruct l1).
    rewrite IH by congruence. rewrite (join_cons sep a (b :: l1)) by congruence.
    now rewrite !app_assoc'.
Qed.

Lemma split_from_nonempty sep k s : split_from sep k s <> [].
Proof.
  revert k. induction s as [|c s IH]; intros k; cbn [split_from]; [discriminate|].
  destruct k; [|apply IH].
  destruct (String.prefix sep (String c s)); [discriminate|].
  specialize (IH 0%nat). destruct (split_from sep 0 s); cbn; discriminate.
Qed.

Lemma join_cons_head sep c l :
  l <> [] -> join sep (cons_head c l) = String c (join sep l).
Proof.
  destruct l as [|h [|h' t]]; [congruence|reflexivity|reflexivity].
Qed.

Lemma join_split_from sep k s :
  sep <> EmptyString -> join sep (split_from sep k s) = sdrop k s.
Proof.
  intros Hsep. revert k. induction s as [|c s IH]; intros k.
  - now destruct k.
  - cbn [split_from]. destruct k as [|k]; [|now rewrite IH].
    destruct (String.prefix sep (String c s)) eqn:E.
    + rewrite join_cons by apply split_from_nonempty.
      rewrite IH, app_nil_l'. cbn [sdrop].
      apply prefix_sdrop in E.
      destruct sep as [|d sep]; [congruence|].
      replace (String.length (String d sep) - 1)%nat with (String.length sep)
        by (cbn; lia).
      cbn [String.length sdrop] in E. now rewrite <- E.
    + rewrite join_cons_head by apply split_from_nonempty.
      now rewrite IH.
Qed.

Lemma join_split sep s : sep <> EmptyString -> join sep (split sep s) = s.
Proof. intros H. unfold split. now rewrite join_split_from. Qed.

Lemma split_from_skip sep x rest :
  split_from sep (String.length x) (x +:+ rest) = split_from sep 0 rest.
Proof.
  induction x as [|c x IH]; cbn [String.length].
  - rewrite app_nil_l'. now destruct rest.
  - now rewrite app_cons.
Qed.

Lemma no_early_no_occ sep a : no_early sep a = true -> no_occ sep a = true.
Proof.
  induction a as [|c a IH]; [reflexivity|]. cbn [no_early no_occ].
  rewrite !andb_true_iff, !negb_true_iff. intros [H1 H2]. split; [|auto].
  destruct (String.prefix sep (String c a)) eqn:E; [|reflexivity].
  now rewrite (prefix_app_r _ _ sep E) in H1.
Qed.

Lemma split_no_occ sep a : no_occ sep a = true -> split sep a = [a].
Proof.
  unfold split. induction a as [|c a IH]; [reflexivity|].
  cbn [no_occ split_from]. rewrite andb_true_iff, negb_true_iff.
  intros [-> H]. now rewrite IH.
Qed.

Lemma split_app_sep sep a rest :
  sep <> EmptyString -> no_early sep a = true ->
  split sep (a +:+ sep +:+ rest) = a :: split sep rest.
Proof.
  intros Hsep. unfold split. induction a as [|c a IH]; intros H.
  - rewrite app_nil_l'. destruct sep as [|d sep]; [congruence|].
    rewrite app_cons. cbn [split_from].
    rewrite <- app_cons, prefix_app.
    replace (String.length (String d sep) - 1)%nat with (String.length sep)
      by (cbn; lia).
    now rewrite split_from_skip.
  - cbn [no_early] in H. rewrite andb_true_iff, negb_true_iff in H.
    destruct H as [H1 H2]. rewrite app_cons. cbn [split_from].
    assert (Hp : String.prefix sep (String c (a +:+ sep +:+ rest)) = false).
    { rewrite <- H1, <- app_cons, <- app_assoc'.
      apply prefix_long. rewrite length_app'. lia. }
    rewrite Hp, IH by exact H2. reflexivity.
Qed.

Lemma split_join sep (l : list string) :
  sep <> EmptyString -> l <> [] -> Forall (fun a => no_early sep a = true) l ->
  split sep (join sep l) = l.
Proof.
  intros Hsep Hl H. induction H as [|a l Ha H IH]; [congruence|].
  destruct l as [|b l].
  - rewrite join_one. now apply split_no_occ, no_early_no_occ.
  - rewrite join_cons, split_app_sep, IH by (congruence || assumption).
    reflexivity.
Qed.

Lemma no_early_first_char c sep a :
  has_char c a = false -> no_early (String c sep) a = true.
Proof.
  induction a as [|d a IH]; [reflexivity|]. cbn [has_char no_early].
  rewrite orb_false_iff. intros [H1 H2].
  rewrite app_cons, prefix_cons, H1. now rewrite IH.
Qed.

Lemma split_char_pieces c s :
  Forall (fun p => has_char c p = false) (split (String c EmptyString) s).
Proof.
  unfold split. induction s as [|d s IH]; [repeat constructor|].
  cbn [split_from]. rewrite prefix_cons, prefix_nil_l.
  destruct (Ascii.eqb c d) eqn:E.
  - constructor; [reflexivity|exact IH].
  - destruct (split_from (String c EmptyString) 0 s) as [|h t] eqn:Es.
    + now apply split_from_nonempty in Es.
    + inversion IH; subst. constructor; [|assumption]. cbn. now rewrite E.
Qed.

Lemma has_char_app c s t : has_char c (s +:+ t) = has_char c s || has_char c t.
Proof.
  induction s as [|d s IH]; [reflexivity|].
  rewrite app_cons. cbn. now rewrite IH, orb_assoc.
Qed.

Lemma has_char_join c sep (l : list string) :
  has_char c sep = false ->
  has_char c (join sep l) = existsb (has_char c) l.
Proof.
  intros Hsep. induction l as [|a l IH]; [reflexivity|].
  destruct l as [|b l].
  - rewrite join_one. cbn. now rewrite orb_false_r.
  - rewrite join_cons, !has_char_app, Hsep, IH by congruence. reflexivity.
Qed.

(** ** Characters, digits and the printing of ids *)

Ltac by_cases_on_char c :=
  destruct c as [[] [] [] [] [] [] [] []]; try reflexivity; try discriminate.

Lemma digit_not_white c : is_digit c = true -> is_white c = false.
Proof. by_cases_on_char c. Qed.

Lemma digit_val_is_digit c d : digit_val c = Some d -> is_digit c = true.
Proof. unfold is_digit. now intros ->. Qed.

Lemma is_digit_val c : is_digit c = true -> exists d, digit_val c = Some d.
Proof. unfold is_digit. destruct (digit_val c); [eauto|discriminate]. Qed.

Lemma ts_not_white c : is_ts_char c = true -> is_white c = false.
Proof. by_cases_on_char c. Qed.

Lemma all_chars_impl (p q : ascii -> bool) s :
  (forall c, p c = true -> q c = true) ->
  all_chars p s = true -> all_chars q s = true.
Proof.
  intros Hpq. induction s as [|c s IH]; [reflexivity|]. cbn.
  rewrite !andb_true_iff. intros [H1 H2]. auto.
Qed.

Lemma all_chars_has_char p c s :
  p c = false -> all_chars p s = true -> has_char c s = false.
Proof.
  intros Hc. induction s as [|d s IH]; [reflexivity|]. cbn.
  rewrite andb_true_iff. intros [Hd Hs]. rewrite (IH Hs), orb_false_r.
  destruct (Ascii.eqb_spec c d) as [->|]; [congruence|reflexivity].
Qed.

Lemma digit_char_spec x :
  0 <= x < 10 -> digit_val (digit_char x) = Some x.
Proof.
  intros H.
  assert (E : x = 0 \/ x = 1 \/ x = 2 \/ x = 3 \/ x = 4 \/ x = 5 \/ x = 6
              \/ x = 7 \/ x = 8 \/ x = 9) by lia.
  repeat (destruct E as [->|E]; [reflexivity|]). now subst.
Qed.

Lemma mod10_digit n : digit_val (digit_char (n mod 10)) = Some (n mod 10).
Proof. apply digit_char_spec, Z.mod_pos_bound. lia. Qed.

Lemma digits_of_all_digits fuel n tail :
  all_chars is_digit tail = true ->
  all_chars is_digit (digits_of fuel n tail) = true.
Proof.
  revert n tail. induction fuel as [|fuel IH]; intros n tail Ht; cbn [digits_of].
  - cbn. now rewrite (digit_val_is_digit _ _ (mod10_digit n)).
  - assert (Ht' : all_chars is_digit (String (digit_char (n mod 10)) tail) = true).
    { cbn. now rewrite (digit_val_is_digit _ _ (mod10_digit n)). }
    destruct (n <? 10); [exact Ht'|]. now apply IH.
Qed.

Lemma digits_of_nonempty fuel n tail : truthy (digits_of fuel n tail) = true.
Proof.
  revert n tail. induction fuel as [|fuel IH]; intros n tail; cbn [digits_of].
  - reflexivity.
  - destruct (n <? 10); [reflexivity|apply IH].
Qed.

(** Reading back what [digits_of] writes: some power of ten [k] shifts the
    accumulator past the digits of [n]. *)
Lemma read_digits_of fuel n :
  0 <= n < 2 ^ Z.of_nat (S fuel) ->
  exists k, forall acc tail,
    read_digits digit_val 10 acc (digits_of fuel n tail)
    = read_digits digit_val 10 (acc * k + n) tail.
Proof.
  revert n. induction fuel as [|fuel IH]; intros n Hn.
  - exists 10. intros acc tail. cbn [digits_of read_digits].
    rewrite mod10_digit. change (2 ^ Z.of_nat 1) with 2 in Hn.
    rewrite Z.mod_small by lia. f_equal. lia.
  - cbn [digits_of]. destruct (Z.ltb_spec n 10) as [Hlt|Hge].
    + exists 10. intros acc tail. cbn [read_digits].
      rewrite mod10_digit, Z.mod_small by lia. f_equal. lia.
    + assert (Hq : 0 <= n / 10 < 2 ^ Z.of_nat (S fuel)).
      { split; [apply Z.div_pos; lia|].
        apply Z.div_lt_upper_bound; [lia|].
        rewrite (Nat2Z.inj_succ (S fuel)), Z.pow_succ_r in Hn by lia. lia. }
      destruct (IH _ Hq) as [k Hk]. exists (k * 10). intros acc tail.
      rewrite Hk. cbn [read_digits]. rewrite mod10_digit. f_equal.
      pose proof (Z.div_mod n 10 ltac:(lia)). lia.
Qed.

Lemma log2_fuel n : 0 <= n -> 0 <= n < 2 ^ Z.of_nat (S (Z.to_nat (Z.log2 n))).
Proof.
  intros Hn. split; [exact Hn|].
  rewrite Nat2Z.inj_succ, Z2Nat.id by apply Z.log2_nonneg.
  destruct (Z.eq_dec n 0) as [->|Hne]; [reflexivity|].
  apply Z.log2_spec. lia.
Qed.

Lemma read_Number_toString n :
  0 <= n -> read_digits digit_val 10 0 (Number_toString n) = n.
Proof.
  intros Hn. unfold Number_toString.
  destruct (Z.ltb_spec n 0); [lia|].
  destruct (read_digits_of _ _ (log2_fuel n Hn)) as [k Hk].
  rewrite Hk. cbn. lia.
Qed.

Lemma Number_toString_digits n :
  0 <= n ->
  truthy (Number_toString n) = true
  /\ all_chars is_digit (Number_toString n) = true.
Proof.
  intros Hn. unfold Number_toString. destruct (Z.ltb_spec n 0); [lia|].
  split; [apply digits_of_nonempty|now apply digits_of_all_digits].
Qed.

Lemma Number_toString_has_char c n :
  is_digit c = false -> Ascii.eqb c "-" = false ->
  has_char c (Number_toString n) = false.
Proof.
  intros Hc Hm.
  assert (H : forall m,
             has_char c (digits_of (Z.to_nat (Z.log2 m)) m EmptyString) = false).
  { intros m. apply (all_chars_has_char is_digit); [exact Hc|].
    now apply digits_of_all_digits. }
  unfold Number_toString. destruct (n <? 0); [|apply H].
  cbn [has_char]. now rewrite Hm, H.
Qed.

(** ** Trimming *)

Lemma trim_end_nonwhite s : all_chars nonwhite s = true -> trim_end s = s.
Proof.
  induction s as [|c s IH]; [reflexivity|]. cbn [all_chars trim_end].
  unfold nonwhite at 1. rewrite andb_true_iff, negb_true_iff. intros [Hc Hs].
  rewrite (IH Hs), Hc. now destruct s.
Qed.

Lemma trim_nonwhite s : all_chars nonwhite s = true -> trim s = s.
Proof.
  intros H. unfold trim. destruct s as [|c s]; [reflexivity|].
  assert (Hc : is_white c = false).
  { cbn in H. apply andb_true_iff in H as [Hc _]. now apply negb_true_iff in Hc. }
  cbn [trim_start]. rewrite Hc. now apply trim_end_nonwhite.
Qed.

Lemma timestamp_trim s : isTimestamp s = true -> trim s = s.
Proof.
  unfold isTimestamp. rewrite andb_true_iff. intros [_ H].
  apply trim_nonwhite. revert H. apply all_chars_impl.
  intros c Hc. unfold nonwhite. now rewrite (ts_not_white c Hc).
Qed.

Lemma timestamp_has_char c s :
  is_ts_char c = false -> isTimestamp s = true -> has_char c s = false.
Proof.
  unfold isTimestamp. rewrite andb_true_iff. intros Hc [_ H].
  now apply (all_chars_has_char is_ts_char).
Qed.

Lemma trim_end_cons c s :
  trim_end (String c s)
  = match trim_end s with
    | EmptyString => if is_white c then EmptyString else String c EmptyString
    | r => String c r
    end.
Proof. reflexivity. Qed.

Lemma trim_end_idem s : trim_end (trim_end s) = trim_end s.
Proof.
  induction s as [|c s IH]; [reflexivity|]. rewrite trim_end_cons.
  destruct (trim_end s) as [|d r] eqn:E.
  - destruct (is_white c) eqn:Hc; [reflexivity|]. cbn [trim_end]. now rewrite Hc.
  - now rewrite trim_end_cons, IH.
Qed.

Lemma trim_start_head s : head_nonwhite (trim_start s) = true.
Proof.
  induction s as [|c s IH]; [reflexivity|]. cbn [trim_start].
  destruct (is_white c) eqn:Hc; [exact IH|]. cbn. unfold nonwhite. now rewrite Hc.
Qed.

Lemma trim_end_head s : head_nonwhite s = true -> head_nonwhite (trim_end s) = true.
Proof.
  destruct s as [|c s]; [reflexivity|]. cbn [head_nonwhite trim_end].
  unfold nonwhite. rewrite negb_true_iff. intros Hc.
  destruct (trim_end s); rewrite ?Hc; cbn; unfold nonwhite; now rewrite Hc.
Qed.

Lemma trim_start_fix s : head_nonwhite s = true -> trim_start s = s.
Proof.
  destruct s as [|c s]; [reflexivity|]. cbn. unfold nonwhite.
  rewrite negb_true_iff. now intros ->.
Qed.

Lemma trim_idem s : trim (trim s) = trim s.
Proof.
  unfold trim.
  rewrite (trim_start_fix (trim_end (trim_start s)))
    by apply trim_end_head, trim_start_head.
  apply trim_end_idem.
Qed.

Lemma has_char_trim_start c s :
  has_char c s = false -> has_char c (trim_start s) = false.
Proof.
  induction s as [|d s IH]; [reflexivity|]. cbn [has_char trim_start].
  rewrite orb_false_iff. intros [Hd Hs].
  destruct (is_white d); [auto|]. cbn. now rewrite Hd, Hs.
Qed.

Lemma has_char_trim_end c s :
  has_char c s = false -> has_char c (trim_end s) = false.
Proof.
  induction s as [|d s IH]; [reflexivity|]. cbn [has_char].
  rewrite orb_false_iff. intros [Hd Hs]. specialize (IH Hs).
  rewrite trim_end_cons. destruct (trim_end s) as [|e r].
  - destruct (is_white d); [reflexivity|]. cbn. now rewrite Hd.
  - cbn [has_char] in *. now rewrite Hd, IH.
Qed.

Lemma has_char_trim c s : has_char c s = false -> has_char c (trim s) = false.
Proof. intros H. now apply has_char_trim_end, has_char_trim_start. Qed.

Lemma ends_with_cons c d s :
  ends_with c (String d s) = if truthy s then ends_with c s else Ascii.eqb c d.
Proof. now destruct s. Qed.

Lemma ends_with_trim_end c s :
  is_white c = true -> ends_with c (trim_end s) = false.
Proof.
  intros Hc. induction s as [|d s IH]; [reflexivity|]. rewrite trim_end_cons.
  destruct (trim_end s) as [|e r].
  - destruct (is_white d) eqn:Hd; [reflexivity|]. cbn.
    destruct (Ascii.eqb_spec c d) as [->|]; [congruence|reflexivity].
  - rewrite ends_with_cons. exact IH.
Qed.

Lemma ends_with_trim c s : is_white c = true -> ends_with c (trim s) = false.
Proof. intros H. now apply ends_with_trim_end. Qed.

(** ** Strings that the normalisation of line ends leaves alone *)

Lemma replace_crlf_id s : no_crlf s = true -> replace_crlf s = s.
Proof.
  induction s as [|c s IH]; [reflexivity|]. cbn [no_crlf].
  rewrite andb_true_iff, negb_true_iff. intros [Hc Hs].
  specialize (IH Hs). destruct s as [|d s]; [reflexivity|].
  cbn [starts_with] in Hc. rewrite (Ascii.eqb_sym LF d) in Hc.
  change (replace_crlf (String c (String d s)))
    with (if (Ascii.eqb c CR && Ascii.eqb d LF)%bool
          then String LF (replace_crlf s)
          else String c (replace_crlf (String d s))).
  now rewrite Hc, IH.
Qed.

Lemma starts_with_app c a b :
  starts_with c (a +:+ b) = if truthy a then starts_with c a else starts_with c b.
Proof. now destruct a. Qed.

Lemma truthy_app a b : truthy (a +:+ b) = truthy a || truthy b.
Proof. now destruct a. Qed.

Lemma ends_with_app c a b :
  ends_with c (a +:+ b) = if truthy b then ends_with c b else ends_with c a.
Proof.
  induction a as [|d a IH].
  - rewrite app_nil_l'. now destruct b.
  - rewrite app_cons, !ends_with_cons, truthy_app, IH.
    destruct (truthy b), (truthy a); reflexivity.
Qed.

Lemma no_crlf_app a b :
  no_crlf a = true -> no_crlf b = true -> ends_with CR a = false ->
  no_crlf (a +:+ b) = true.
Proof.
  intros Ha Hb He. induction a as [|c a IH]; [exact Hb|].
  rewrite app_cons. cbn [no_crlf] in *.
  apply andb_true_iff in Ha as [Hc Ha]. rewrite ends_with_cons in He.
  rewrite starts_with_app. destruct (truthy a) eqn:Et.
  - rewrite Hc. now apply IH.
  - destruct a; [|discriminate]. rewrite app_nil_l', Hb, andb_true_r.
    rewrite Ascii.eqb_sym, He. reflexivity.
Qed.

Lemma crlf_safe_app a b :
  crlf_safe a = true -> crlf_safe b = true -> crlf_safe (a +:+ b) = true.
Proof.
  unfold crlf_safe. rewrite !andb_true_iff, !negb_true_iff.
  intros [Ha Ea] [Hb Eb]. split; [now apply no_crlf_app|].
  rewrite ends_with_app. now destruct (truthy b).
Qed.

Lemma crlf_safe_join sep (l : list string) :
  crlf_safe sep = true -> Forall (fun a => crlf_safe a = true) l ->
  crlf_safe (join sep l) = true.
Proof.
  intros Hsep H. induction H as [|a l Ha H IH]; [reflexivity|].
  destruct l as [|b l]; [exact Ha|].
  rewrite join_cons by discriminate. auto using crlf_safe_app.
Qed.

Lemma no_char_ends_with c s : has_char c s = false -> ends_with c s = false.
Proof.
  induction s as [|d s IH]; [reflexivity|]. cbn [has_char].
  rewrite orb_false_iff, ends_with_cons. intros [Hd Hs].
  destruct (truthy s); auto.
Qed.

Lemma no_char_starts_with c s : has_char c s = false -> starts_with c s = false.
Proof. destruct s as [|d s]; [reflexivity|]. cbn. now intros [? _]%orb_false_iff. Qed.

Lemma no_cr_safe s : has_char CR s = false -> crlf_safe s = true.
Proof.
  intros H. unfold crlf_safe. rewrite (no_char_ends_with _ _ H), andb_true_r.
  induction s as [|c s IH]; [reflexivity|]. cbn [has_char no_crlf] in *.
  apply orb_false_iff in H as [Hc Hs]. rewrite Ascii.eqb_sym in Hc.
  rewrite Hc. cbn. auto.
Qed.

Lemma no_lf_safe s :
  has_char LF s = false -> ends_with CR s = false -> crlf_safe s = true.
Proof.
  intros H He. unfold crlf_safe. rewrite He, andb_true_r. clear He.
  induction s as [|c s IH]; [reflexivity|]. cbn [has_char no_crlf] in *.
  apply orb_false_iff in H as [Hc Hs].
  rewrite (no_char_starts_with _ _ Hs), andb_false_r. cbn. auto.
Qed.

(** ** [parseSRT] block by block *)

Lemma parseBlock_pure segments block :
  parseBlock segments block = Ok (segments ++ option_list (segmentOf block)).
Proof.
  unfold parseBlock, segmentOf.
  destruct (split NL block) as [|l0 [|l1 [|l2 more]]];
    try (cbn; now rewrite app_nil_r).
  cbn [length Nat.leb lookup list_lookup method mbind result_bind drop].
  destruct (parseInt (Some l0)) as [n|]; [|cbn; now rewrite app_nil_r].
  destruct (split ARROW l1) as [|s [|e rest]];
    try (cbn; rewrite ?andb_false_r; cbn; now rewrite app_nil_r).
  cbn [lookup list_lookup truthy_opt].
  destruct (truthy s && truthy e); [reflexivity|cbn; now rewrite app_nil_r].
Qed.

Lemma forEach_parseBlock blocks segments :
  forEach parseBlock blocks segments = Ok (segments ++ omap segmentOf blocks).
Proof.
  revert segments. induction blocks as [|b blocks IH]; intros segments.
  - cbn. now rewrite app_nil_r.
  - cbn [forEach]. rewrite parseBlock_pure. cbn [mbind result_bind].
    rewrite IH, <- app_assoc. f_equal. f_equal. cbn [omap list_omap].
    destruct (segmentOf b); reflexivity.
Qed.

Lemma parseSRT_pure srt : parseSRT srt = Ok (omap segmentOf (blocksOf srt)).
Proof. unfold parseSRT, blocksOf. now rewrite forEach_parseBlock. Qed.

(** ** Well-formed blocks *)

Lemma digit_is_not c d :
  is_digit c = true -> is_digit d = false -> Ascii.eqb c d = false.
Proof.
  intros Hc Hd. destruct (Ascii.eqb_spec c d) as [->|]; [congruence|reflexivity].
Qed.

Lemma parseInt_digits s :
  truthy s = true -> all_chars is_digit s = true ->
  parseInt (Some s) = Some (read_digits digit_val 10 0 s).
Proof.
  intros Hne Hd. destruct s as [|c s]; [discriminate|].
  cbn [all_chars] in Hd. apply andb_true_iff in Hd as [Hc Hs].
  unfold parseInt. cbn [trim_start]. rewrite (digit_not_white c Hc).
  unfold strip_sign.
  rewrite (digit_is_not c "-" Hc eq_refl), (digit_is_not c "+" Hc eq_refl).
  assert (Hx : hex_prefix (String c s) = false).
  { destruct s as [|c1 s]; [reflexivity|]. cbn [hex_prefix].
    cbn [all_chars] in Hs. apply andb_true_iff in Hs as [Hc1 _].
    rewrite (digit_is_not c1 "x" Hc1 eq_refl), (digit_is_not c1 "X" Hc1 eq_refl).
    apply andb_false_r. }
  rewrite Hx. unfold read_radix. cbn [starts_with_digit].
  destruct (is_digit_val c Hc) as [d ->]. reflexivity.
Qed.

Lemma split_arrow start end_ :
  has_char " " start = false -> has_char " " end_ = false ->
  split ARROW (start +:+ ARROW +:+ end_) = [start; end_].
Proof.
  intros Hs He. change ARROW with (String " " "--> ").
  rewrite split_app_sep by (discriminate || now apply no_early_first_char).
  f_equal. now apply split_no_occ, no_early_no_occ, no_early_first_char.
Qed.

Lemma lines_of_block (ls : list string) :
  ls <> [] -> Forall (fun l => has_char LF l = false) ls ->
  split NL (join NL ls) = ls.
Proof.
  intros Hne H. apply split_join; [discriminate|exact Hne|].
  eapply Forall_impl; [exact H|]. intros l. apply no_early_first_char.
Qed.

Lemma segmentOf_lines idLine start end_ textLine more :
  truthy idLine = true -> all_chars is_digit idLine = true ->
  isTimestamp start = true -> isTimestamp end_ = true ->
  Forall (fun l => has_char LF l = false) (textLine :: more) ->
  segmentOf (join NL (idLine :: (start +:+ ARROW +:+ end_) :: textLine :: more))
  = Some (mkSegment (read_digits digit_val 10 0 idLine) start end_
                    (trim (join " " (textLine :: more)))).
Proof.
  intros Hne Hd Hs He Ht. unfold segmentOf.
  rewrite lines_of_block.
  - rewrite parseInt_digits, split_arrow by
      (assumption || now apply timestamp_has_char).
    unfold isTimestamp in Hs, He.
    apply andb_true_iff in Hs as [Hs1 Hs2], He as [He1 He2].
    rewrite Hs1, He1. cbn [andb].
    rewrite !timestamp_trim by (unfold isTimestamp; now apply andb_true_iff).
    reflexivity.
  - discriminate.
  - constructor; [|constructor; [|exact Ht]].
    + now apply (all_chars_has_char is_digit).
    + rewrite !has_char_app.
      rewrite (timestamp_has_char LF start), (timestamp_has_char LF end_)
        by (reflexivity || assumption).
      reflexivity.
Qed.

(** ** Best-effort parsing (C7) *)






(** ** Decimal separators (C6) *)

Lemma replace_first_comma_id s :
  has_char "," s = false -> replace_first_comma s = s.
Proof.
  induction s as [|c s IH]; [reflexivity|]. cbn [has_char replace_first_comma].
  rewrite orb_false_iff, Ascii.eqb_sym. intros [-> H]. now rewrite IH.
Qed.

Lemma replace_first_comma_app pre post :
  has_char "," pre = false ->
  replace_first_comma (pre +:+ String "," post) = pre +:+ String "." post.
Proof.
  induction pre as [|c pre IH]; [reflexivity|]. cbn [has_char].
  rewrite orb_false_iff, Ascii.eqb_sym. intros [Hc H].
  rewrite !app_cons. cbn [replace_first_comma]. now rewrite Hc, IH.
Qed.

Lemma truthy_app_cons pre c post : truthy (pre +:+ String c post) = true.
Proof. now destruct pre. Qed.

Lemma parseTime_separator pre post :
  has_char "," pre = false -> has_char "," post = false ->
  parseTime (pre +:+ "," +:+ post) = parseTime (pre +:+ "." +:+ post).
Proof.
  intros Hpre Hpost. unfold parseTime.
  change ("," +:+ post) with (String "," post).
  change ("." +:+ post) with (String "." post).
  rewrite !truthy_app_cons. cbn [negb].
  rewrite replace_first_comma_app by exact Hpre.
  rewrite replace_first_comma_id; [reflexivity|].
  rewrite has_char_app, Hpre. cbn [has_char orb Ascii.eqb]. exact Hpost.
Qed.

Lemma formatSegment_has_char c s :
  (c = "," \/ c = ".")%char ->
  has_char c (formatSegment s)
  = has_char c (startTime s) || has_char c (endTime s) || has_char c (text s).
Proof.
  intros Hc. unfold formatSegment. rewrite !has_char_app.
  rewrite Number_toString_has_char by (destruct Hc as [->| ->]; reflexivity).
  assert (Hn : has_char c NL = false) by (destruct Hc as [->| ->]; reflexivity).
  assert (Ha : has_char c ARROW = false) by (destruct Hc as [->| ->]; reflexivity).
  rewrite Hn, Ha.
  destruct (has_char c (startTime s)), (has_char c (endTime s)),
    (has_char c (text s)); reflexivity.
Qed.

Lemma existsb_map_compose {A B} (f : A -> B) (p : B -> bool) (l : list A) :
  existsb p (map f l) = existsb (fun a => p (f a)) l.
Proof. induction l as [|a l IH]; cbn; [reflexivity|]. now rewrite IH. Qed.

(** C6, as stated, fails on its second half: the serializer does not rewrite
    separators.  A caption parsed from input with dots is serialized with
    dots, and the output holds no comma. *)
Lemma C6_output_keeps_dots :
  parseSRT dottedSRT = Ok [mkSegment 1 "00:00:01.000" "00:00:02.000" "hi"]
  /\ generateSRT [mkSegment 1 "00:00:01.000" "00:00:02.000" "hi"] = dottedSRT
  /\ has_char "," (generateSRT [mkSegment 1 "00:00:01.000" "00:00:02.000" "hi"])
     = false
  /\ has_char "." (generateSRT [mkSegment 1 "00:00:01.000" "00:00:02.000" "hi"])
     = true.
Proof. repeat split. Qed.

(** C6, amended: timestamp parsing accepts a comma or a dot as the decimal
    separator, both giving the same time; the serialized output writes every
    stored field as it is, so for captions whose ids are integers a double
    holds exactly (below [2^53], which are printed digit by digit) it holds a
    comma (or a dot) exactly when some start time, end time or text of the
    caption set holds one. *)
Theorem C6_separators :
  (forall pre post,
      has_char "," pre = false -> has_char "," post = false ->
      parseTime (pre +:+ "," +:+ post) = parseTime (pre +:+ "." +:+ post))
  /\ (forall segs c,
        (c = "," \/ c = ".")%char ->
        Forall (fun s => Z.abs (id s) < 2 ^ 53) segs ->
        has_char c (generateSRT segs)
        = existsb (fun s => has_char c (startTime s) || has_char c (endTime s)
                            || has_char c (text s)) segs).
Proof.
  split; [exact parseTime_separator|].
  intros segs c Hc _. unfold generateSRT.
  rewrite has_char_join by (destruct Hc as [->| ->]; reflexivity).
  rewrite existsb_map_compose. clear -Hc.
  induction segs as [|s segs IH]; [reflexivity|]. cbn [existsb].
  now rewrite formatSegment_has_char, IH.
Qed.

Lemma C6_separators_witness :
  parseTime ("00:00:05" +:+ "," +:+ "123") = parseTime ("00:00:05" +:+ "." +:+ "123")
  /\ has_char "," (generateSRT sampleCaptions) = true.
Proof.
  split.
  - apply (proj1 C6_separators); reflexivity.
  - rewrite (proj2 C6_separators sampleCaptions ","%char (or_introl eq_refl)).
    + reflexivity.
    + repeat constructor.
Defined.

(** ** Serialising and parsing back (C1) *)

Lemma digit_val_nonneg c d : digit_val c = Some d -> 0 <= d.
Proof.
  unfold digit_val.
  destruct (Z.leb_spec 48 (code_unit c)), (Z.leb_spec (code_unit c) 57);
    cbn [andb]; intros [= <-] || discriminate.
  lia.
Qed.

Lemma read_digits_nonneg s acc : 0 <= acc -> 0 <= read_digits digit_val 10 acc s.
Proof.
  revert acc. induction s as [|c s IH]; intros acc Hacc; cbn [read_digits]; [lia|].
  destruct (digit_val c) as [d|] eqn:E; [|lia].
  apply IH. pose proof (digit_val_nonneg _ _ E). lia.
Qed.

Lemma formatSegment_lines seg :
  formatSegment seg
  = join NL [Number_toString (id seg);
             startTime seg +:+ ARROW +:+ endTime seg; text seg].
Proof.
  unfold formatSegment, join. cbn [String.concat]. now rewrite !app_assoc'.
Qed.

Lemma timestamp_line_has_char c start end_ :
  is_ts_char c = false -> has_char c ARROW = false ->
  isTimestamp start = true -> isTimestamp end_ = true ->
  has_char c (start +:+ ARROW +:+ end_) = false.
Proof.
  intros Hc Ha Hs He.
  now rewrite !has_char_app, Ha, !(timestamp_has_char c) by assumption.
Qed.

Lemma segmentOf_format seg :
  canonical seg -> segmentOf (formatSegment seg) = Some seg.
Proof.
  intros (Hid & Hs & He & Hlf & Htrim).
  destruct (Number_toString_digits (id seg) (proj1 Hid)) as [Hn Hd].
  rewrite formatSegment_lines, segmentOf_lines; try assumption.
  - rewrite read_Number_toString by apply Hid.
    rewrite join_one, Htrim. now destruct seg.
  - now constructor.
Qed.

Lemma prefix_blank_lf r :
  String.prefix BLANK (String LF r) = starts_with LF r.
Proof.
  unfold BLANK. rewrite prefix_cons, Ascii.eqb_refl.
  destruct r as [|d r]; [reflexivity|].
  rewrite prefix_cons, prefix_nil_l. cbn [starts_with].
  now destruct (Ascii.eqb LF d).
Qed.

Lemma prefix_blank_other c r :
  Ascii.eqb LF c = false -> String.prefix BLANK (String c r) = false.
Proof. intros H. unfold BLANK. now rewrite prefix_cons, H. Qed.

Lemma no_early_blank_line l r :
  has_char LF l = false -> truthy r = true -> starts_with LF r = false ->
  no_early BLANK r = true ->
  no_early BLANK (l +:+ NL +:+ r) = true.
Proof.
  intros Hl Hr Hs Hn. induction l as [|c l IH].
  - rewrite app_nil_l'. change (NL +:+ r) with (String LF r).
    cbn [no_early]. rewrite Hn, andb_true_r, app_cons, prefix_blank_lf.
    rewrite starts_with_app, Hr, Hs. reflexivity.
  - cbn [has_char] in Hl. apply orb_false_iff in Hl as [Hc Hl].
    rewrite app_cons. cbn [no_early]. rewrite IH by exact Hl.
    now rewrite app_cons, prefix_blank_other.
Qed.

Lemma no_occ_blank_line l r :
  has_char LF l = false -> starts_with LF r = false ->
  no_occ BLANK r = true ->
  no_occ BLANK (l +:+ NL +:+ r) = true.
Proof.
  intros Hl Hs Hn. induction l as [|c l IH].
  - rewrite app_nil_l'. change (NL +:+ r) with (String LF r).
    cbn [no_occ]. now rewrite Hn, andb_true_r, prefix_blank_lf, Hs.
  - cbn [has_char] in Hl. apply orb_false_iff in Hl as [Hc Hl].
    rewrite app_cons. cbn [no_occ]. rewrite IH by exact Hl.
    now rewrite prefix_blank_other.
Qed.

Lemma timestamp_line_head seg r :
  canonical seg ->
  truthy ((startTime seg +:+ ARROW +:+ endTime seg) +:+ r) = true
  /\ starts_with LF ((startTime seg +:+ ARROW +:+ endTime seg) +:+ r) = false.
Proof.
  intros (Hid & Hs & He & Hlf & Htrim).
  assert (Htl : has_char LF (startTime seg +:+ ARROW +:+ endTime seg) = false)
    by now apply timestamp_line_has_char.
  unfold isTimestamp in Hs. apply andb_true_iff in Hs as [Hs _].
  rewrite starts_with_app, !truthy_app, Hs. cbn [orb].
  split; [reflexivity|now apply no_char_starts_with].
Qed.

Lemma format_no_early seg :
  canonical seg -> truthy (text seg) = true ->
  no_early BLANK (formatSegment seg) = true.
Proof.
  intros Hcan Hne. pose proof Hcan as (Hid & Hs & He & Hlf & Htrim).
  destruct (Number_toString_digits (id seg) (proj1 Hid)) as [Hn Hd].
  destruct (timestamp_line_head seg (NL +:+ text seg) Hcan) as [Ht Hh].
  rewrite formatSegment_lines. unfold join. cbn [String.concat].
  apply no_early_blank_line; try assumption.
  - now apply (all_chars_has_char is_digit).
  - apply no_early_blank_line; try assumption.
    + now apply timestamp_line_has_char.
    + now apply no_char_starts_with.
    + now apply no_early_first_char.
Qed.

Lemma format_no_occ seg :
  canonical seg -> no_occ BLANK (formatSegment seg) = true.
Proof.
  intros Hcan. pose proof Hcan as (Hid & Hs & He & Hlf & Htrim).
  destruct (Number_toString_digits (id seg) (proj1 Hid)) as [Hn Hd].
  destruct (timestamp_line_head seg (NL +:+ text seg) Hcan) as [Ht Hh].
  rewrite formatSegment_lines. unfold join. cbn [String.concat].
  apply no_occ_blank_line; try assumption.
  - now apply (all_chars_has_char is_digit).
  - apply no_occ_blank_line.
    + now apply timestamp_line_has_char.
    + now apply no_char_starts_with.
    + now apply no_early_no_occ, no_early_first_char.
Qed.

Lemma format_crlf_safe seg :
  canonical seg -> crlf_safe (formatSegment seg) = true.
Proof.
  intros (Hid & Hs & He & Hlf & Htrim).
  destruct (Number_toString_digits (id seg) (proj1 Hid)) as [Hn Hd].
  rewrite formatSegment_lines. apply crlf_safe_join; [reflexivity|].
  constructor; [|constructor; [|constructor; [|constructor]]].
  - apply no_cr_safe. now apply (all_chars_has_char is_digit).
  - apply no_cr_safe. now apply timestamp_line_has_char.
  - apply no_lf_safe; [exact Hlf|]. rewrite <- Htrim. now apply ends_with_trim.
Qed.

Lemma split_join_last sep (l : list string) :
  sep <> EmptyString -> l <> [] ->
  allButLast (fun a => no_early sep a = true) l ->
  Forall (fun a => no_occ sep a = true) l ->
  split sep (join sep l) = l.
Proof.
  intros Hsep Hl Hearly Hocc. induction Hocc as [|a l Ha Hocc IH]; [congruence|].
  destruct l as [|b l].
  - rewrite join_one. now apply split_no_occ.
  - cbn [allButLast] in Hearly. destruct Hearly as [Hea Hearly].
    rewrite join_cons, split_app_sep, IH by (congruence || assumption).
    reflexivity.
Qed.

Lemma allButLast_map {A B} (f : A -> B) (P : B -> Prop) (l : list A) :
  allButLast (fun a => P (f a)) l -> allButLast P (map f l).
Proof.
  induction l as [|a l IH]; [trivial|]. destruct l as [|b l]; [trivial|].
  cbn [map allButLast] in *. intros [H1 H2]. split; [exact H1|]. apply IH, H2.
Qed.

Lemma allButLast_impl {A} (P Q : A -> Prop) (l : list A) :
  Forall (fun a => P a -> Q a) l -> allButLast P l -> allButLast Q l.
Proof.
  induction 1 as [|a l Ha H IH]; [trivial|]. destruct l as [|b l]; [trivial|].
  cbn [allButLast]. intros [H1 H2]. split; [auto|]. apply IH, H2.
Qed.

Lemma blocksOf_generate segs :
  segs <> [] -> Forall canonical segs ->
  allButLast (fun s => truthy (text s) = true) segs ->
  blocksOf (generateSRT segs) = map formatSegment segs.
Proof.
  intros Hne H Htxt. unfold blocksOf, generateSRT.
  assert (Hsafe : crlf_safe (join BLANK (map formatSegment segs)) = true).
  { apply crlf_safe_join; [reflexivity|]. apply Forall_map.
    eapply Forall_impl; [exact H|]. apply format_crlf_safe. }
  unfold crlf_safe in Hsafe. apply andb_true_iff in Hsafe as [Hsafe _].
  rewrite (replace_crlf_id _ Hsafe). apply split_join_last.
  - discriminate.
  - now destruct segs.
  - apply allButLast_map. revert Htxt. apply allButLast_impl.
    eapply Forall_impl; [exact H|]. intros s Hs. now apply format_no_early.
  - apply Forall_map. eapply Forall_impl; [exact H|]. apply format_no_occ.
Qed.

Lemma omap_segmentOf_format segs :
  Forall canonical segs -> omap segmentOf (map formatSegment segs) = segs.
Proof.
  induction 1 as [|s segs Hs H IH]; [reflexivity|].
  cbn [map omap list_omap]. rewrite (segmentOf_format s Hs).
  fold (omap segmentOf (map formatSegment segs)). now rewrite IH.
Qed.

Lemma parse_generate segs :
  Forall canonical segs ->
  allButLast (fun s => truthy (text s) = true) segs ->
  parseSRT (generateSRT segs) = Ok segs.
Proof.
  intros H Htxt. rewrite parseSRT_pure. destruct segs as [|s segs]; [reflexivity|].
  rewrite blocksOf_generate by (discriminate || assumption).
  now rewrite omap_segmentOf_format.
Qed.

Lemma has_char_lines c (ls : list string) :
  has_char c " " = false -> Forall (fun l => has_char c l = false) ls ->
  has_char c (join " " ls) = false.
Proof.
  intros Hc H. rewrite has_char_join by exact Hc.
  induction H as [|l ls Hl H IH]; [reflexivity|]. cbn. now rewrite Hl, IH.
Qed.

Lemma wellFormed_canonical block :
  wellFormedBlock block ->
  exists seg, segmentOf block = Some seg /\ canonical seg
              /\ text seg = blockText block.
Proof.
  intros (idLine & start & end_ & textLine & more & -> & Hid & Hs & He & Ht).
  unfold isIntegerLine in Hid. rewrite !andb_true_iff in Hid.
  destruct Hid as [[Hne Hd] Hmax]. apply Z.ltb_lt in Hmax.
  assert (Hlines : Forall (fun l => has_char LF l = false)
                     (idLine :: (start +:+ ARROW +:+ end_) :: textLine :: more)).
  { constructor; [now apply (all_chars_has_char is_digit)|].
    constructor; [now apply timestamp_line_has_char|exact Ht]. }
  eexists. split; [now apply segmentOf_lines|]. split.
  - repeat split; cbn [id startTime endTime text]; try assumption.
    + now apply read_digits_nonneg.
    + now apply has_char_trim, has_char_lines.
    + apply trim_idem.
  - unfold blockText. rewrite lines_of_block by (discriminate || exact Hlines).
    reflexivity.
Qed.

Lemma wellFormed_segments blocks :
  Forall wellFormedBlock blocks ->
  allButLast hasText blocks ->
  exists segs, omap segmentOf blocks = segs
               /\ length segs = length blocks
               /\ Forall canonical segs
               /\ allButLast (fun s => truthy (text s) = true) segs.
Proof.
  induction 1 as [|b blocks Hb H IH]; intros Ht.
  - exists []. repeat split. constructor.
  - destruct (wellFormed_canonical b Hb) as (seg & Hseg & Hcseg & Htext).
    assert (Hrest : allButLast hasText blocks).
    { destruct blocks as [|b' blocks]; [exact I|]. apply Ht. }
    destruct (IH Hrest) as (segs & Hsegs & Hlen & Hcan & Htxt).
    exists (seg :: segs). cbn [omap list_omap]. rewrite Hseg.
    fold (omap segmentOf blocks). rewrite Hsegs. cbn [length].
    split; [reflexivity|]. split; [now rewrite Hlen|].
    split; [now constructor|].
    destruct segs as [|s segs]; [exact I|].
    destruct blocks as [|b' blocks]; [discriminate Hlen|].
    cbn [allButLast] in Ht |- *. destruct Ht as [Hb1 _].
    split; [|exact Htxt]. rewrite Htext. exact Hb1.
Qed.

(** C1, as stated, fails: a block whose only text line is blank is
    well-formed in the sense of the claim and parses to a segment with empty
    text, but serialising that segment leaves three line ends in a row, and
    parsing the result back loses that segment and the one after it. *)
Lemma C1_blank_text_lost :
  wellFormedSRT blankTextSRT
  /\ parseSRT blankTextSRT
     = Ok [mkSegment 1 "00:00:01,000" "00:00:02,000" EmptyString;
           mkSegment 2 "00:00:03,000" "00:00:04,000" "hi"]
  /\ parseSRT (generateSRT [mkSegment 1 "00:00:01,000" "00:00:02,000" EmptyString;
                            mkSegment 2 "00:00:03,000" "00:00:04,000" "hi"])
     = Ok [].
Proof.
  split; [|split; reflexivity].
  unfold wellFormedSRT.
  change (blocksOf blankTextSRT)
    with [join NL ["1"; "00:00:01,000" +:+ ARROW +:+ "00:00:02,000"; " "];
          join NL ["2"; "00:00:03,000" +:+ ARROW +:+ "00:00:04,000"; "hi"]].
  constructor; [|constructor; [|constructor]].
  - exists "1", "00:00:01,000", "00:00:02,000", " ", [].
    repeat split; try reflexivity. repeat constructor.
  - exists "2", "00:00:03,000", "00:00:04,000", "hi", [].
    repeat split; try reflexivity. repeat constructor.
Qed.

(** C1, amended: for every subtitle text whose blocks are all well-formed
    (an integer id line, a [start --> end] line, one or more text lines) and
    all, except possibly the last, carry text that is not blank, [parseSRT]
    yields one segment a block, and parsing the serialisation of these
    segments yields the same segments again, in the same order: the same
    (id, start, end, trimmed text) tuples. *)
Theorem C1_round_trip srt :
  wellFormedSRT srt ->
  allButLast hasText (blocksOf srt) ->
  exists segs,
    parseSRT srt = Ok segs
    /\ length segs = length (blocksOf srt)
    /\ parseSRT (generateSRT segs) = Ok segs.
Proof.
  intros Hwf Htxt.
  destruct (wellFormed_segments _ Hwf Htxt) as (segs & Hsegs & Hlen & Hcan & Ht).
  exists segs. rewrite parseSRT_pure, Hsegs.
  repeat split; [exact Hlen|now apply parse_generate].
Qed.

Lemma C1_round_trip_witness :
  exists segs,
    parseSRT sampleSRT = Ok segs
    /\ length segs = length (blocksOf sampleSRT)
    /\ parseSRT (generateSRT segs) = Ok segs.
Proof.
  apply (C1_round_trip sampleSRT).
  - unfold wellFormedSRT.
    change (blocksOf sampleSRT)
      with [join NL ["1"; "00:00:01,000" +:+ ARROW +:+ "00:00:02,500";
                     "hello"; " there"];
            join NL ["2"; "00:00:03.000" +:+ ARROW +:+ "00:00:04.000"; " "]].
    constructor; [|constructor; [|constructor]].
    + exists "1", "00:00:01,000", "00:00:02,500", "hello", [" there"].
      repeat split; try reflexivity. repeat constructor.
    + exists "2", "00:00:03.000", "00:00:04.000", " ", [].
      repeat split; try reflexivity. repeat constructor.
  - split; [reflexivity|exact I].
Defined.

(** ** The layout cache (C4) *)

Lemma getWrappedLines_hit measure vmw (cache : textLayoutCache) text maxWidth k res :
  cache !! k = Some res ->
  getWrappedLines measure vmw cache text maxWidth k = (res, cache).
Proof. intros H. unfold getWrappedLines. now rewrite H. Qed.

(** C4, as stated, fails: a text edit does not empty the cache.  After
    caption 1 is edited, the entry of caption 2 is still there, and the next
    lookup for caption 2 returns the lines stored before the edit. *)
Lemma C4_edit_keeps_other_entries :
  ~ (forall id_ newText captions (cache : textLayoutCache) k,
        snd (handleCaptionChange id_ newText captions cache) !! k = None)
  /\ (forall measure vmw text maxWidth,
        fst (getWrappedLines measure vmw
               (snd (handleCaptionChange 1 "hi" sampleCaptions sampleCache))
               text maxWidth 2) = ["good"; "bye"]).
Proof.
  split.
  - intros H. specialize (H 1 "hi" sampleCaptions sampleCache 2).
    vm_compute in H. discriminate H.
  - intros. erewrite getWrappedLines_hit; [reflexivity|]. now vm_compute.
Qed.

(** C4, amended: a change of font, font size or max-words empties the whole
    cache; a text edit of caption [id_] removes the entry of [id_] and no
    other, rewrites the text of the captions with that id and of no other,
    and the next layout of [id_] is computed afresh. *)
Theorem C4_cache_invalidation :
  (forall old new (cache : textLayoutCache) k,
      depsChanged old new = true ->
      styleInvalidationEffect old new cache !! k = None)
  /\ (forall id_ newText captions (cache : textLayoutCache),
        let r := handleCaptionChange id_ newText captions cache in
        (forall k, snd r !! k = if decide (k = id_) then None else cache !! k)
        /\ fst r = map (fun c => if id c =? id_ then setText newText c else c)
                       captions
        /\ (forall measure vmw text maxWidth,
              fst (getWrappedLines measure vmw (snd r) text maxWidth id_)
              = fst (getWrappedLines measure vmw ∅ text maxWidth id_))).
Proof.
  split.
  - intros old new cache k H. unfold styleInvalidationEffect. rewrite H.
    apply lookup_empty.
  - intros id_ newText captions cache r. subst r. cbn [fst snd handleCaptionChange].
    split; [|split].
    + intros k. rewrite lookup_delete. destruct (decide (id_ = k)), (decide (k = id_));
        congruence.
    + reflexivity.
    + intros. unfold getWrappedLines.
      rewrite lookup_delete_eq, lookup_empty.
      repeat match goal with
             | |- context [if ?b then _ else _] => destruct b
             end; reflexivity.
Qed.

Lemma C4_cache_invalidation_witness :
  styleInvalidationEffect (mkDeps "Inter" 5 100) (mkDeps "Inter" 5 6)
                          sampleCache !! 2 = None.
Proof. apply (proj1 C4_cache_invalidation). reflexivity. Defined.

(** ** The layout over whole-number widths: the split search *)

Lemma splitStep_spec measure vmw maxWidth words st i :
  let ww := map measure words in
  let sw := measure " " in
  (1 <= i < length words)%nat ->
  splitStep ww sw maxWidth vmw (length words) st i =
  if validSplit measure vmw maxWidth words i
     && lt_minDiff (splitDiff measure words i) (minDiff st)
  then mkSplit (Z.of_nat i) (Some (splitDiff measure words i))
  else st.
Proof.
  intros ww sw Hi. unfold splitStep, validSplit, splitDiff, splitWidths.
  cbn [fst snd]. fold ww. fold sw.
  destruct (Nat.leb_spec 1 i); [|lia].
  destruct (Nat.ltb_spec i (length words)); [|lia].
  cbn [andb].
  destruct (Z.gtb_spec (Z.of_nat i) vmw), (Z.leb_spec (Z.of_nat i) vmw);
    try lia; cbn [orb andb]; [reflexivity|].
  destruct (Z.gtb_spec (Z.of_nat (length words - i)) vmw),
           (Z.leb_spec (Z.of_nat (length words - i)) vmw);
    try lia; cbn [orb andb]; [reflexivity|].
  destruct (getRangeWidth ww sw 0 i <=? maxWidth); [|reflexivity].
  destruct (getRangeWidth ww sw i (length words) <=? maxWidth); reflexivity.
Qed.

Lemma validSplit_range measure vmw maxWidth words i :
  validSplit measure vmw maxWidth words i = true -> (1 <= i < length words)%nat.
Proof.
  unfold validSplit. rewrite !andb_true_iff.
  intros [[[[[H1 H2] _] _] _] _].
  apply Nat.leb_le in H1. apply Nat.ltb_lt in H2. lia.
Qed.

Lemma searchSplit_prefix measure vmw maxWidth words (k : nat) :
  (k < length words)%nat ->
  searchInv measure vmw maxWidth words k
    (fold_left (splitStep (map measure words) (measure " ") maxWidth vmw
                          (length words))
               (seq 1 k) (mkSplit (-1) None)).
Proof.
  induction k as [|k IH]; intros Hk.
  - left. cbn. repeat split. intros i Hi.
    destruct (validSplit _ _ _ _ i) eqn:E; [|reflexivity].
    apply validSplit_range in E. lia.
  - rewrite seq_S, fold_left_app. cbn [fold_left].
    specialize (IH ltac:(lia)).
    set (st := fold_left _ (seq 1 k) _) in *.
    rewrite splitStep_spec by lia. cbn [Nat.add].
    destruct (validSplit measure vmw maxWidth words (S k)) eqn:Ev; cbn [andb].
    + destruct IH as [(Hb & Hm & Hnone)|(b & Hb & Hm & Hbk & Hvb & Hmin)].
      * rewrite Hm. cbn [lt_minDiff]. right. exists (S k).
        repeat split; try assumption; try lia.
        intros i Hi Hv. destruct (Nat.eq_dec i (S k)) as [->|Hne]; [lia|].
        rewrite Hnone in Hv by lia. discriminate.
      * rewrite Hm. cbn [lt_minDiff].
        destruct (Z.ltb_spec (splitDiff measure words (S k))
                             (splitDiff measure words b)) as [Hlt|Hge].
        -- right. exists (S k). repeat split; try assumption; try lia.
           intros i Hi Hv. destruct (Nat.eq_dec i (S k)) as [->|Hne]; [lia|].
           specialize (Hmin i ltac:(lia) Hv). lia.
        -- right. exists b. repeat split; try assumption; try lia.
           intros i Hi Hv. destruct (Nat.eq_dec i (S k)) as [->|Hne]; [lia|].
           apply Hmin; [lia|assumption].
    + destruct IH as [(Hb & Hm & Hnone)|(b & Hb & Hm & Hbk & Hvb & Hmin)].
      * left. repeat split; try assumption.
        intros i Hi. destruct (Nat.eq_dec i (S k)) as [->|Hne]; [assumption|].
        apply Hnone. lia.
      * right. exists b. repeat split; try assumption; try lia.
        intros i Hi Hv. destruct (Nat.eq_dec i (S k)) as [->|Hne]; [congruence|].
        apply Hmin; [lia|assumption].
Qed.

Lemma searchSplit_spec measure vmw maxWidth words :
  let st := searchSplit (map measure words) (measure " ") maxWidth vmw
                        (length words) in
  (bestSplit st = -1
   /\ forall i, validSplit measure vmw maxWidth words i = false)
  \/ (exists b, bestSplit st = Z.of_nat b
        /\ validSplit measure vmw maxWidth words b = true
        /\ forall i, validSplit measure vmw maxWidth words i = true ->
             splitDiff measure words b <= splitDiff measure words i).
Proof.
  intros st. subst st. unfold searchSplit.
  destruct words as [|w words].
  - left. split; [reflexivity|]. intros i.
    destruct (validSplit _ _ _ _ i) eqn:E; [|reflexivity].
    apply validSplit_range in E. cbn in E. lia.
  - pose proof (searchSplit_prefix measure vmw maxWidth (w :: words)
                  (length (w :: words) - 1) ltac:(cbn; lia)) as H.
    destruct H as [(Hb & _ & Hnone)|(b & Hb & _ & _ & Hvb & Hmin)].
    + left. split; [exact Hb|]. intros i.
      destruct (validSplit _ _ _ _ i) eqn:E; [|reflexivity].
      pose proof (validSplit_range _ _ _ _ _ E).
      rewrite Hnone in E by lia. discriminate.
    + right. exists b. repeat split; try assumption.
      intros i Hv. pose proof (validSplit_range _ _ _ _ _ Hv).
      apply Hmin; [lia|assumption].
Qed.

Lemma fold_range (ww : list Z) (s k : nat) (a : Z) :
  (s + k <= length ww)%nat ->
  fold_left (fun width i => width + nth i ww 0) (seq s k) a
  = a + sumZ (take k (drop s ww)).
Proof.
  revert s a. induction k as [|k IH]; intros s a H.
  - rewrite firstn_O. unfold sumZ. cbn. lia.
  - cbn [seq fold_left].
    destruct (lookup_lt_is_Some_2 ww s ltac:(lia)) as [x Hx].
    rewrite IH by lia.
    rewrite (nth_lookup_Some _ _ _ _ Hx), (drop_S _ _ _ Hx).
    rewrite firstn_cons. unfold sumZ. cbn. lia.
Qed.

Lemma getRangeWidth_words measure (words : list string) (s e : nat) :
  (s <= e <= length words)%nat ->
  getRangeWidth (map measure words) (measure " ") s e
  = wordsWidth measure (take (e - s) (drop s words)).
Proof.
  intros H. unfold getRangeWidth, wordsWidth.
  destruct (Nat.leb_spec e s) as [Hle|Hlt].
  - replace (e - s)%nat with 0%nat by lia. rewrite firstn_O. unfold sumZ. cbn. lia.
  - rewrite fold_range by (rewrite length_map; lia).
    rewrite skipn_map, firstn_map, length_take_le by (rewrite length_drop; lia).
    lia.
Qed.

Lemma getRangeWidth_all measure (words : list string) :
  getRangeWidth (map measure words) (measure " ") 0 (length words)
  = wordsWidth measure words.
Proof.
  rewrite getRangeWidth_words by lia.
  now rewrite Nat.sub_0_r, drop_0, firstn_all.
Qed.

Lemma no_space_no_early (w : string) :
  has_char " " w = false -> no_early " " w = true.
Proof. apply no_early_first_char. Qed.

Lemma words_no_space text :
  Forall (fun w => no_early " " w = true) (split " " text).
Proof.
  eapply Forall_impl; [apply (split_char_pieces " "%char)|].
  intros w. apply no_space_no_early.
Qed.

Lemma split_join_words (ws : list string) :
  ws <> [] -> Forall (fun w => no_early " " w = true) ws ->
  split " " (join " " ws) = ws.
Proof. intros. now apply split_join. Qed.

Lemma Forall_take_drop {A} (P : A -> Prop) (l : list A) n :
  Forall P l -> Forall P (take n l) /\ Forall P (drop n l).
Proof.
  intros H. rewrite <- (take_drop n l) in H. now apply Forall_app in H.
Qed.

Lemma take_nonempty {A} (l : list A) n :
  (1 <= n)%nat -> l <> [] -> take n l <> [].
Proof. destruct n, l; cbn; (lia || congruence). Qed.

Lemma drop_nonempty {A} (l : list A) n : (n < length l)%nat -> drop n l <> [].
Proof.
  intros H E. apply (f_equal length) in E. rewrite length_drop in E. cbn in E. lia.
Qed.

Lemma getWrappedLines_miss measure vmw (cache : textLayoutCache) text maxWidth k :
  cache !! k = None ->
  fst (getWrappedLines measure vmw cache text maxWidth k) =
  let words := split " " text in
  if fitsOneLine measure vmw maxWidth text then [text]
  else
    let st := searchSplit (map measure words) (measure " ") maxWidth vmw
                          (length words) in
    if negb (bestSplit st =? -1)
    then [join " " (take (Z.to_nat (bestSplit st)) words);
          join " " (drop (Z.to_nat (bestSplit st)) words)]
    else greedyWrap (measure " ") maxWidth vmw words (map measure words).
Proof.
  intros H. unfold getWrappedLines, fitsOneLine. rewrite H. cbv zeta.
  pose proof (split_from_nonempty " " 0 text) as Hne. fold (split " " text) in Hne.
  destruct (split " " text) as [|w ws] eqn:E; [congruence|].
  cbn [length Nat.eqb].
  repeat match goal with
         | |- context [if ?b then _ else _] => destruct b
         end; reflexivity.
Qed.

(** ** The layout over whole-number widths: the greedy wrap (C10) *)

Lemma sumZ_app l1 l2 : sumZ (l1 ++ l2) = sumZ l1 + sumZ l2.
Proof.
  unfold sumZ. induction l1 as [|x l1 IH]; cbn; [reflexivity|]. rewrite IH. lia.
Qed.

Lemma wordsWidth_one measure w : wordsWidth measure [w] = measure w.
Proof. unfold wordsWidth, sumZ. cbn. lia. Qed.

Lemma wordsWidth_snoc measure (ws : list string) w :
  ws <> [] ->
  wordsWidth measure (ws ++ [w])
  = wordsWidth measure ws + (measure " " + measure w).
Proof.
  intros H. unfold wordsWidth.
  rewrite map_app, sumZ_app, length_app. unfold sumZ at 2.
  destruct ws as [|x ws]; [congruence|]. cbn [length map fold_right].
  rewrite !Z.max_r by lia. lia.
Qed.

Lemma chunkOk_one measure vmw maxWidth w : chunkOk measure vmw maxWidth [w].
Proof. repeat split; [discriminate|cbn; lia|now right]. Qed.

Lemma wrapStep_inv measure vmw maxWidth processed st w :
  wrapInv measure vmw maxWidth processed st ->
  wrapInv measure vmw maxWidth (processed ++ [w])
          (wrapStep (measure " ") maxWidth vmw st (w, measure w)).
Proof.
  intros (chunks & Hl & Hc & Hok & Hnil & Hcur).
  unfold wrapStep.
  destruct (currentLine st) as [|c cur] eqn:Ecur.
  - (* the first word *)
    specialize (Hnil eq_refl). subst chunks.
    assert (Hst : wrapInv measure vmw maxWidth (processed ++ [w])
                    (mkWrap (lines st) [w] (measure w))).
    { exists []. cbn [lines currentLine currentWidth].
      split; [exact Hl|]. split; [now rewrite <- Hc|].
      split; [constructor|]. split; [discriminate|]. intros _.
      split; [apply chunkOk_one|symmetry; apply wordsWidth_one]. }
    cbn [length Nat.ltb Nat.leb andb orb Nat.eqb app].
    destruct (Z.of_nat 0 >=? vmw); exact Hst.
  - destruct (Hcur ltac:(discriminate)) as [(Hne & Hcnt & Hw) Hcw].
    cbn [length Nat.ltb Nat.leb andb Nat.eqb].
    destruct ((currentWidth st + measure " " + measure w >? maxWidth)
              || (Z.of_nat (S (length cur)) >=? vmw)) eqn:Eo.
    + (* overflow: the current line is pushed *)
      exists (chunks ++ [c :: cur]). cbn [lines currentLine currentWidth].
      split; [now rewrite map_app, Hl|].
      split.
      { rewrite concat_app. cbn [concat]. rewrite app_nil_r, <- Hc.
        now rewrite <- app_assoc. }
      split.
      { apply Forall_app. split; [exact Hok|]. constructor; [|constructor].
        repeat split; assumption. }
      split; [discriminate|]. intros _.
      split; [apply chunkOk_one|symmetry; apply wordsWidth_one].
    + (* the word joins the current line *)
      apply orb_false_iff in Eo as [Ew Ec].
      exists chunks. cbn [lines currentLine currentWidth].
      split; [exact Hl|].
      split; [now rewrite <- Hc, <- app_assoc|].
      split; [exact Hok|].
      split; [discriminate|]. intros _.
      change (c :: cur ++ [w]) with ((c :: cur) ++ [w]).
      rewrite wordsWidth_snoc by discriminate.
      split; [|now rewrite Hcw].
      split; [discriminate|]. split.
      * intros _. rewrite length_app. cbn [length].
        destruct (Z.geb_spec (Z.of_nat (S (length cur))) vmw); [discriminate|].
        lia.
      * left. rewrite wordsWidth_snoc, <- Hcw by discriminate.
        destruct (Z.gtb_spec (currentWidth st + measure " " + measure w) maxWidth);
          [discriminate|]. lia.
Qed.

Lemma combine_map_self {A B} (f : A -> B) (l : list A) :
  combine l (map f l) = map (fun a => (a, f a)) l.
Proof. induction l as [|a l IH]; cbn; [reflexivity|]. now rewrite IH. Qed.

Lemma wrapLoop_inv measure vmw maxWidth (ws : list string) processed st :
  wrapInv measure vmw maxWidth processed st ->
  wrapInv measure vmw maxWidth (processed ++ ws)
    (fold_left (wrapStep (measure " ") maxWidth vmw)
               (combine ws (map measure ws)) st).
Proof.
  rewrite combine_map_self. revert processed st.
  induction ws as [|w ws IH]; intros processed st H.
  - now rewrite app_nil_r.
  - cbn [map fold_left].
    replace (processed ++ w :: ws) with ((processed ++ [w]) ++ ws)
      by now rewrite <- app_assoc.
    apply IH, wrapStep_inv, H.
Qed.

Lemma greedyWrap_spec measure vmw maxWidth (words : list string) :
  exists chunks : list (list string),
    greedyWrap (measure " ") maxWidth vmw words (map measure words)
    = map (join " ") chunks
    /\ concat chunks = words
    /\ Forall (chunkOk measure vmw maxWidth) chunks.
Proof.
  unfold greedyWrap.
  assert (H0 : wrapInv measure vmw maxWidth [] (mkWrap [] [] 0)).
  { exists []. cbn. repeat split; auto; congruence. }
  pose proof (wrapLoop_inv measure vmw maxWidth words [] _ H0) as H.
  cbn [app] in H. set (st := fold_left _ _ _) in *.
  destruct H as (chunks & Hl & Hc & Hok & Hnil & Hcur).
  destruct (currentLine st) as [|c cur] eqn:Ecur; cbn [length Nat.ltb Nat.leb].
  - exists chunks. rewrite app_nil_r in Hc. auto.
  - exists (chunks ++ [c :: cur]).
    rewrite map_app, concat_app, Hl. cbn [map concat]. rewrite app_nil_r.
    repeat split; auto.
    apply Forall_app. split; [exact Hok|]. constructor; [|constructor].
    apply Hcur. discriminate.
Qed.

(** Every layout computed by [getWrappedLines] is a grouping of the words of
    the text into lines, each group passing [chunkOk]. *)
Lemma layout_chunks measure vmw maxWidth (cache : textLayoutCache) text captionId :
  cache !! captionId = None ->
  exists chunks : list (list string),
    fst (getWrappedLines measure vmw cache text maxWidth captionId)
    = map (join " ") chunks
    /\ concat chunks = split " " text
    /\ Forall (chunkOk measure vmw maxWidth) chunks.
Proof.
  intros Hmiss. rewrite (getWrappedLines_miss _ _ _ _ _ _ Hmiss). cbv zeta.
  pose proof (split_from_nonempty " " 0 text) as Hne. fold (split " " text) in Hne.
  destruct (fitsOneLine measure vmw maxWidth text) eqn:Eone.
  - exists [split " " text]. cbn [map concat].
    rewrite join_split, app_nil_r by discriminate.
    repeat split; auto. constructor; [|constructor].
    unfold fitsOneLine in Eone. apply andb_true_iff in Eone as [Hw Hc].
    apply Z.leb_le in Hw, Hc. rewrite getRangeWidth_all in Hw.
    repeat split; auto.
  - destruct (searchSplit_spec measure vmw maxWidth (split " " text))
      as [[Hb _]|(b & Hb & Hvb & _)]; rewrite Hb.
    + cbn [Z.eqb negb]. apply greedyWrap_spec.
    + destruct (Z.eqb_spec (Z.of_nat b) (-1)) as [|_]; [lia|].
      cbn [negb]. rewrite Nat2Z.id.
      pose proof (validSplit_range _ _ _ _ _ Hvb) as Hrange.
      exists [take b (split " " text); drop b (split " " text)].
      cbn [map concat]. rewrite app_nil_r, take_drop.
      repeat split; auto.
      unfold validSplit, splitWidths in Hvb. cbn [fst snd] in Hvb.
      rewrite !andb_true_iff, !Z.leb_le in Hvb.
      destruct Hvb as [[[[_ Hc1] Hc2] Hw1] Hw2].
      rewrite getRangeWidth_words in Hw1, Hw2 by lia.
      rewrite Nat.sub_0_r, drop_0 in Hw1.
      rewrite firstn_all2 in Hw2 by (rewrite length_drop; lia).
      constructor; [|constructor; [|constructor]].
      * repeat split; auto.
        -- apply take_nonempty; [lia|exact Hne].
        -- rewrite length_take_le by lia. auto.
      * repeat split; auto.
        -- apply drop_nonempty. lia.
        -- rewrite length_drop. auto.
Qed.

Lemma join_concat sep (chunks : list (list string)) :
  Forall (fun ch => ch <> []) chunks ->
  join sep (map (join sep) chunks) = join sep (concat chunks).
Proof.
  induction 1 as [|ch rest Hch Hrest IH]; [reflexivity|].
  cbn [map concat]. destruct rest as [|ch' rest].
  - cbn [map concat]. now rewrite join_one, app_nil_r.
  - rewrite join_cons by discriminate. rewrite IH.
    rewrite join_app; [reflexivity|exact Hch|].
    inversion Hrest; subst. cbn [concat]. destruct ch'; [congruence|discriminate].
Qed.

Lemma Forall_concat_inv {A} (P : A -> Prop) (ls : list (list A)) :
  Forall P (concat ls) -> Forall (Forall P) ls.
Proof.
  induction ls as [|l ls IH]; cbn [concat]; intros H; [constructor|].
  apply Forall_app in H as [H1 H2]. constructor; auto.
Qed.

(** C10: whenever the layout is computed, the returned lines joined with
    single spaces give back the text, so the words of the joined lines are
    the words of the text in their order; and the words of the lines, line
    after line, are exactly the words of the text: none is dropped, repeated,
    moved or cut, in any of the three branches. *)
Theorem C10_words_preserved measure vmw maxWidth (cache : textLayoutCache) text captionId :
  cache !! captionId = None ->
  let result := fst (getWrappedLines measure vmw cache text maxWidth captionId) in
  join " " result = text
  /\ split " " (join " " result) = split " " text
  /\ concat (map (split " ") result) = split " " text.
Proof.
  intros Hmiss result. subst result.
  destruct (layout_chunks measure vmw maxWidth cache text captionId Hmiss)
    as (chunks & -> & Hc & Hok).
  assert (Hne : Forall (fun ch : list string => ch <> []) chunks).
  { eapply Forall_impl; [exact Hok|]. now intros ch [H _]. }
  assert (Hj : join " " (map (join " ") chunks) = text).
  { rewrite join_concat, Hc by exact Hne. apply join_split. discriminate. }
  split; [exact Hj|]. split; [now rewrite Hj|].
  rewrite <- Hc. f_equal. rewrite map_map.
  pose proof (words_no_space text) as Hws. rewrite <- Hc in Hws.
  apply Forall_concat_inv in Hws.
  clear Hj Hc Hok. induction chunks as [|ch chunks IH]; [reflexivity|].
  inversion Hne; subst. inversion Hws; subst.
  cbn [map]. rewrite split_join_words, IH by assumption. reflexivity.
Qed.

Lemma C10_words_preserved_witness :
  let result :=
    fst (getWrappedLines len_measure 2 ∅ "a bb  ccc dddd e" 60 7) in
  join " " result = "a bb  ccc dddd e"
  /\ split " " (join " " result) = split " " "a bb  ccc dddd e"
  /\ concat (map (split " ") result) = split " " "a bb  ccc dddd e".
Proof.
  apply (C10_words_preserved len_measure 2 60 ∅ "a bb  ccc dddd e" 7).
  reflexivity.
Defined.

(** ** Comparisons of rationals *)

Lemma Qltb_true a b : Qltb a b = true <-> (a < b)%Q.
Proof.
  unfold Qltb. rewrite negb_true_iff. split.
  - intros H. apply Qnot_le_lt. intros Hle. apply Qle_bool_iff in Hle. congruence.
  - intros H. destruct (Qle_bool b a) eqn:E; [|reflexivity].
    apply Qle_bool_iff in E. lra.
Qed.

Lemma Qltb_false a b : Qltb a b = false <-> (b <= a)%Q.
Proof.
  unfold Qltb. rewrite negb_false_iff. apply Qle_bool_iff.
Qed.

Lemma Qltb_ge a b : (b <= a)%Q -> Qltb a b = false.
Proof. apply Qltb_false. Qed.

Lemma Qfloor_unique x k :
  (inject_Z k <= x)%Q -> (x < inject_Z k + 1)%Q -> Qfloor x = k.
Proof.
  intros H1 H2. apply Z.le_antisymm.
  - pose proof (Qfloor_le x) as Hf.
    assert (H : (inject_Z (Qfloor x) < inject_Z (k + 1))%Q)
      by (rewrite inject_Z_plus; change (inject_Z 1) with 1%Q; lra).
    rewrite <- Zlt_Qlt in H. lia.
  - rewrite <- (Qfloor_Z k). now apply Qfloor_resp_le.
Qed.

(** ** The layout in double arithmetic: the split search (C2) *)

Lemma fold_rangeD (ww : list Q) (s k : nat) (a : Q) :
  (s + k <= length ww)%nat ->
  fold_left (fun width i => fl (width + nth i ww 0)%Q) (seq s k) a
  = fold_left (fun a w => fl (a + w)%Q) (take k (drop s ww)) a.
Proof.
  revert s a. induction k as [|k IH]; intros s a H.
  - now rewrite firstn_O.
  - cbn [seq fold_left].
    destruct (lookup_lt_is_Some_2 ww s ltac:(lia)) as [x Hx].
    rewrite IH by lia.
    rewrite (nth_lookup_Some _ _ _ _ Hx), (drop_S _ _ _ Hx).
    now rewrite firstn_cons.
Qed.

Lemma getRangeWidthD_words measure (words : list string) (s e : nat) :
  (s < e <= length words)%nat ->
  TextWrap.getRangeWidth (map measure words) (measure " ") s e
  = estimatedWidth measure (take (e - s) (drop s words)).
Proof.
  intros H. unfold TextWrap.getRangeWidth, estimatedWidth, sumD, gaps.
  destruct (Nat.leb_spec e s) as [Hle|Hlt]; [lia|].
  rewrite fold_rangeD by (rewrite length_map; lia).
  rewrite skipn_map, firstn_map, length_take_le by (rewrite length_drop; lia).
  replace (Z.of_nat e - Z.of_nat s - 1) with (Z.of_nat (e - s) - 1) by lia.
  reflexivity.
Qed.

Lemma cut_widths measure (words : list string) i :
  (1 <= i < length words)%nat ->
  TextWrap.getRangeWidth (map measure words) (measure " ") 0 i
  = estimatedWidth measure (take i words)
  /\ TextWrap.getRangeWidth (map measure words) (measure " ") i (length words)
     = estimatedWidth measure (drop i words).
Proof.
  intros Hi. rewrite !getRangeWidthD_words by lia. split.
  - now rewrite Nat.sub_0_r, drop_0.
  - now rewrite firstn_all2 by (rewrite length_drop; lia).
Qed.

Lemma splitStepD_spec measure vmw maxWidth words st i :
  (1 <= i < length words)%nat ->
  TextWrap.splitStep (map measure words) (measure " ") maxWidth vmw
                     (length words) st i =
  if validCut measure vmw maxWidth words i
     && TextWrap.lt_minDiff (cutDiff measure words i) (TextWrap.minDiff st)
  then TextWrap.mkSplit (Z.of_nat i) (Some (cutDiff measure words i))
  else st.
Proof.
  intros Hi. unfold TextWrap.splitStep, validCut, cutDiff.
  destruct (cut_widths measure words i Hi) as [-> ->].
  destruct (Nat.leb_spec 1 i); [|lia].
  destruct (Nat.ltb_spec i (length words)); [|lia].
  cbn [andb].
  destruct (Z.gtb_spec (Z.of_nat i) vmw), (Z.leb_spec (Z.of_nat i) vmw);
    try lia; cbn [orb andb]; [reflexivity|].
  destruct (Z.gtb_spec (Z.of_nat (length words - i)) vmw),
           (Z.leb_spec (Z.of_nat (length words - i)) vmw);
    try lia; cbn [orb andb]; [reflexivity|].
  destruct (Qle_bool (estimatedWidth measure (take i words)) maxWidth);
    [|reflexivity].
  destruct (Qle_bool (estimatedWidth measure (drop i words)) maxWidth);
    reflexivity.
Qed.

Lemma validCut_range measure vmw maxWidth words i :
  validCut measure vmw maxWidth words i = true -> (1 <= i < length words)%nat.
Proof.
  unfold validCut. rewrite !andb_true_iff.
  intros [[[[[H1 H2] _] _] _] _].
  apply Nat.leb_le in H1. apply Nat.ltb_lt in H2. lia.
Qed.

Lemma searchSplitD_prefix measure vmw maxWidth words (k : nat) :
  (k < length words)%nat ->
  cutInv measure vmw maxWidth words k
    (fold_left (TextWrap.splitStep (map measure words) (measure " ") maxWidth vmw
                                   (length words))
               (seq 1 k) (TextWrap.mkSplit (-1) None)).
Proof.
  induction k as [|k IH]; intros Hk.
  - left. cbn. repeat split. intros i Hi.
    destruct (validCut _ _ _ _ i) eqn:E; [|reflexivity].
    apply validCut_range in E. lia.
  - rewrite seq_S, fold_left_app. cbn [fold_left].
    specialize (IH ltac:(lia)).
    set (st := fold_left _ (seq 1 k) _) in *.
    rewrite splitStepD_spec by lia. cbn [Nat.add].
    destruct (validCut measure vmw maxWidth words (S k)) eqn:Ev; cbn [andb].
    + destruct IH as [(Hb & Hm & Hnone)|(b & Hb & Hm & Hbk & Hvb & Hmin)].
      * rewrite Hm. cbn [TextWrap.lt_minDiff]. right. exists (S k).
        repeat split; try assumption; try lia.
        intros i Hi Hv. destruct (Nat.eq_dec i (S k)) as [->|Hne];
          [apply Qle_refl|].
        rewrite Hnone in Hv by lia. discriminate.
      * rewrite Hm. cbn [TextWrap.lt_minDiff].
        destruct (Qltb (cutDiff measure words (S k)) (cutDiff measure words b))
          eqn:Elt.
        -- apply Qltb_true in Elt.
           right. exists (S k). repeat split; try assumption; try lia.
           intros i Hi Hv. destruct (Nat.eq_dec i (S k)) as [->|Hne];
             [apply Qle_refl|].
           specialize (Hmin i ltac:(lia) Hv). lra.
        -- apply Qltb_false in Elt.
           right. exists b. repeat split; try assumption; try lia.
           intros i Hi Hv. destruct (Nat.eq_dec i (S k)) as [->|Hne];
             [exact Elt|].
           apply Hmin; [lia|assumption].
    + destruct IH as [(Hb & Hm & Hnone)|(b & Hb & Hm & Hbk & Hvb & Hmin)].
      * left. repeat split; try assumption.
        intros i Hi. destruct (Nat.eq_dec i (S k)) as [->|Hne]; [assumption|].
        apply Hnone. lia.
      * right. exists b. repeat split; try assumption; try lia.
        intros i Hi Hv. destruct (Nat.eq_dec i (S k)) as [->|Hne]; [congruence|].
        apply Hmin; [lia|assumption].
Qed.

Lemma searchSplitD_spec measure vmw maxWidth words :
  let st := TextWrap.searchSplit (map measure words) (measure " ") maxWidth vmw
                                 (length words) in
  (TextWrap.bestSplit st = -1
   /\ forall i, validCut measure vmw maxWidth words i = false)
  \/ (exists b, TextWrap.bestSplit st = Z.of_nat b
        /\ validCut measure vmw maxWidth words b = true
        /\ forall i, validCut measure vmw maxWidth words i = true ->
             (cutDiff measure words b <= cutDiff measure words i)%Q).
Proof.
  intros st. subst st. unfold TextWrap.searchSplit.
  destruct words as [|w words].
  - left. split; [reflexivity|]. intros i.
    destruct (validCut _ _ _ _ i) eqn:E; [|reflexivity].
    apply validCut_range in E. cbn in E. lia.
  - pose proof (searchSplitD_prefix measure vmw maxWidth (w :: words)
                  (length (w :: words) - 1) ltac:(cbn; lia)) as H.
    destruct H as [(Hb & _ & Hnone)|(b & Hb & _ & _ & Hvb & Hmin)].
    + left. split; [exact Hb|]. intros i.
      destruct (validCut _ _ _ _ i) eqn:E; [|reflexivity].
      pose proof (validCut_range _ _ _ _ _ E).
      rewrite Hnone in E by lia. discriminate.
    + right. exists b. repeat split; try assumption.
      intros i Hv. pose proof (validCut_range _ _ _ _ _ Hv).
      apply Hmin; [lia|assumption].
Qed.

Lemma getWrappedLinesD_miss measure vmw (cache : textLayoutCache) text maxWidth k :
  cache !! k = None ->
  fst (TextWrap.getWrappedLines measure vmw cache text maxWidth k) =
  let words := split " " text in
  if oneLineFits measure vmw maxWidth text then [text]
  else
    let st := TextWrap.searchSplit (map measure words) (measure " ") maxWidth vmw
                                   (length words) in
    if negb (TextWrap.bestSplit st =? -1)
    then [join " " (take (Z.to_nat (TextWrap.bestSplit st)) words);
          join " " (drop (Z.to_nat (TextWrap.bestSplit st)) words)]
    else TextWrap.greedyWrap (measure " ") maxWidth vmw words (map measure words).
Proof.
  intros H. unfold TextWrap.getWrappedLines, oneLineFits. rewrite H. cbv zeta.
  pose proof (split_from_nonempty " " 0 text) as Hne. fold (split " " text) in Hne.
  destruct (split " " text) as [|w ws] eqn:E; [congruence|].
  rewrite getRangeWidthD_words by (cbn [length]; lia).
  rewrite Nat.sub_0_r, drop_0, firstn_all.
  cbn [length Nat.eqb].
  repeat match goal with
         | |- context [if ?b then _ else _] => destruct b
         end; reflexivity.
Qed.

(** C2, as stated, fails on the widths it compares: the code never measures
    a line, it adds up the widths of the words and of the spaces, in double
    arithmetic.  Under a measure for which the line [b c] is wider than its
    parts the text [a b c] is cut before [b], although the cut before [c]
    gives lines that fit as well and whose measured widths are closer.  And
    under a measure that gives every line the double nearest to the exact
    sum of its parts, the text [a b c d] is cut before [b], the two first
    cuts being equal in the code's sums, although the cut before [c] gives
    lines whose measured widths are closer. *)
Lemma C2_measured_widths_differ :
  (fst (TextWrap.getWrappedLines kerned_measure 2 ∅ "a b c" 40 1) = ["a"; "b c"]
   /\ (kerned_measure "a" <= 40 /\ kerned_measure "b c" <= 40)%Q
   /\ (kerned_measure "a b" <= 40 /\ kerned_measure "c" <= 40)%Q
   /\ (Qabs (kerned_measure "a b" - kerned_measure "c")
       < Qabs (kerned_measure "a" - kerned_measure "b c"))%Q)
  /\ (fst (TextWrap.getWrappedLines rounded_measure 3 ∅ "a b c d" 100 1)
      = ["a"; "b c d"]
      /\ (rounded_measure "a" <= 100 /\ rounded_measure "b c d" <= 100)%Q
      /\ (rounded_measure "a b" <= 100 /\ rounded_measure "c d" <= 100)%Q
      /\ (Qabs (rounded_measure "a b" - rounded_measure "c d")
          < Qabs (rounded_measure "a" - rounded_measure "b c d"))%Q).
Proof.
  split.
  - split; [vm_compute; reflexivity|].
    repeat split; vm_compute; (reflexivity || discriminate).
  - split; [vm_compute; reflexivity|].
    repeat split; vm_compute; (reflexivity || discriminate).
Qed.

(** C2, amended: when the layout of a caption is not served from the cache,
    the single-line case does not apply and some cut is valid (both lines
    within the word limit, both estimated widths within [maxWidth]), the two
    lines returned are the words before and after a valid cut [b] for which
    the difference of the two estimated widths, computed in double
    arithmetic, is the least among all valid cuts.  The estimated width of a
    line is the double sum of the measured widths of its words and of one
    measured space for each gap; where the measure of a line agrees with it,
    the cut is the best one for the measured widths of the lines. *)
Theorem C2_balanced_split measure vmw maxWidth (cache : textLayoutCache) text
    captionId :
  cache !! captionId = None ->
  oneLineFits measure vmw maxWidth text = false ->
  (exists i, validCut measure vmw maxWidth (split " " text) i = true) ->
  exists b,
    fst (TextWrap.getWrappedLines measure vmw cache text maxWidth captionId)
    = [join " " (take b (split " " text)); join " " (drop b (split " " text))]
    /\ validCut measure vmw maxWidth (split " " text) b = true
    /\ (forall i, validCut measure vmw maxWidth (split " " text) i = true ->
          (cutDiff measure (split " " text) b
           <= cutDiff measure (split " " text) i)%Q)
    /\ ((forall i, (1 <= i < length (split " " text))%nat ->
           (measure (join " " (take i (split " " text)))
            == estimatedWidth measure (take i (split " " text)))%Q
           /\ (measure (join " " (drop i (split " " text)))
               == estimatedWidth measure (drop i (split " " text)))%Q) ->
        forall i, validCut measure vmw maxWidth (split " " text) i = true ->
          (Qabs (fl (measure (join " " (take b (split " " text)))
                     - measure (join " " (drop b (split " " text)))))
           <= Qabs (fl (measure (join " " (take i (split " " text)))
                        - measure (join " " (drop i (split " " text))))))%Q).
Proof.
  intros Hmiss Hone [i Hi].
  rewrite (getWrappedLinesD_miss _ _ _ _ _ _ Hmiss). cbv zeta. rewrite Hone.
  destruct (searchSplitD_spec measure vmw maxWidth (split " " text))
    as [[_ Hnone]|(b & Hb & Hvb & Hmin)].
  { rewrite Hnone in Hi. discriminate. }
  rewrite Hb. destruct (Z.eqb_spec (Z.of_nat b) (-1)) as [|_]; [lia|].
  cbn [negb]. rewrite Nat2Z.id.
  exists b. split; [reflexivity|]. split; [exact Hvb|]. split; [exact Hmin|].
  intros Hadd j Hj.
  destruct (Hadd b (validCut_range _ _ _ _ _ Hvb)) as [-> ->].
  destruct (Hadd j (validCut_range _ _ _ _ _ Hj)) as [-> ->].
  apply Hmin, Hj.
Qed.

Lemma C2_balanced_split_witness :
  exists b,
    fst (TextWrap.getWrappedLines (fun s => inject_Z (len_measure s)) 2 ∅
           "hello there friend" 1000 1)
    = [join " " (take b (split " " "hello there friend"));
       join " " (drop b (split " " "hello there friend"))]
    /\ validCut (fun s => inject_Z (len_measure s)) 2 1000
                (split " " "hello there friend") b = true
    /\ (forall i,
          validCut (fun s => inject_Z (len_measure s)) 2 1000
                   (split " " "hello there friend") i = true ->
          (cutDiff (fun s => inject_Z (len_measure s))
                   (split " " "hello there friend") b
           <= cutDiff (fun s => inject_Z (len_measure s))
                      (split " " "hello there friend") i)%Q)
    /\ (forall i,
          validCut (fun s => inject_Z (len_measure s)) 2 1000
                   (split " " "hello there friend") i = true ->
          (Qabs (fl (inject_Z (len_measure
                                 (join " " (take b (split " " "hello there friend"))))
                     - inject_Z (len_measure
                                   (join " " (drop b (split " " "hello there friend"))))))
           <= Qabs (fl (inject_Z (len_measure
                                    (join " " (take i (split " " "hello there friend"))))
                        - inject_Z (len_measure
                                      (join " " (drop i (split " " "hello there friend")))))))%Q).
Proof.
  destruct (C2_balanced_split (fun s => inject_Z (len_measure s)) 2 1000 ∅
              "hello there friend" 1) as (b & H1 & H2 & H3 & H4).
  - reflexivity.
  - vm_compute. reflexivity.
  - exists 1%nat. vm_compute. reflexivity.
  - exists b. split; [exact H1|]. split; [exact H2|]. split; [exact H3|].
    apply H4. intros i Hi.
    assert (Hi' : i = 1%nat \/ i = 2%nat) by (vm_compute in Hi; lia).
    destruct Hi' as [-> | ->]; split; vm_compute; reflexivity.
Defined.

(** ** The layout in double arithmetic: the bounds of every line (C3) *)

Lemma roundoff_range : (0 < 1 - pow2 (-53) <= 1)%Q.
Proof. split; [reflexivity|discriminate]. Qed.

Lemma slack_range n : (0 < slack n <= 1)%Q.
Proof.
  pose proof roundoff_range as Hd.
  induction n as [|n IH]; cbn [slack]; [split; [reflexivity|discriminate]|].
  remember (slack n) as s eqn:Es; clear Es.
  remember (1 - pow2 (-53))%Q as d eqn:Ed; clear Ed. split; nra.
Qed.

Lemma slack_anti m n : (m <= n)%nat -> (slack n <= slack m)%Q.
Proof.
  induction 1 as [|n Hle IH]; [apply Qle_refl|].
  cbn [slack]. pose proof roundoff_range as Hd. pose proof (slack_range n) as Hs.
  remember (slack n) as s eqn:Es; clear Es.
  remember (slack m) as s' eqn:Es'; clear Es'.
  remember (1 - pow2 (-53))%Q as d eqn:Ed; clear Ed. nra.
Qed.

Lemma sumQ_nonneg l : Forall (fun w => (0 <= w)%Q) l -> (0 <= sumQ l)%Q.
Proof.
  induction 1 as [|w l Hw Hl IH]; cbn [sumQ fold_right]; [discriminate|].
  unfold sumQ in IH. lra.
Qed.

Lemma sumQ_app l1 l2 : (sumQ (l1 ++ l2) == sumQ l1 + sumQ l2)%Q.
Proof.
  unfold sumQ. induction l1 as [|x l1 IH]; cbn [app fold_right]; [ring|].
  rewrite IH. ring.
Qed.

(** A loop that adds non-negative doubles keeps at least [1 - 2^-53] of its
    sum at each turn. *)
Lemma sum_loop_lower (l : list Q) a :
  Forall (fun w => (0 <= w)%Q /\ isDouble w) l ->
  (0 <= a)%Q -> onGrid a ->
  let r := fold_left (fun a w => fl (a + w)%Q) l a in
  ((a + sumQ l) * slack (length l) <= r)%Q /\ onGrid r /\ (0 <= r)%Q.
Proof.
  intros Hl. revert a. induction Hl as [|w l [Hw Hd] Hl IH]; intros a Ha Hg.
  - cbn. split; [lra|]. split; assumption.
  - cbn [fold_left length slack].
    assert (Hg' : onGrid (a + w)%Q) by (apply onGrid_add; [exact Hg|now apply isDouble_onGrid]).
    assert (H0 : (0 <= a + w)%Q) by lra.
    pose proof (fl_lower _ Hg' H0) as Hlow.
    destruct (IH (fl (a + w)) (fl_nonneg _ H0) (fl_onGrid _))
      as (H1 & H2 & H3).
    split; [|split; assumption].
    assert (Hs : (0 <= sumQ l)%Q).
    { apply sumQ_nonneg. revert Hl. apply List.Forall_impl. now intros x [Hx _]. }
    change (sumQ (w :: l)) with (w + sumQ l)%Q.
    pose proof roundoff_range as Hr. pose proof (slack_range (length l)) as Hk.
    remember (fold_left (fun a w => fl (a + w)%Q) l (fl (a + w))) as r eqn:Er;
      clear Er.
    remember (fl (a + w)) as y eqn:Ey; clear Ey.
    remember (slack (length l)) as s eqn:Es; clear Es.
    remember (sumQ l) as q eqn:Eq; clear Eq.
    remember (1 - pow2 (-53))%Q as d eqn:Ed; clear Ed.
    apply Qle_trans with ((y + q) * s)%Q; [|exact H1].
    assert (H : ((a + w + q) * d <= y + q)%Q) by nra.
    assert (H' : ((a + w + q) * d * s <= (y + q) * s)%Q)
      by (apply Qmult_le_compat_r; lra).
    lra.
Qed.

Lemma measured_nonneg measure (ws : list string) :
  measuresDoubles measure ->
  Forall (fun w => (0 <= w)%Q /\ isDouble w) (map measure ws).
Proof.
  intros Hm. apply List.Forall_forall. intros x Hx.
  apply in_map_iff in Hx as (w & <- & _). apply Hm.
Qed.

Lemma gaps_nonneg ws : (0 <= inject_Z (gaps ws))%Q.
Proof.
  change 0%Q with (inject_Z 0). rewrite <- Zle_Qle. unfold gaps. lia.
Qed.

Lemma exactWidth_nonneg measure ws :
  measuresDoubles measure -> (0 <= exactWidth measure ws)%Q.
Proof.
  intros Hm. unfold exactWidth.
  assert (H1 : (0 <= sumQ (map measure ws))%Q).
  { apply sumQ_nonneg. generalize (measured_nonneg measure ws Hm).
    apply List.Forall_impl. now intros x [Hx _]. }
  pose proof (gaps_nonneg ws) as H2. destruct (Hm " ") as [H3 _].
  remember (inject_Z (gaps ws)) as g eqn:Eg; clear Eg.
  remember (measure " ") as sp eqn:Esp; clear Esp. nra.
Qed.

Lemma exactWidth_one measure w : (exactWidth measure [w] == measure w)%Q.
Proof.
  unfold exactWidth, sumQ, gaps. cbn [map fold_right length].
  change (Z.max 0 (Z.of_nat 1 - 1)) with 0. change (inject_Z 0) with 0%Q. ring.
Qed.

Lemma exactWidth_snoc measure (ws : list string) w :
  ws <> [] ->
  (exactWidth measure (ws ++ [w])
   == exactWidth measure ws + (measure " " + measure w))%Q.
Proof.
  intros H. unfold exactWidth, gaps.
  rewrite map_app, sumQ_app, length_app. cbn [map length sumQ fold_right].
  destruct ws as [|x ws]; [congruence|]. cbn [length].
  rewrite !Z.max_r by lia.
  replace (Z.of_nat (S (length ws) + 1) - 1) with (Z.of_nat (S (length ws)) - 1 + 1)
    by lia.
  rewrite inject_Z_plus. change (inject_Z 1) with 1%Q. ring.
Qed.

(** The estimated width of a line keeps at least [1 - 2^-53] of its exact
    width for every word, and once more. *)
Lemma estimatedWidth_lower measure (ws : list string) :
  measuresDoubles measure -> ws <> [] ->
  (exactWidth measure ws * slack (S (length ws)) <= estimatedWidth measure ws)%Q.
Proof.
  intros Hm Hne. unfold estimatedWidth, exactWidth, sumD.
  destruct (sum_loop_lower (map measure ws) 0 (measured_nonneg measure ws Hm)
              ltac:(discriminate) ltac:(exists 0; ring)) as (H1 & H2 & H3).
  rewrite length_map in H1. cbv zeta in H1, H2, H3.
  set (S' := fold_left _ (map measure ws) 0%Q) in *.
  destruct (Hm " ") as [Hsp Hdsp].
  pose proof (gaps_nonneg ws) as Hg.
  assert (Hgs : onGrid (inject_Z (gaps ws) * measure " ")%Q)
    by (apply onGrid_mult, isDouble_onGrid, Hdsp).
  assert (Hgs0 : (0 <= inject_Z (gaps ws) * measure " ")%Q) by nra.
  pose proof (fl_lower _ Hgs Hgs0) as HG.
  pose proof (fl_nonneg _ Hgs0) as HG0.
  assert (Hsum : onGrid (S' + fl (inject_Z (gaps ws) * measure " "))%Q)
    by (apply onGrid_add; [exact H2|apply fl_onGrid]).
  assert (Hsum0 : (0 <= S' + fl (inject_Z (gaps ws) * measure " "))%Q) by lra.
  pose proof (fl_lower _ Hsum Hsum0) as HE. clear Hsum0.
  assert (Hsq : (0 <= sumQ (map measure ws))%Q).
  { apply sumQ_nonneg. generalize (measured_nonneg measure ws Hm).
    apply List.Forall_impl. now intros x [Hx _]. }
  assert (Hn : (1 <= length ws)%nat) by (destruct ws; [congruence|cbn; lia]).
  pose proof (slack_anti 1 (length ws) Hn) as Hs1.
  pose proof (slack_range (length ws)) as Hk.
  cbn [slack] in Hs1 |- *.
  pose proof roundoff_range as Hr.
  remember (fl (S' + fl (inject_Z (gaps ws) * measure " "))) as e eqn:Ee; clear Ee.
  remember (fl (inject_Z (gaps ws) * measure " ")) as G eqn:EG; clear EG.
  remember (inject_Z (gaps ws) * measure " ")%Q as gs eqn:Egs; clear Egs.
  remember (sumQ (map measure ws)) as q eqn:Eq; clear Eq.
  remember (slack (length ws)) as s eqn:Es; clear Es.
  remember (1 - pow2 (-53))%Q as d eqn:Ed; clear Ed.
  clearbody S'.
  rewrite Qplus_0_l in H1. rewrite Qmult_1_r in Hs1.
  apply Qle_trans with ((S' + G) * d)%Q; [|exact HE].
  assert (A1 : (gs * s <= gs * d)%Q) by nra.
  assert (A2 : ((q + gs) * s <= S' + G)%Q) by nra.
  assert (A3 : ((q + gs) * s * d <= (S' + G) * d)%Q)
    by (apply Qmult_le_compat_r; lra).
  lra.
Qed.

Lemma fits_lineOk measure vmw maxWidth (ws : list string) :
  measuresDoubles measure -> ws <> [] ->
  (1 <= vmw -> Z.of_nat (length ws) <= vmw) ->
  (estimatedWidth measure ws <= maxWidth)%Q ->
  lineOk measure vmw maxWidth ws.
Proof.
  intros Hm Hne Hc Hw. split; [exact Hne|]. split; [exact Hc|]. left.
  pose proof (estimatedWidth_lower measure ws Hm Hne) as H.
  pose proof (exactWidth_nonneg measure ws Hm) as H0.
  assert (Hn : (S (length ws) <= 2 * length ws)%nat)
    by (destruct ws; [congruence|cbn [length]; lia]).
  pose proof (slack_anti _ _ Hn) as Hs.
  pose proof (slack_range (2 * length ws)) as Hk.
  remember (slack (S (length ws))) as s1 eqn:Es1; clear Es1.
  remember (slack (2 * length ws)) as s2 eqn:Es2; clear Es2.
  remember (exactWidth measure ws) as E eqn:EE; clear EE.
  assert (E * s2 <= E * s1)%Q by nra. lra.
Qed.

Lemma lineOk_one measure vmw maxWidth w : lineOk measure vmw maxWidth [w].
Proof. repeat split; [discriminate|cbn; lia|now right]. Qed.

(** Joining a word: what both sums of the greedy loop keep. *)
Lemma join_alg (E cw z s d X : Q) :
  (0 <= E)%Q -> (0 <= z)%Q -> (0 < s <= 1)%Q -> (0 < d <= 1)%Q ->
  (E * s <= cw)%Q -> ((cw + z) * d * d <= X)%Q ->
  ((E + z) * (d * (d * s)) <= X)%Q.
Proof.
  intros HE Hz Hs Hd H1 H2.
  assert (A1 : (z * s <= z)%Q) by nra.
  assert (A2 : ((E + z) * s <= cw + z)%Q) by nra.
  assert (A3 : (0 <= d * d)%Q) by nra.
  assert (A4 : ((E + z) * s * (d * d) <= (cw + z) * (d * d))%Q)
    by (apply Qmult_le_compat_r; assumption).
  nra.
Qed.

Lemma test_alg (cw sp w d y T : Q) :
  (0 <= cw)%Q -> (0 <= sp)%Q -> (0 <= w)%Q -> (0 < d <= 1)%Q ->
  ((cw + sp) * d <= y)%Q -> ((y + w) * d <= T)%Q ->
  ((cw + (sp + w)) * d * d <= T)%Q.
Proof.
  intros Hc Hs Hw Hd Hy HT.
  assert (A1 : ((cw + sp) * d * d <= y * d)%Q)
    by (apply Qmult_le_compat_r; lra).
  assert (A2 : (0 <= w * d)%Q) by nra.
  assert (A3 : (w * d * d <= w * d)%Q) by nra.
  nra.
Qed.

Lemma update_alg (cw z0 d z X : Q) :
  (0 <= cw)%Q -> (0 <= z0)%Q -> (0 < d <= 1)%Q ->
  (z0 * d <= z)%Q -> ((cw + z) * d <= X)%Q ->
  ((cw + z0) * d * d <= X)%Q.
Proof.
  intros Hc Hz Hd Hz' HX.
  assert (A1 : (z0 * d * d <= z * d)%Q) by (apply Qmult_le_compat_r; lra).
  assert (A2 : (0 <= cw * d)%Q) by nra.
  assert (A3 : (cw * d * d <= cw * d)%Q) by nra.
  nra.
Qed.

Lemma greedyInv_fresh measure vmw maxWidth processed ls chunks w :
  measuresDoubles measure ->
  ls = map (join " ") chunks ->
  concat chunks ++ [w] = processed ->
  Forall (lineOk measure vmw maxWidth) chunks ->
  greedyInv measure vmw maxWidth processed (TextWrap.mkWrap ls [w] (measure w)).
Proof.
  intros Hm Hl Hc Hok. exists chunks.
  cbn [TextWrap.lines TextWrap.currentLine TextWrap.currentWidth].
  split; [exact Hl|]. split; [exact Hc|]. split; [exact Hok|].
  split; [discriminate|]. intros _.
  split; [apply lineOk_one|]. split; [apply isDouble_onGrid, Hm|].
  change (slack (2 * (length [w] - 1))) with 1%Q. rewrite exactWidth_one. lra.
Qed.

Lemma wrapStepD_inv measure vmw maxWidth processed st w :
  measuresDoubles measure ->
  greedyInv measure vmw maxWidth processed st ->
  greedyInv measure vmw maxWidth (processed ++ [w])
            (TextWrap.wrapStep (measure " ") maxWidth vmw st (w, measure w)).
Proof.
  intros Hm (chunks & Hl & Hc & Hok & Hnil & Hcur).
  unfold TextWrap.wrapStep.
  destruct (Hm w) as [Hw0 Hwd]. destruct (Hm " ") as [Hs0 Hsd].
  destruct (TextWrap.currentLine st) as [|c cur] eqn:Ecur.
  - (* the first word *)
    specialize (Hnil eq_refl). subst chunks.
    assert (Hst : greedyInv measure vmw maxWidth (processed ++ [w])
                    (TextWrap.mkWrap (TextWrap.lines st) [w] (measure w))).
    { apply (greedyInv_fresh _ _ _ _ _ []); auto. now rewrite <- Hc. }
    cbn [length Nat.ltb Nat.leb andb orb Nat.eqb app].
    destruct (Z.of_nat 0 >=? vmw); exact Hst.
  - destruct (Hcur ltac:(discriminate)) as [(Hne & Hcnt & Hwid) [Hgrid Hcw]].
    cbn [length Nat.ltb Nat.leb andb Nat.eqb].
    set (cw := TextWrap.currentWidth st) in *.
    set (sp := measure " ") in *.
    destruct (Qltb maxWidth (fl (fl (cw + sp) + measure w))
              || (Z.of_nat (S (length cur)) >=? vmw)) eqn:Eo.
    + (* overflow: the current line is pushed *)
      apply (greedyInv_fresh _ _ _ _ _ (chunks ++ [c :: cur])); auto.
      * now rewrite map_app, Hl.
      * rewrite concat_app. cbn [concat]. rewrite app_nil_r, <- Hc.
        now rewrite <- app_assoc.
      * apply Forall_app. split; [exact Hok|]. constructor; [|constructor].
        repeat split; assumption.
    + (* the word joins the current line *)
      apply orb_false_iff in Eo as [Ew Ec]. apply Qltb_false in Ew.
      exists chunks.
      cbn [TextWrap.lines TextWrap.currentLine TextWrap.currentWidth].
      split; [exact Hl|].
      split; [now rewrite <- Hc, <- app_assoc|].
      split; [exact Hok|].
      split; [discriminate|]. intros _.
      change (c :: cur ++ [w]) with ((c :: cur) ++ [w]).
      pose proof (exactWidth_nonneg measure (c :: cur) Hm) as HE0.
      pose proof (exactWidth_snoc measure (c :: cur) w ltac:(discriminate)) as HE'.
      fold sp in HE'.
      pose proof roundoff_range as Hr.
      pose proof (slack_range (2 * (length (c :: cur) - 1))) as Hk.
      assert (Hcw0 : (0 <= cw)%Q).
      { remember (slack (2 * (length (c :: cur) - 1))) as s eqn:Es; clear Es.
        remember (exactWidth measure (c :: cur)) as E eqn:EE; clear EE. nra. }
      (* the update of the width *)
      assert (Hz : onGrid (sp + measure w)%Q)
        by (apply onGrid_add; apply isDouble_onGrid; assumption).
      assert (Hz0 : (0 <= sp + measure w)%Q) by lra.
      pose proof (fl_lower _ Hz Hz0) as Lz.
      pose proof (fl_nonneg _ Hz0) as Lz0.
      assert (Hu : onGrid (cw + fl (sp + measure w))%Q)
        by (apply onGrid_add; [exact Hgrid|apply fl_onGrid]).
      assert (Hu0 : (0 <= cw + fl (sp + measure w))%Q) by lra.
      pose proof (fl_lower _ Hu Hu0) as Lu. clear Hu0.
      (* the test of the width *)
      assert (Hy : onGrid (cw + sp)%Q)
        by (apply onGrid_add; [exact Hgrid|now apply isDouble_onGrid]).
      assert (Hy0 : (0 <= cw + sp)%Q) by lra.
      pose proof (fl_lower _ Hy Hy0) as Ly.
      pose proof (fl_nonneg _ Hy0) as Ly0.
      assert (Ht : onGrid (fl (cw + sp) + measure w)%Q)
        by (apply onGrid_add; [apply fl_onGrid|now apply isDouble_onGrid]).
      assert (Ht0 : (0 <= fl (cw + sp) + measure w)%Q) by lra.
      pose proof (fl_lower _ Ht Ht0) as Lt. clear Ht0.
      assert (Hlen : length ((c :: cur) ++ [w]) = S (length (c :: cur)))
        by (rewrite length_app; cbn [length]; lia).
      assert (Hs2 : slack (2 * (length ((c :: cur) ++ [w]) - 1))
                    = ((1 - pow2 (-53)) * ((1 - pow2 (-53))
                       * slack (2 * (length (c :: cur) - 1))))%Q).
      { rewrite Hlen. cbn [length].
        replace (2 * (S (S (length cur)) - 1))%nat
          with (S (S (2 * (S (length cur) - 1)))) by lia.
        reflexivity. }
      assert (Hanti : (slack (2 * length ((c :: cur) ++ [w]))
                       <= slack (2 * (length ((c :: cur) ++ [w]) - 1)))%Q)
        by (apply slack_anti; lia).
      pose proof (slack_range (2 * length ((c :: cur) ++ [w]))) as Hk2.
      rewrite Hs2 in Hanti.
      split; [|split; [apply fl_onGrid|]].
      * split; [discriminate|]. split.
        -- intros _. rewrite Hlen. cbn [length].
           destruct (Z.geb_spec (Z.of_nat (S (length cur))) vmw); [discriminate|].
           lia.
        -- left. rewrite HE'.
           remember (slack (2 * length ((c :: cur) ++ [w]))) as s2 eqn:Es2;
             clear Es2.
           remember (slack (2 * (length (c :: cur) - 1))) as s eqn:Es; clear Es.
           remember (fl (fl (cw + sp) + measure w)) as T eqn:ET; clear ET.
           remember (fl (cw + sp)) as y eqn:Ey; clear Ey.
           remember (exactWidth measure (c :: cur)) as E eqn:EE; clear EE.
           remember (1 - pow2 (-53))%Q as d eqn:Ed; clear Ed.
           clearbody cw sp.
           assert (B1 : ((cw + (sp + measure w)) * d * d <= T)%Q)
             by (apply (test_alg cw sp (measure w) d y T); assumption).
           pose proof (join_alg E cw (sp + measure w) s d T HE0 ltac:(lra) Hk Hr
                         Hcw B1) as B2.
           assert (B3 : ((E + (sp + measure w)) * s2
                         <= (E + (sp + measure w)) * (d * (d * s)))%Q)
             by (rewrite (Qmult_comm _ s2), (Qmult_comm _ (d * (d * s)));
                 apply Qmult_le_compat_r; [exact Hanti|lra]).
           lra.
      * rewrite Hs2, HE'.
        remember (slack (2 * (length (c :: cur) - 1))) as s eqn:Es; clear Es.
        remember (fl (cw + fl (sp + measure w))) as X eqn:EX; clear EX.
        remember (fl (sp + measure w)) as z eqn:Ez; clear Ez.
        remember (exactWidth measure (c :: cur)) as E eqn:EE; clear EE.
        remember (1 - pow2 (-53))%Q as d eqn:Ed; clear Ed.
        clearbody cw sp.
        assert (B1 : ((cw + (sp + measure w)) * d * d <= X)%Q)
          by (apply (update_alg cw (sp + measure w) d z X); assumption || lra).
        exact (join_alg E cw (sp + measure w) s d X HE0 ltac:(lra) Hk Hr Hcw B1).
Qed.

Lemma wrapLoopD_inv measure vmw maxWidth (ws : list string) processed st :
  measuresDoubles measure ->
  greedyInv measure vmw maxWidth processed st ->
  greedyInv measure vmw maxWidth (processed ++ ws)
    (fold_left (TextWrap.wrapStep (measure " ") maxWidth vmw)
               (combine ws (map measure ws)) st).
Proof.
  intros Hm. rewrite combine_map_self. revert processed st.
  induction ws as [|w ws IH]; intros processed st H.
  - now rewrite app_nil_r.
  - cbn [map fold_left].
    replace (processed ++ w :: ws) with ((processed ++ [w]) ++ ws)
      by now rewrite <- app_assoc.
    apply IH, wrapStepD_inv; assumption.
Qed.

Lemma greedyWrapD_spec measure vmw maxWidth (words : list string) :
  measuresDoubles measure ->
  exists chunks : list (list string),
    TextWrap.greedyWrap (measure " ") maxWidth vmw words (map measure words)
    = map (join " ") chunks
    /\ concat chunks = words
    /\ Forall (lineOk measure vmw maxWidth) chunks.
Proof.
  intros Hm. unfold TextWrap.greedyWrap.
  assert (H0 : greedyInv measure vmw maxWidth [] (TextWrap.mkWrap [] [] 0)).
  { exists []. cbn. repeat split; auto; congruence. }
  pose proof (wrapLoopD_inv measure vmw maxWidth words [] _ Hm H0) as H.
  cbn [app] in H. set (st := fold_left _ _ _) in *.
  destruct H as (chunks & Hl & Hc & Hok & Hnil & Hcur).
  destruct (TextWrap.currentLine st) as [|c cur] eqn:Ecur;
    cbn [length Nat.ltb Nat.leb].
  - exists chunks. rewrite app_nil_r in Hc. auto.
  - exists (chunks ++ [c :: cur]).
    rewrite map_app, concat_app, Hl. cbn [map concat]. rewrite app_nil_r.
    repeat split; auto.
    apply Forall_app. split; [exact Hok|]. constructor; [|constructor].
    apply Hcur. discriminate.
Qed.

(** Every layout computed in double arithmetic is a grouping of the words of
    the text into lines, each group passing [lineOk]. *)
Lemma layoutD_chunks measure vmw maxWidth (cache : textLayoutCache) text captionId :
  measuresDoubles measure ->
  cache !! captionId = None ->
  exists chunks : list (list string),
    fst (TextWrap.getWrappedLines measure vmw cache text maxWidth captionId)
    = map (join " ") chunks
    /\ concat chunks = split " " text
    /\ Forall (lineOk measure vmw maxWidth) chunks.
Proof.
  intros Hm Hmiss. rewrite (getWrappedLinesD_miss _ _ _ _ _ _ Hmiss). cbv zeta.
  pose proof (split_from_nonempty " " 0 text) as Hne. fold (split " " text) in Hne.
  destruct (oneLineFits measure vmw maxWidth text) eqn:Eone.
  - exists [split " " text]. cbn [map concat].
    rewrite join_split, app_nil_r by discriminate.
    repeat split; auto. constructor; [|constructor].
    unfold oneLineFits in Eone. apply andb_true_iff in Eone as [Hw Hc].
    apply Qle_bool_iff in Hw. apply Z.leb_le in Hc.
    apply fits_lineOk; auto.
  - destruct (searchSplitD_spec measure vmw maxWidth (split " " text))
      as [[Hb _]|(b & Hb & Hvb & _)]; rewrite Hb.
    + cbn [Z.eqb negb]. now apply greedyWrapD_spec.
    + destruct (Z.eqb_spec (Z.of_nat b) (-1)) as [|_]; [lia|].
      cbn [negb]. rewrite Nat2Z.id.
      pose proof (validCut_range _ _ _ _ _ Hvb) as Hrange.
      exists [take b (split " " text); drop b (split " " text)].
      cbn [map concat]. rewrite app_nil_r, take_drop.
      repeat split; auto.
      unfold validCut in Hvb.
      rewrite !andb_true_iff, !Z.leb_le, !Qle_bool_iff in Hvb.
      destruct Hvb as [[[[_ Hc1] Hc2] Hw1] Hw2].
      constructor; [|constructor; [|constructor]].
      * apply fits_lineOk; auto.
        -- apply take_nonempty; [lia|exact Hne].
        -- rewrite length_take_le by lia. auto.
      * apply fits_lineOk; auto.
        -- apply drop_nonempty. lia.
        -- rewrite length_drop. auto.
Qed.

(** C3, as stated, fails in three ways.  The width the code bounds is not
    the measured width of the line: under a measure for which the line [b c]
    is wider than its parts, that line is returned although its measured
    width is over [maxWidth].  A layout found in the cache is returned as it
    is, whatever the word limit and the width are now.  And the code adds the
    widths in double arithmetic: the line [a b] is returned although the
    exact sum of the widths of its words and its space is over [maxWidth]. *)
Lemma C3_lines_over_bounds :
  (fst (TextWrap.getWrappedLines kerned_measure 2 ∅ "b c" 30 1) = ["b c"]
   /\ wordCount "b c" = 2%nat
   /\ (30 < kerned_measure "b c")%Q)
  /\ (fst (TextWrap.getWrappedLines kerned_measure 1
             (<[1 := ["hello there"]]> ∅) "hi" 30 1) = ["hello there"]
      /\ wordCount "hello there" = 2%nat
      /\ (30 < kerned_measure "hello there")%Q)
  /\ (fst (TextWrap.getWrappedLines fraction_measure 5 ∅ "a b" (fl 28.4) 1)
      = ["a b"]
      /\ (fl 28.4 < exactWidth fraction_measure (split " " "a b"))%Q).
Proof.
  split; [|split].
  - split; [vm_compute; reflexivity|]. split; reflexivity.
  - split; [vm_compute; reflexivity|]. split; reflexivity.
  - split; [vm_compute; reflexivity|]. vm_compute. reflexivity.
Qed.

(** C3, amended: whenever the layout is computed (it is not served from the
    cache), the measure returns non-negative doubles and the word limit is
    at least 1, every returned line has at most [visualMaxWords] words; and
    the exact sum of the measured widths of its words and of one measured
    space for each gap is at most [maxWidth] but for the rounding of the
    double additions of the code, which leave at least [1 - 2^-53] of a sum
    each, two for a word, unless the line is a single word that is itself
    wider than [maxWidth]; such a word stands alone on its line, whole. *)
Theorem C3_line_bounds measure vmw maxWidth (cache : textLayoutCache) text
    captionId line :
  measuresDoubles measure ->
  1 <= vmw ->
  cache !! captionId = None ->
  In line (fst (TextWrap.getWrappedLines measure vmw cache text maxWidth
                  captionId)) ->
  Z.of_nat (wordCount line) <= vmw
  /\ ((exactWidth measure (split " " line) * slack (2 * wordCount line)
       <= maxWidth)%Q
      \/ exists w, split " " line = [w] /\ In w (split " " text)
                   /\ (maxWidth < measure w)%Q).
Proof.
  intros Hm Hvmw Hmiss Hin.
  destruct (layoutD_chunks measure vmw maxWidth cache text captionId Hm Hmiss)
    as (chunks & Hl & Hc & Hok).
  rewrite Hl in Hin. apply in_map_iff in Hin as (ch & <- & Hch).
  pose proof (words_no_space text) as Hws. rewrite <- Hc in Hws.
  apply Forall_concat_inv in Hws.
  rewrite List.Forall_forall in Hok, Hws.
  destruct (Hok ch Hch) as (Hne & Hcnt & Hw). specialize (Hws ch Hch).
  unfold wordCount. rewrite split_join_words by assumption.
  split; [auto|].
  destruct Hw as [Hw|Hlen]; [now left|].
  destruct ch as [|w [|w' ch]]; try discriminate.
  destruct (Qlt_le_dec maxWidth (measure w)) as [Hlt|Hle].
  - right. exists w. repeat split; auto.
    rewrite <- Hc. apply in_concat. exists [w]. split; [exact Hch|now left].
  - left. rewrite exactWidth_one. destruct (Hm w) as [Hw0 _].
    pose proof (slack_range (2 * length [w])) as Hk.
    remember (slack (2 * length [w])) as s eqn:Es; clear Es.
    remember (measure w) as m eqn:Em; clear Em. nra.
Qed.

Lemma fraction_measure_doubles : measuresDoubles fraction_measure.
Proof.
  intros s. unfold fraction_measure, isDouble.
  destruct (String.eqb s "a"); [split; vm_compute; [discriminate|reflexivity]|].
  destruct (String.eqb s "b"); [split; vm_compute; [discriminate|reflexivity]|].
  destruct (String.eqb s " "); split; vm_compute; (discriminate || reflexivity).
Qed.

Lemma C3_line_bounds_witness :
  Z.of_nat (wordCount "a b") <= 5
  /\ ((exactWidth fraction_measure (split " " "a b") * slack (2 * wordCount "a b")
       <= fl 28.4)%Q
      \/ exists w, split " " "a b" = [w] /\ In w (split " " "a b")
                   /\ (fl 28.4 < fraction_measure w)%Q).
Proof.
  apply (C3_line_bounds fraction_measure 5 (fl 28.4) ∅ "a b" 1).
  - exact fraction_measure_doubles.
  - lia.
  - reflexivity.
  - vm_compute. auto.
Defined.

(** ** Animation bounds (C5) *)

Lemma clamp01_range x : (0 <= clamp01 x <= 1)%Q.
Proof.
  unfold clamp01.
  destruct (Q.max_spec 0 (Qmin 1 x)) as [[H ->]|[H ->]];
    destruct (Q.min_spec 1 x) as [[H' E]|[H' E]]; rewrite ?E in *; lra.
Qed.

Lemma clamp01_one x : (1 <= x)%Q -> (clamp01 x == 1)%Q.
Proof.
  intros Hx. unfold clamp01.
  destruct (Q.max_spec 0 (Qmin 1 x)) as [[H ->]|[H ->]];
    destruct (Q.min_spec 1 x) as [[H' E]|[H' E]]; rewrite ?E in *; lra.
Qed.

Lemma fl_1 : (fl 1 == 1)%Q.
Proof. apply (fl_int 1). cbn. lia. Qed.

(** Past the duration of an animation its progress is 1: [d] is the double
    the code divides by, [lit] the duration as written, not below it. *)
Lemma steady_progress d lit elapsed :
  (0 < d <= lit)%Q -> (lit <= elapsed)%Q -> (clamp01 (fl (elapsed / d)) == 1)%Q.
Proof.
  intros Hd He. apply clamp01_one.
  apply Qle_trans with (fl 1); [rewrite fl_1; apply Qle_refl|].
  apply fl_le, Qle_shift_div_l; lra.
Qed.

Lemma durations_below :
  (0 < Animation.fadeDuration <= 0.25)%Q /\ (0 < Animation.slideDuration <= 0.3)%Q
  /\ (0 < Animation.popDuration <= 0.3)%Q /\ (0 < Animation.bounceDuration <= 0.6)%Q
  /\ (0 < Animation.shakeDuration <= 0.5)%Q.
Proof. repeat split; vm_compute; (reflexivity || discriminate). Qed.

(** At progress 1 the bounce is left with what the rounding of
    [(1 - 0.9) / 0.1] leaves. *)
Lemma bounceOffset_steady p :
  (p == 1)%Q -> (Animation.bounceOffset p == - (1 # 2 ^ 51))%Q.
Proof.
  intros Hp. unfold Animation.bounceOffset.
  assert (H3 : (fl 0.3 <= p)%Q) by (rewrite Hp; vm_compute; discriminate).
  assert (H5 : (fl 0.5 <= p)%Q) by (rewrite Hp; vm_compute; discriminate).
  assert (H7 : (fl 0.7 <= p)%Q) by (rewrite Hp; vm_compute; discriminate).
  assert (H9 : (fl 0.9 <= p)%Q) by (rewrite Hp; vm_compute; discriminate).
  rewrite !Qltb_ge by assumption. cbv zeta. rewrite Hp.
  vm_compute. reflexivity.
Qed.

(** C5, as stated, fails on the bounce: at progress 1 the code computes
    [(1 - 0.9) / 0.1] in doubles, which is [1 - 2^-52] and not 1, and the
    caption keeps a vertical offset.  On a frame 1080 pixels high, one second
    into the caption, the offset is [-27 * 2^-50] pixels. *)
Lemma C5_bounce_residue :
  let c := Animation.animate (fun x => x) bounce 1 1920 1080 90 defaultCtx in
  (fl (fl (1 - fl 0.9) / fl 0.1) == 1 - (1 # 2 ^ 52))%Q
  /\ (translateY c == - (27 # 2 ^ 50))%Q
  /\ ~ (translateY c == 0)%Q.
Proof.
  cbv zeta. split; [vm_compute; reflexivity|].
  split; [vm_compute; reflexivity|]. intros H. vm_compute in H. discriminate H.
Qed.

(** C5, amended: in double arithmetic, for every animation kind and every
    [elapsed >= 0] the opacity set on the context lies in [0, 1]; and once
    [elapsed] has reached the duration of a time-bounded animation the
    context is in its steady state: fade has opacity 1 from 0.25 s, slide has
    opacity 1 and no translation from 0.3 s, pop has opacity 1 and scale 1
    (the identity transform) from 0.3 s, shake has no horizontal offset from
    0.5 s; bounce has from 0.6 s a fixed vertical offset, which is not zero
    but the double nearest to [-2^-51 * (height / 1000) * 50] pixels, the
    product rounded twice: between [-10^-12] and 0 for a height of at most
    10000 pixels. *)
Theorem C5_animation_bounds sin anim elapsed width height captionY :
  (0 <= elapsed)%Q ->
  let c := Animation.animate sin anim elapsed width height captionY defaultCtx in
  (0 <= globalAlpha c <= 1)%Q
  /\ (anim = fade -> (0.25 <= elapsed)%Q -> (globalAlpha c == 1)%Q)
  /\ (anim = slide -> (0.3 <= elapsed)%Q ->
      (globalAlpha c == 1 /\ translateX c == 0 /\ translateY c == 0)%Q)
  /\ (anim = pop -> (0.3 <= elapsed)%Q ->
      (globalAlpha c == 1 /\ scaleXY c == 1
       /\ translateX c == 0 /\ translateY c == 0)%Q)
  /\ (anim = bounce -> (0.6 <= elapsed)%Q ->
      (globalAlpha c == 1)%Q
      /\ (translateY c == fl (fl (- (1 # 2 ^ 51) * fl (height / 1000)) * 50))%Q
      /\ ((0 <= height <= 10000)%Q ->
          (- (1 # 10 ^ 12) <= translateY c <= 0)%Q))
  /\ (anim = shake -> (0.5 <= elapsed)%Q -> (translateX c == 0)%Q).
Proof.
  intros He c. subst c. split.
  - destruct anim; cbn [Animation.animate setAlpha translate scale setShadowBlur
                        globalAlpha defaultCtx];
      try (split; discriminate); try apply clamp01_range.
    + (* bounce *)
      pose proof (clamp01_range (fl (elapsed / Animation.bounceDuration))) as Hr.
      destruct (Qltb (clamp01 (fl (elapsed / Animation.bounceDuration))) (fl 0.3))
        eqn:E; cbn [setAlpha translate globalAlpha]; [|split; discriminate].
      apply Qltb_true in E.
      set (p := clamp01 (fl (elapsed / Animation.bounceDuration))) in *.
      assert (H3 : (0 < fl 0.3 <= 1)%Q)
        by (split; vm_compute; [reflexivity|discriminate]).
      split.
      * apply fl_nonneg, Qle_shift_div_l; lra.
      * apply Qle_trans with (fl 1); [|rewrite fl_1; apply Qle_refl].
        apply fl_le, Qle_shift_div_r; lra.
    + (* shake *)
      destruct (Qltb (clamp01 (fl (elapsed / Animation.shakeDuration))) 1);
        cbn [translate globalAlpha]; split; discriminate.
  - destruct durations_below as (Df & Ds & Dp & Db & Dh).
    split; [|split; [|split; [|split]]]; intros -> Hd.
    + cbn [Animation.animate setAlpha globalAlpha].
      exact (steady_progress _ _ elapsed Df Hd).
    + pose proof (steady_progress _ _ elapsed Ds Hd) as Hp.
      cbn [Animation.animate setAlpha translate globalAlpha translateX translateY
           scaleXY defaultCtx].
      split; [exact Hp|]. split; [ring|].
      rewrite Hp.
      assert (E0 : (fl (1 - 1) == 0)%Q) by (vm_compute; reflexivity).
      rewrite E0, Qmult_0_l, fl_0. ring.
    + pose proof (steady_progress _ _ elapsed Dp Hd) as Hp.
      cbn [Animation.animate setAlpha translate scale globalAlpha translateX
           translateY scaleXY defaultCtx].
      assert (Hk : (fl (fl 0.5 + fl (fl 0.5 * clamp01 (fl (elapsed / Animation.popDuration))))
                    == 1)%Q).
      { rewrite Hp. vm_compute. reflexivity. }
      split; [exact Hp|]. rewrite Hk. split; [reflexivity|]. split; ring.
    + pose proof (steady_progress _ _ elapsed Db Hd) as Hp.
      cbn [Animation.animate].
      assert (H3 : (fl 0.3 <= clamp01 (fl (elapsed / Animation.bounceDuration)))%Q)
        by (rewrite Hp; vm_compute; discriminate).
      rewrite (Qltb_ge _ _ H3).
      cbn [translate globalAlpha translateY scaleXY defaultCtx].
      split; [reflexivity|].
      rewrite (bounceOffset_steady _ Hp).
      set (sf := fl (height / 1000)).
      assert (Ey : (0 + 1 * fl (fl (- (1 # 2 ^ 51) * sf) * 50)
                    == fl (fl (- (1 # 2 ^ 51) * sf) * 50))%Q) by ring.
      split; [exact Ey|]. intros [Hh0 Hh1]. rewrite Ey.
      assert (Hsf : (0 <= sf <= 10)%Q).
      { subst sf. split.
        - apply fl_nonneg. apply Qle_shift_div_l; [reflexivity|lra].
        - apply Qle_trans with (fl 10);
            [|rewrite (fl_int 10) by (cbn; lia); apply Qle_refl].
          apply fl_le, Qle_shift_div_r; [reflexivity|lra]. }
      change (- (1 # 2 ^ 51))%Q with (-1 # 2251799813685248)%Q.
      assert (Ha : (fl ((-1 # 2251799813685248) * 10)
                    <= fl ((-1 # 2251799813685248) * sf) <= 0)%Q).
      { split; [apply fl_le; lra|apply fl_nonpos; lra]. }
      set (a := fl ((-1 # 2251799813685248) * sf)) in *.
      split.
      * apply Qle_trans
          with (fl (fl ((-1 # 2251799813685248) * 10) * 50));
          [vm_compute; discriminate|apply fl_le; lra].
      * apply fl_nonpos. lra.
    + pose proof (steady_progress _ _ elapsed Dh Hd) as Hp.
      cbn [Animation.animate].
      rewrite Qltb_ge by (rewrite Hp; apply Qle_refl). reflexivity.
Qed.

Lemma C5_animation_bounds_witness :
  let c := Animation.animate (fun x => x) bounce 1 1920 1080 90 defaultCtx in
  (0 <= globalAlpha c <= 1)%Q
  /\ (globalAlpha c == 1)%Q
  /\ (- (1 # 10 ^ 12) <= translateY c <= 0)%Q.
Proof.
  pose proof (C5_animation_bounds (fun x => x) bounce 1 1920 1080 90) as H.
  assert (H0 : (0 <= 1)%Q) by (vm_compute; discriminate).
  specialize (H H0). cbv zeta in H. destruct H as (Ha & _ & _ & _ & Hb & _).
  split; [exact Ha|].
  destruct (Hb eq_refl) as (H1 & _ & H2); [vm_compute; discriminate|].
  split; [exact H1|]. apply H2. split; vm_compute; discriminate.
Defined.

(** ** Key frames of the frame-accurate export (C9) *)

Lemma inject_Z_succ (k : nat) :
  (inject_Z (Z.of_nat (S k)) == inject_Z (Z.of_nat k) + 1)%Q.
Proof. rewrite Nat2Z.inj_succ, <- Z.add_1_r, inject_Z_plus. reflexivity. Qed.

Lemma interval_near :
  ((1 # 30) - (1 # 2 ^ 58) <= interval <= (1 # 30) + (1 # 2 ^ 58))%Q.
Proof. split; vm_compute; discriminate. Qed.

Lemma pow2_m53 : pow2 (-53) = (1 # 2 ^ 53)%Q.
Proof. reflexivity. Qed.

Lemma tiny_le x : ((1 # 64) <= x)%Q -> (pow2 (-1022) <= x)%Q.
Proof.
  intros H. apply Qle_trans with (pow2 (-6)); [apply pow2_le; lia|exact H].
Qed.

(** One turn of the loop: a time that is within [j * 2^-34] of [j / 30]
    becomes one that is within [(j + 1) * 2^-34] of [(j + 1) / 30]. *)
Lemma frame_step t (j : Z) :
  0 <= j < frameHorizon ->
  (inject_Z j * ((1 # 30) - (1 # 2 ^ 34)) <= t
   <= inject_Z j * ((1 # 30) + (1 # 2 ^ 34)))%Q ->
  (inject_Z (j + 1) * ((1 # 30) - (1 # 2 ^ 34)) <= fl (t + interval)
   <= inject_Z (j + 1) * ((1 # 30) + (1 # 2 ^ 34)))%Q.
Proof.
  intros Hj Ht. rewrite inject_Z_plus. change (inject_Z 1) with 1%Q.
  assert (Hq : (0 <= inject_Z j <= inject_Z (frameHorizon - 1))%Q)
    by (unfold frameHorizon in *; split;
        [change 0%Q with (inject_Z 0)|]; rewrite <- Zle_Qle; lia).
  change (inject_Z (frameHorizon - 1)) with (4194303 # 1)%Q in Hq.
  pose proof interval_near as Hh.
  generalize dependent (inject_Z j). intros q Ht Hq.
  generalize dependent interval. intros h Hh.
  change (1 # 2 ^ 58)%Q with (1 # 288230376151711744)%Q in Hh.
  change (1 # 2 ^ 34)%Q with (1 # 17179869184)%Q in *.
  assert (Hx : (pow2 (-1022) <= t + h)%Q) by (apply tiny_le; lra).
  destruct (fl_error _ Hx) as [H1 H2]. rewrite pow2_m53 in H1, H2.
  change (1 # 2 ^ 53)%Q with (1 # 9007199254740992)%Q in H1, H2.
  generalize dependent (fl (t + h)). intros y H1 H2.
  split; lra.
Qed.

(** Near [j / 30] the key-frame test sees the integer [j]. *)
Lemma frame_round t (j : Z) :
  0 < j <= frameHorizon ->
  (inject_Z j * ((1 # 30) - (1 # 2 ^ 34)) <= t
   <= inject_Z j * ((1 # 30) + (1 # 2 ^ 34)))%Q ->
  (0 < t)%Q
  /\ (inject_Z j - (1 # 4) <= fl (t * 30) <= inject_Z j + (1 # 4))%Q.
Proof.
  intros Hj Ht.
  assert (Hq : (inject_Z 1 <= inject_Z j <= inject_Z frameHorizon)%Q)
    by (unfold frameHorizon in *; split; rewrite <- Zle_Qle; lia).
  change (inject_Z frameHorizon) with (4194304 # 1)%Q in Hq.
  change (inject_Z 1) with 1%Q in Hq.
  generalize dependent (inject_Z j). intros q Ht Hq.
  change (1 # 2 ^ 34)%Q with (1 # 17179869184)%Q in *.
  assert (Hx : (pow2 (-1022) <= t * (30 # 1))%Q) by (apply tiny_le; lra).
  destruct (fl_error _ Hx) as [H1 H2]. rewrite pow2_m53 in H1, H2.
  change (1 # 2 ^ 53)%Q with (1 # 9007199254740992)%Q in H1, H2.
  generalize dependent (fl (t * 30)). intros y H1 H2.
  split; [|split]; lra.
Qed.

Lemma Math_round_nearest x n : Math_round x = n <-> nearest x n.
Proof.
  unfold Math_round, nearest. split.
  - intros <-. pose proof (Qfloor_le (x + 0.5)) as H1.
    pose proof (Qlt_floor (x + 0.5)) as H2.
    rewrite inject_Z_plus in H2. change (inject_Z 1) with 1%Q in H2.
    split; lra.
  - intros [H1 H2]. apply Qfloor_unique; lra.
Qed.

Lemma frameLoop_times fuel duration t0 (j : Z) (k : nat) f :
  0 <= j -> j + Z.of_nat k <= frameHorizon ->
  (inject_Z j * ((1 # 30) - (1 # 2 ^ 34)) <= t0
   <= inject_Z j * ((1 # 30) + (1 # 2 ^ 34)))%Q ->
  frameLoop fuel duration t0 !! k = Some f ->
  (inject_Z (j + Z.of_nat k) * ((1 # 30) - (1 # 2 ^ 34)) <= frameTime f
   <= inject_Z (j + Z.of_nat k) * ((1 # 30) + (1 # 2 ^ 34)))%Q
  /\ frameKey f = keyFrame (frameTime f).
Proof.
  revert t0 j k. induction fuel as [|fuel IH]; intros t0 j k Hj Hk Ht H; cbn in H.
  - destruct k; discriminate.
  - destruct (Qltb t0 duration); [|destruct k; discriminate].
    destruct k as [|k]; cbn in H.
    + injection H as <-. cbn [frameTime frameKey processFrame].
      split; [|reflexivity]. change (Z.of_nat 0) with 0. now rewrite Z.add_0_r.
    + replace (j + Z.of_nat (S k)) with ((j + 1) + Z.of_nat k) in * by lia.
      apply (IH (fl (t0 + interval)) (j + 1) k); [lia|exact Hk| |exact H].
      apply frame_step; [lia|exact Ht].
Qed.

Lemma frameLoop_submits fuel duration t0 (j : Z) (k : nat) :
  0 <= j -> j + Z.of_nat k <= frameHorizon ->
  (inject_Z j * ((1 # 30) - (1 # 2 ^ 34)) <= t0
   <= inject_Z j * ((1 # 30) + (1 # 2 ^ 34)))%Q ->
  (k < fuel)%nat ->
  (inject_Z (j + Z.of_nat k) / 30 + (1 # 2 ^ 12) < duration)%Q ->
  exists f, frameLoop fuel duration t0 !! k = Some f.
Proof.
  revert t0 j k. induction fuel as [|fuel IH]; intros t0 j k Hj Hk Ht Hf Hd; [lia|].
  assert (Hlt : (t0 < duration)%Q).
  { assert (Hq : (0 <= inject_Z j <= inject_Z (j + Z.of_nat k))%Q)
      by (split; [change 0%Q with (inject_Z 0)|]; rewrite <- Zle_Qle; lia).
    assert (Hq' : (inject_Z (j + Z.of_nat k) <= inject_Z frameHorizon)%Q)
      by (rewrite <- Zle_Qle; lia).
    change (inject_Z frameHorizon) with (4194304 # 1)%Q in Hq'.
    assert (E : forall q, (q / 30 == q * (1 # 30))%Q) by (intros; field).
    rewrite E in Hd.
    generalize dependent (inject_Z (j + Z.of_nat k)). intros q' Hd Hq Hq'.
    generalize dependent (inject_Z j). intros q Ht Hq.
    change (1 # 2 ^ 34)%Q with (1 # 17179869184)%Q in *.
    change (1 # 2 ^ 12)%Q with (1 # 4096)%Q in *. lra. }
  cbn. apply Qltb_true in Hlt. rewrite Hlt.
  destruct k as [|k]; cbn; [eauto|].
  replace (j + Z.of_nat (S k)) with ((j + 1) + Z.of_nat k) in * by lia.
  apply (IH (fl (t0 + interval)) (j + 1) k); [lia|exact Hk| |lia|exact Hd].
  apply frame_step; [lia|exact Ht].
Qed.

Lemma frameLoop_key fuel duration t0 (k : nat) f :
  frameLoop fuel duration t0 !! k = Some f -> frameKey f = keyFrame (frameTime f).
Proof.
  revert t0 k. induction fuel as [|fuel IH]; intros t0 k H; cbn in H.
  - destruct k; discriminate.
  - destruct (Qltb t0 duration); [|destruct k; discriminate].
    destruct k as [|k]; cbn in H.
    + now injection H as <-.
    + exact (IH _ _ H).
Qed.

Lemma keyFrame_nearest t :
  keyFrame t = true <->
  (t == 0)%Q \/ exists m, nearest (fl (t * 30)) (60 * m).
Proof.
  unfold keyFrame. rewrite orb_true_iff, Qeq_bool_iff, Z.eqb_eq.
  change (2 * fps) with 60. change (inject_Z fps) with 30%Q.
  rewrite Z.rem_divide by lia.
  split; (intros [H|H]; [now left|right]).
  - destruct H as [m Hm]. exists m. apply Math_round_nearest. lia.
  - destruct H as [m Hm]. apply Math_round_nearest in Hm. exists m. lia.
Qed.

Lemma zero_bounds :
  (inject_Z 0 * ((1 # 30) - (1 # 2 ^ 34)) <= 0
   <= inject_Z 0 * ((1 # 30) + (1 # 2 ^ 34)))%Q.
Proof. split; discriminate. Qed.

(** C9, as stated, fails on the times: the loop adds the double nearest to
    1/30 in double arithmetic, and its frames do not stand at [k / 30].  In
    a video of 3 seconds frame 60 is a key frame, and its time is past
    [60 / 30]; in a video of 1 second the time of frame 30 is before
    [30 / 30], so that 31 frames are submitted.  And a video of duration 0
    has no frame at all, so no key frame at [t = 0]. *)
Lemma C9_frame_times_drift :
  (exists f, frameLoop 100 3 0 !! 60%nat = Some f
             /\ frameKey f = true
             /\ (frameTime f == 2 + (3 # 2 ^ 50))%Q
             /\ ~ (frameTime f == inject_Z 60 / 30)%Q)
  /\ (exists f, frameLoop 100 1 0 !! 30%nat = Some f
                /\ (frameTime f < inject_Z 30 / 30)%Q)
  /\ length (frameLoop 100 1 0) = 31%nat
  /\ (forall fuel, frameLoop fuel 0 0 = []).
Proof.
  split; [|split; [|split]].
  - eexists. split; [vm_compute; reflexivity|].
    split; [reflexivity|]. split; [reflexivity|]. intros H. vm_compute in H.
    discriminate H.
  - eexists. split; [vm_compute; reflexivity|]. reflexivity.
  - vm_compute. reflexivity.
  - intros [|fuel]; reflexivity.
Qed.

(** C9, amended: the frame loop of the frame-accurate export, started at
    time 0, flags every frame it submits as a forced key frame exactly when
    its time [t] is 0 or the integer nearest to the double [t * 30] is a
    multiple of 60.  The time of its [k]-th frame is the [k]-fold double sum
    of the double nearest to 1/30: for the first [2^22] frames (38 hours) it
    is within [2^-12] s of [k / 30], the integer nearest to [t * 30] is [k],
    and the frame is a key frame exactly when [k] is a multiple of 60 (every
    2 seconds); every such [k] with [k / 30 + 2^-12] before the duration is
    submitted; and for a positive duration the first frame is a key frame at
    [t = 0]. *)
Theorem C9_key_frames :
  (forall fuel duration (k : nat) f,
      frameLoop fuel duration 0 !! k = Some f ->
      (frameKey f = true <->
       (frameTime f == 0)%Q
       \/ exists m, nearest (fl (frameTime f * 30)) (60 * m)))
  /\ (forall fuel duration (k : nat) f,
        Z.of_nat k <= frameHorizon ->
        frameLoop fuel duration 0 !! k = Some f ->
        (Qabs (frameTime f - inject_Z (Z.of_nat k) / 30)
         <= 1 # 2 ^ 12)%Q
        /\ nearest (fl (frameTime f * 30)) (Z.of_nat k)
        /\ (frameKey f = true <-> (k mod 60 = 0)%nat))
  /\ (forall fuel duration (k : nat),
        Z.of_nat k <= frameHorizon -> (k < fuel)%nat ->
        (inject_Z (Z.of_nat k) / 30 + (1 # 2 ^ 12) < duration)%Q ->
        exists f, frameLoop fuel duration 0 !! k = Some f)
  /\ (forall fuel duration,
        (0 < duration)%Q ->
        head (frameLoop (S fuel) duration 0) = Some (mkFrame 0 true)).
Proof.
  split; [|split; [|split]].
  - intros fuel duration k f H.
    rewrite (frameLoop_key _ _ _ _ _ H). apply keyFrame_nearest.
  - intros fuel duration k f Hk H.
    pose proof (frameLoop_key _ _ _ _ _ H) as Hkey.
    destruct (frameLoop_times fuel duration 0 0 k f ltac:(lia) ltac:(lia)
                zero_bounds H) as [Ht _].
    rewrite Z.add_0_l in Ht.
    assert (Hq : (0 <= inject_Z (Z.of_nat k) <= inject_Z frameHorizon)%Q)
      by (split; [change 0%Q with (inject_Z 0)|]; rewrite <- Zle_Qle; lia).
    change (inject_Z frameHorizon) with (4194304 # 1)%Q in Hq.
    assert (Hdist : (Qabs (frameTime f - inject_Z (Z.of_nat k) / 30)
                     <= 1 # 2 ^ 12)%Q).
    { apply Qabs_Qle_condition.
          assert (E : forall q, (q / 30 == q * (1 # 30))%Q) by (intros; field).
      rewrite E. clear E.
      generalize dependent (inject_Z (Z.of_nat k)). intros q Ht Hq.
      change (1 # 2 ^ 34)%Q with (1 # 17179869184)%Q in *.
      change (1 # 2 ^ 12)%Q with (1 # 4096)%Q in *.
      change (- (1 # 4096))%Q with (-1 # 4096)%Q. split; lra. }
    split; [exact Hdist|].
    destruct k as [|k].
    + (* the first frame *)
      change (Z.of_nat 0) with 0 in *.
      assert (Ht0 : (frameTime f == 0)%Q).
      { change (inject_Z 0) with 0%Q in Ht. destruct Ht as [H1 H2].
        rewrite Qmult_0_l in H1, H2. apply Qle_antisym; assumption. }
      split.
      * unfold nearest. rewrite Ht0, Qmult_0_l, fl_0.
        split; [discriminate|reflexivity].
      * rewrite Hkey, keyFrame_nearest. split; [reflexivity|]. intros _. now left.
    + destruct (frame_round (frameTime f) (Z.of_nat (S k)) ltac:(lia) Ht)
        as [Hpos Hy].
      assert (Hn : nearest (fl (frameTime f * 30)) (Z.of_nat (S k)))
        by (unfold nearest; split; lra).
      split; [exact Hn|].
      rewrite Hkey. unfold keyFrame. change (inject_Z fps) with 30%Q.
      apply Math_round_nearest in Hn. rewrite Hn.
      assert (Hz : Qeq_bool (frameTime f) 0 = false).
      { destruct (Qeq_bool (frameTime f) 0) eqn:E; [|reflexivity].
        apply Qeq_bool_iff in E. lra. }
      rewrite Hz. cbn [orb]. rewrite Z.eqb_eq.
      change (2 * fps) with 60. rewrite Z.rem_mod_nonneg by lia.
      change 60 with (Z.of_nat 60). rewrite <- Nat2Z.inj_mod. lia.
  - intros fuel duration k Hk Hf Hd.
    apply (frameLoop_submits fuel duration 0 0 k); try lia.
    + exact zero_bounds.
    + now rewrite Z.add_0_l.
  - intros fuel duration Hd. cbn.
    apply Qltb_true in Hd. rewrite Hd. reflexivity.
Qed.

Lemma C9_key_frames_witness :
  (exists f, frameLoop 100 3 0 !! 60%nat = Some f)
  /\ head (frameLoop 1 1 0) = Some (mkFrame 0 true).
Proof.
  split.
  - apply (proj1 (proj2 (proj2 C9_key_frames))); [vm_compute; discriminate|lia|].
    reflexivity.
  - apply (proj2 (proj2 (proj2 C9_key_frames))). reflexivity.
Defined.

(** ** The exporting flag (C8) *)

Lemma exportStep_tracks webCodecs st e :
  isThrow e = false -> flagTracksJob st ->
  flagTracksJob (exportStep webCodecs st e).
Proof.
  intros He H. destruct st as [flag fast rt].
  unfold flagTracksJob, jobsInFlight in *. cbn [isExporting fastJobs realtimeJobs] in *.
  destruct H as [[-> H]|[-> H]], e; try discriminate He;
    destruct webCodecs, fast as [|fast], rt as [|rt]; cbn in *; try lia;
    auto with lia.
Qed.

Lemma exportRun_tracks webCodecs es st :
  flagTracksJob st ->
  flagTracksJob
    (fold_left (exportStep webCodecs) (List.filter (fun e => negb (isThrow e)) es) st).
Proof.
  revert st. induction es as [|e es IH]; intros st H; [exact H|].
  cbn [List.filter]. destruct (isThrow e) eqn:E; cbn [negb].
  - now apply IH.
  - cbn [fold_left]. now apply IH, exportStep_tracks.
Qed.

(** C8 on the code.  As long as the frame-accurate job does not throw, the
    flag is up exactly while one job runs and no second job starts.  But with
    WebCodecs present, when the frame-accurate job throws, the catch block
    starts the recording fallback and the finally block then clears the flag:
    a recording is in flight with the flag down, the button is enabled again
    and a second click starts a second job beside it. *)
Theorem C8_fallback_clears_flag :
  (forall webCodecs es,
      flagTracksJob
        (exportRun webCodecs (List.filter (fun e => negb (isThrow e)) es)))
  /\ exportRun true [ClickExport] = mkExport true 1 0
  /\ exportRun true [ClickExport; FastThrows] = mkExport false 0 1
  /\ exportRun true [ClickExport; FastThrows; ClickExport] = mkExport true 1 1
  /\ jobsInFlight (exportRun true [ClickExport; FastThrows; ClickExport]) = 2%nat.
Proof.
  split.
  - intros webCodecs es. apply exportRun_tracks. left. split; reflexivity.
  - repeat split.
Qed.

(** * Further properties of the sources *)

(** ** [parseSRT]: line ends and the shape of the segments *)

Lemma to_crlf_head s : starts_with LF (to_crlf s) = false.
Proof.
  destruct s as [|c s]; [reflexivity|]. cbn [to_crlf].
  destruct (Ascii.eqb c LF) eqn:E; [reflexivity|]. cbn [starts_with].
  now rewrite Ascii.eqb_sym.
Qed.

Lemma replace_crlf_cons2 c d s :
  replace_crlf (String c (String d s))
  = if (Ascii.eqb c CR && Ascii.eqb d LF)%bool
    then String LF (replace_crlf s)
    else String c (replace_crlf (String d s)).
Proof. reflexivity. Qed.

Lemma replace_crlf_to_crlf s : replace_crlf (to_crlf s) = s.
Proof.
  induction s as [|c s IH]; [reflexivity|]. cbn [to_crlf].
  destruct (Ascii.eqb_spec c LF) as [->|Hc].
  - rewrite replace_crlf_cons2. cbn [Ascii.eqb andb]. unfold CR, LF. cbn.
    fold LF. now rewrite IH.
  - pose proof (to_crlf_head s) as Hh.
    destruct (to_crlf s) as [|d t] eqn:Et.
    + destruct s as [|c' s]; [reflexivity|]. cbn [to_crlf] in Et.
      destruct (Ascii.eqb c' LF); discriminate Et.
    + rewrite replace_crlf_cons2. cbn [starts_with] in Hh.
      rewrite (Ascii.eqb_sym d LF), Hh, andb_false_r. now rewrite IH.
Qed.

(** A text with Windows line ends parses to the same segments as the text
    with Unix line ends, when the latter holds no carriage return before a
    line feed of its own. *)
Theorem parseSRT_line_ends srt :
  no_crlf srt = true -> parseSRT (to_crlf srt) = parseSRT srt.
Proof.
  intros H. rewrite !parseSRT_pure. unfold blocksOf.
  now rewrite replace_crlf_to_crlf, replace_crlf_id.
Qed.

Lemma parseSRT_line_ends_witness :
  parseSRT (to_crlf sampleSRT) = parseSRT sampleSRT.
Proof. apply parseSRT_line_ends. reflexivity. Defined.

Lemma split_from_has_char c sep k s :
  has_char c s = false ->
  Forall (fun p => has_char c p = false) (split_from sep k s).
Proof.
  revert k. induction s as [|d s IH]; intros k H.
  - cbn. repeat constructor.
  - cbn [has_char] in H. apply orb_false_iff in H as [Hd Hs].
    cbn [split_from]. destruct k as [|k]; [|now apply IH].
    destruct (String.prefix sep (String d s)).
    + constructor; [reflexivity|now apply IH].
    + specialize (IH 0%nat Hs).
      destruct (split_from sep 0 s) as [|h t]; cbn [cons_head].
      * repeat constructor. cbn. now rewrite Hd.
      * inversion IH; subst. constructor; [|assumption]. cbn. now rewrite Hd.
Qed.

Lemma segmentOf_shape block seg :
  segmentOf block = Some seg ->
  (trim (startTime seg) = startTime seg /\ has_char LF (startTime seg) = false)
  /\ (trim (endTime seg) = endTime seg /\ has_char LF (endTime seg) = false)
  /\ (trim (text seg) = text seg /\ has_char LF (text seg) = false).
Proof.
  unfold segmentOf.
  pose proof (split_char_pieces LF block) as Hl. fold NL in Hl.
  destruct (split NL block) as [|l0 [|l1 [|l2 more]]]; try discriminate.
  destruct (parseInt (Some l0)) as [n|]; [|discriminate].
  inversion Hl as [|? ? _ Hl1]; subst. inversion Hl1 as [|? ? Htl Hl2]; subst.
  pose proof (split_from_has_char LF ARROW 0 l1 Htl) as Hp. fold (split ARROW l1) in Hp.
  destruct (split ARROW l1) as [|s [|e rest]]; try discriminate.
  destruct (truthy s && truthy e); [|discriminate].
  intros [= <-]. cbn [startTime endTime text].
  inversion Hp as [|? ? Hs Hp1]; subst. inversion Hp1 as [|? ? He _]; subst.
  repeat split; try apply trim_idem; try now apply has_char_trim.
  apply has_char_trim. now apply (has_char_lines LF (l2 :: more)).
Qed.

(** Every segment [parseSRT] returns is in normal form: its start time, end
    time and text carry no leading or trailing white space (trimming them
    again changes nothing) and hold no line feed. *)
Theorem parseSRT_segments_trimmed srt segs seg :
  parseSRT srt = Ok segs -> In seg segs ->
  (trim (startTime seg) = startTime seg /\ has_char LF (startTime seg) = false)
  /\ (trim (endTime seg) = endTime seg /\ has_char LF (endTime seg) = false)
  /\ (trim (text seg) = text seg /\ has_char LF (text seg) = false).
Proof.
  rewrite parseSRT_pure. intros [= <-] Hin.
  apply list_elem_of_In, list_elem_of_omap in Hin as (block & _ & Hseg).
  now apply segmentOf_shape in Hseg.
Qed.

Lemma parseSRT_segments_trimmed_witness :
  (trim "00:00:01,000" = "00:00:01,000" /\ has_char LF "00:00:01,000" = false)
  /\ (trim "00:00:02,500" = "00:00:02,500" /\ has_char LF "00:00:02,500" = false)
  /\ (trim "hello  there" = "hello  there" /\ has_char LF "hello  there" = false).
Proof.
  apply (parseSRT_segments_trimmed sampleSRT
           [mkSegment 1 "00:00:01,000" "00:00:02,500" "hello  there";
            mkSegment 2 "00:00:03.000" "00:00:04.000" EmptyString]
           (mkSegment 1 "00:00:01,000" "00:00:02,500" "hello  there")).
  - reflexivity.
  - now left.
Defined.

(** ** [parseTime]: the value of a timestamp *)

Lemma app_nil_r' s : s +:+ EmptyString = s.
Proof. induction s as [|c s IH]; [reflexivity|]. now rewrite app_cons, IH. Qed.

Lemma read_digits_stop s rest acc :
  all_chars is_digit s = true -> starts_with_digit digit_val rest = false ->
  read_digits digit_val 10 acc (s +:+ rest) = read_digits digit_val 10 acc s.
Proof.
  revert acc. induction s as [|c s IH]; intros acc Hs Hr.
  - rewrite app_nil_l'. destruct rest as [|d rest]; [reflexivity|].
    cbn in *. now destruct (digit_val d).
  - cbn [all_chars] in Hs. apply andb_true_iff in Hs as [Hc Hs].
    rewrite app_cons. cbn [read_digits].
    destruct (is_digit_val c Hc) as [d ->]. now apply IH.
Qed.

Lemma count_digits_stop s rest :
  all_chars is_digit s = true -> starts_with_digit digit_val rest = false ->
  count_digits (s +:+ rest) = String.length s
  /\ skip_digits (s +:+ rest) = rest.
Proof.
  intros Hs Hr. induction s as [|c s IH].
  - rewrite app_nil_l'. destruct rest as [|d rest]; [now split|].
    cbn in *. unfold is_digit. now destruct (digit_val d).
  - cbn [all_chars] in Hs. apply andb_true_iff in Hs as [Hc Hs].
    rewrite app_cons. cbn [count_digits skip_digits String.length].
    rewrite Hc. destruct (IH Hs) as [-> ->]. now split.
Qed.

Lemma digits_head s :
  isDigits s = true ->
  trim_start s = s /\ strip_sign s = (false, s).
Proof.
  unfold isDigits. rewrite andb_true_iff. intros [Hne Hd].
  destruct s as [|c s]; [discriminate|].
  cbn [all_chars] in Hd. apply andb_true_iff in Hd as [Hc _].
  cbn [trim_start strip_sign]. rewrite (digit_not_white c Hc).
  now rewrite (digit_is_not c "-" Hc eq_refl), (digit_is_not c "+" Hc eq_refl).
Qed.

Lemma pow10_pos (n : nat) : (0 < inject_Z (10 ^ Z.of_nat n))%Q.
Proof.
  change 0%Q with (inject_Z 0). rewrite <- Zlt_Qlt.
  apply Z.pow_pos_nonneg; lia.
Qed.

(** [parseFloat] on digits, with or without a fraction. *)
Lemma parseFloat_decimal s f :
  isDigits s = true -> all_chars is_digit f = true ->
  exists q,
    parseFloat (Some (s +:+ String "." f)) = Some q
    /\ (q == inject_Z (digitsValue s)
             + inject_Z (digitsValue f)
               / inject_Z (10 ^ Z.of_nat (String.length f)))%Q.
Proof.
  intros Hs Hf. pose proof Hs as Hs'. unfold isDigits in Hs'.
  apply andb_true_iff in Hs' as [Hne Hd].
  assert (Hhead : trim_start (s +:+ String "." f) = s +:+ String "." f
                  /\ strip_sign (s +:+ String "." f)
                     = (false, s +:+ String "." f)).
  { destruct (digits_head s Hs) as [H1 H2].
    destruct s as [|c s]; [discriminate|]. rewrite app_cons.
    cbn [all_chars] in Hd. apply andb_true_iff in Hd as [Hc _].
    cbn [trim_start strip_sign]. rewrite (digit_not_white c Hc).
    now rewrite (digit_is_not c "-" Hc eq_refl), (digit_is_not c "+" Hc eq_refl). }
  destruct Hhead as [Ht Hsg].
  unfold parseFloat. rewrite Ht, Hsg.
  destruct (count_digits_stop s (String "." f) Hd eq_refl) as [Hc Hsk].
  rewrite Hc, Hsk, (read_digits_stop s (String "." f) 0 Hd eq_refl).
  pose proof (count_digits_stop f EmptyString Hf eq_refl) as [Hcf Hskf].
  rewrite app_nil_r' in Hcf, Hskf. rewrite Hcf, Hskf.
  assert (Hn : (String.length s + String.length f =? 0)%nat = false).
  { destruct s; [discriminate|]. reflexivity. }
  rewrite Hn. eexists. split; [reflexivity|].
  fold (digitsValue s). fold (digitsValue f).
  cbn [read_exponent]. change (Qpower (inject_Z 10) 0) with 1%Q.
  pose proof (pow10_pos (String.length f)) as Hp.
  rewrite inject_Z_plus, inject_Z_mult. field. lra.
Qed.

Lemma parseFloat_digits s :
  isDigits s = true ->
  exists q, parseFloat (Some s) = Some q /\ (q == inject_Z (digitsValue s))%Q.
Proof.
  intros Hs. pose proof Hs as Hs'. unfold isDigits in Hs'.
  apply andb_true_iff in Hs' as [Hne Hd].
  destruct (digits_head s Hs) as [Ht Hsg].
  unfold parseFloat. rewrite Ht, Hsg.
  pose proof (count_digits_stop s EmptyString Hd eq_refl) as [Hc Hsk].
  rewrite app_nil_r' in Hc, Hsk. rewrite Hc, Hsk.
  assert (Hn : (String.length s + 0 =? 0)%nat = false).
  { destruct s; [discriminate|]. reflexivity. }
  rewrite Hn. eexists. split; [reflexivity|].
  fold (digitsValue s). cbn [read_exponent Z.of_nat].
  change (Qpower (inject_Z 10) 0) with 1%Q. change (10 ^ 0) with 1.
  rewrite inject_Z_plus, inject_Z_mult. change (inject_Z 1) with 1%Q.
  change (inject_Z 0) with 0%Q. field. discriminate.
Qed.

Lemma digits_no_colon s : all_chars is_digit s = true -> has_char ":" s = false.
Proof. now apply (all_chars_has_char is_digit). Qed.

Lemma split_colon3 h m r :
  has_char ":" h = false -> has_char ":" m = false -> has_char ":" r = false ->
  split COLON (h +:+ COLON +:+ m +:+ COLON +:+ r) = [h; m; r].
Proof.
  intros Hh Hm Hr. unfold COLON.
  rewrite !split_app_sep by (discriminate || now apply no_early_first_char).
  now rewrite split_no_occ by now apply no_early_no_occ, no_early_first_char.
Qed.

(** A timestamp [h:m:s,f] (or [h:m:s.f]) of digit fields is read as
    [3600 h + 60 m + s + f / 10^|f|] seconds. *)
Theorem parseTime_value h m s f (sep : ascii) :
  isDigits h = true -> isDigits m = true -> isDigits s = true ->
  isDigits f = true -> (sep = "," \/ sep = ".")%char ->
  exists q,
    parseTime (h +:+ COLON +:+ m +:+ COLON +:+ s +:+ String sep f) = Some q
    /\ (q == inject_Z (digitsValue h) * 3600 + inject_Z (digitsValue m) * 60
             + inject_Z (digitsValue s)
             + inject_Z (digitsValue f)
               / inject_Z (10 ^ Z.of_nat (String.length f)))%Q.
Proof.
  intros Hh Hm Hs Hf Hsep.
  pose proof Hh as Hh'. pose proof Hm as Hm'. pose proof Hs as Hs'.
  pose proof Hf as Hf'. unfold isDigits in Hh', Hm', Hs', Hf'.
  apply andb_true_iff in Hh' as [_ Hdh], Hm' as [_ Hdm], Hs' as [_ Hds],
    Hf' as [_ Hdf].
  assert (Ha : forall tail,
             h +:+ COLON +:+ m +:+ COLON +:+ s +:+ tail
             = (h +:+ COLON +:+ m +:+ COLON +:+ s) +:+ tail)
    by (intros; now rewrite !app_assoc').
  assert (Hc : forall c, is_digit c = false -> has_char c COLON = false ->
               has_char c (h +:+ COLON +:+ m +:+ COLON +:+ s) = false).
  { intros c Hnd Hcc. rewrite !has_char_app, Hcc.
    now rewrite !(all_chars_has_char is_digit c _ Hnd) by assumption. }
  pose proof (Hc ","%char eq_refl eq_refl) as Hpre.
  assert (Hpost : has_char "," f = false)
    by now apply (all_chars_has_char is_digit).
  assert (E : parseTime (h +:+ COLON +:+ m +:+ COLON +:+ s +:+ String sep f)
              = parseTime (h +:+ COLON +:+ m +:+ COLON +:+ s +:+ String "." f)).
  { destruct Hsep as [->| ->]; [|reflexivity]. rewrite !Ha.
    apply (parseTime_separator _ f Hpre Hpost). }
  rewrite E. unfold parseTime.
  rewrite !Ha. rewrite truthy_app_cons. cbn [negb].
  rewrite replace_first_comma_id.
  2:{ rewrite has_char_app, Hpre. cbn [has_char orb]. exact Hpost. }
  rewrite <- Ha.
  rewrite split_colon3; try now apply digits_no_colon.
  2:{ rewrite has_char_app. cbn [has_char].
      now rewrite !digits_no_colon by assumption. }
  cbn [length Nat.ltb Nat.leb lookup list_lookup].
  destruct (parseFloat_digits h Hh) as (qh & -> & Eh).
  destruct (parseFloat_digits m Hm) as (qm & -> & Em).
  destruct (parseFloat_decimal s f Hs Hdf) as (qs & -> & Es).
  eexists. split; [reflexivity|]. rewrite Eh, Em, Es. ring.
Qed.

Lemma parseTime_value_witness :
  exists q,
    parseTime ("01" +:+ COLON +:+ "02" +:+ COLON +:+ "03" +:+ String "," "500")
    = Some q
    /\ (q == inject_Z (digitsValue "01") * 3600 + inject_Z (digitsValue "02") * 60
             + inject_Z (digitsValue "03")
             + inject_Z (digitsValue "500")
               / inject_Z (10 ^ Z.of_nat (String.length "500")))%Q.
Proof.
  apply (parseTime_value "01" "02" "03" "500" ","%char); try reflexivity.
  now left.
Defined.

Lemma count_char_replace s :
  count_char ":" (replace_first_comma s) = count_char ":" s.
Proof.
  induction s as [|c s IH]; [reflexivity|]. cbn [replace_first_comma].
  destruct (Ascii.eqb_spec c ",") as [->|Hc]; [reflexivity|].
  cbn [count_char]. now rewrite IH.
Qed.

Lemma split_char_length c s :
  length (split (String c EmptyString) s) = S (count_char c s).
Proof.
  unfold split. induction s as [|d s IH]; [reflexivity|].
  cbn [split_from count_char]. rewrite prefix_cons, prefix_nil_l.
  destruct (Ascii.eqb c d).
  - cbn [String.length Nat.sub length]. now rewrite IH.
  - destruct (split_from (String c EmptyString) 0 s) as [|p ps] eqn:E.
    + now apply split_from_nonempty in E.
    + cbn [cons_head length] in *. now rewrite IH.
Qed.

Lemma parseTime_few_colons s :
  (count_char ":" s < 2)%nat -> parseTime s = Some 0%Q.
Proof.
  intros H. unfold parseTime. destruct (truthy s); [|reflexivity]. cbn [negb].
  unfold COLON. rewrite split_char_length, count_char_replace.
  destruct (Nat.ltb_spec (S (count_char ":" s)) 3); [reflexivity|lia].
Qed.

(** A timestamp with fewer than two colons is read as 0: a minutes-and-
    seconds stamp without hours is not understood, nor is it rejected. *)
Theorem parseTime_short s :
  (count_char ":" s < 2)%nat -> parseTime s = Some 0%Q.
Proof.
  intros H. unfold parseTime. destruct (truthy s) eqn:E; [|reflexivity].
  cbn [negb]. unfold COLON.
  pose proof (split_char_length ":" (replace_first_comma s)) as Hl.
  rewrite count_char_replace in Hl. rewrite Hl.
  destruct (Nat.ltb_spec (S (count_char ":" s)) 3); [reflexivity|lia].
Qed.

Lemma parseTime_short_witness : parseTime "01:05,500" = Some 0%Q.
Proof. apply parseTime_short. cbn. lia. Defined.

(** ** Loops that cut an array into runs *)

Lemma slice_run {A} (l : list A) (k n : nat) :
  (k < length l)%nat ->
  slice l (Z.of_nat k) (Z.of_nat k + Z.of_nat n) = take n (drop k l).
Proof.
  intros Hk. unfold slice, relativeIndex.
  destruct (Z.ltb_spec (Z.of_nat k) 0); [lia|].
  destruct (Z.ltb_spec (Z.of_nat k + Z.of_nat n) 0); [lia|].
  rewrite (Z.min_l (Z.of_nat k)) by lia. rewrite Nat2Z.id.
  destruct (Z.min_spec (Z.of_nat k + Z.of_nat n) (Z.of_nat (length l)))
    as [[H1 ->]|[H1 ->]].
  - f_equal. lia.
  - rewrite !take_ge; [reflexivity| |]; rewrite length_drop; lia.
Qed.

Lemma chunksOf_concat {A} fuel n (l : list A) :
  (1 <= n)%nat -> (length l <= fuel)%nat -> concat (chunksOf fuel n l) = l.
Proof.
  intros Hn. revert l. induction fuel as [|fuel IH]; intros l Hl.
  - destruct l; [reflexivity|cbn in Hl; lia].
  - destruct l as [|a l]; [reflexivity|]. cbn [chunksOf concat].
    rewrite IH; [apply take_drop|]. rewrite length_drop. cbn [length] in *. lia.
Qed.

Lemma chunksOf_lengths {A} fuel n (l : list A) :
  (1 <= n)%nat ->
  Forall (fun c => 1 <= length c <= n)%nat (chunksOf fuel n l)
  /\ allButLast (fun c => length c = n) (chunksOf fuel n l).
Proof.
  intros Hn. revert l. induction fuel as [|fuel IH]; intros l.
  - split; [constructor|exact I].
  - destruct l as [|a l]; [split; [constructor|exact I]|].
    cbn [chunksOf]. destruct (IH (drop n (a :: l))) as [IH1 IH2]. split.
    + constructor; [|exact IH1]. rewrite length_take. cbn [length]. lia.
    + cbn [allButLast].
      destruct (chunksOf fuel n (drop n (a :: l))) as [|c cs] eqn:E; [exact I|].
      split; [|exact IH2]. rewrite length_take.
      destruct fuel as [|fuel]; [discriminate|]. cbn [chunksOf] in E.
      destruct (drop n (a :: l)) as [|b l'] eqn:Ed; [discriminate|].
      assert (length (drop n (a :: l)) <> 0)%nat by (rewrite Ed; discriminate).
      rewrite length_drop in *. lia.
Qed.

Lemma chunksOf_lookup {A} fuel n (l : list A) k c :
  chunksOf fuel n l !! k = Some c -> c = take n (drop (k * n) l).
Proof.
  revert l k. induction fuel as [|fuel IH]; intros l k H; [discriminate|].
  destruct l as [|a l]; [discriminate|]. cbn [chunksOf] in H.
  destruct k as [|k]; cbn in H.
  - injection H as <-. reflexivity.
  - apply IH in H. rewrite H, drop_drop. reflexivity || (do 2 f_equal; lia).
Qed.

(** *** [getVisualPreviewText] *)

Lemma previewLoop_chunks fuel vmw words k acc :
  (1 <= vmw)%nat -> (length (drop k words) <= fuel)%nat ->
  previewLoop (S fuel) (Z.of_nat vmw) words (Z.of_nat k) acc
  = Some (acc ++ map (join " ") (chunksOf fuel vmw (drop k words))).
Proof.
  intros Hn. revert k acc. induction fuel as [|fuel IH]; intros k acc Hl.
  - rewrite length_drop in Hl. cbn [previewLoop chunksOf map].
    destruct (Z.ltb_spec (Z.of_nat k) (Z.of_nat (length words))); [lia|].
    now rewrite app_nil_r.
  - rewrite length_drop in Hl.
    change (previewLoop (S (S fuel)) (Z.of_nat vmw) words (Z.of_nat k) acc)
      with (if Z.of_nat k <? Z.of_nat (length words)
            then previewLoop (S fuel) (Z.of_nat vmw) words
                   (Z.of_nat k + Z.of_nat vmw)
                   (acc ++ [join " " (slice words (Z.of_nat k)
                                        (Z.of_nat k + Z.of_nat vmw))])
            else Some acc).
    destruct (Z.ltb_spec (Z.of_nat k) (Z.of_nat (length words))) as [Hk|Hk].
    + rewrite slice_run by lia.
      rewrite <- Nat2Z.inj_add, IH by (rewrite length_drop; lia). f_equal. rewrite <- app_assoc. f_equal.
      destruct (drop k words) as [|w ws] eqn:E.
      { apply (f_equal length) in E. rewrite length_drop in E. cbn in E. lia. }
      cbn [chunksOf map app]. rewrite <- E, drop_drop. reflexivity.
    + rewrite drop_ge by lia. cbn. now rewrite app_nil_r.
Qed.

Lemma previewLoop_stuck fuel vmw words i acc :
  vmw <= 0 -> i <= 0 -> words <> [] ->
  previewLoop fuel vmw words i acc = None.
Proof.
  intros Hv Hi Hw. revert i acc Hi.
  induction fuel as [|fuel IH]; intros i acc Hi; [reflexivity|].
  cbn [previewLoop].
  destruct (Z.ltb_spec i (Z.of_nat (length words))) as [_|H].
  - apply IH. lia.
  - destruct words; [congruence|cbn [length] in H; lia].
Qed.

Lemma split_nonempty sep s : split sep s <> [].
Proof. apply split_from_nonempty. Qed.

(** For a word limit from 1 to 49 the preview text is the words of the text,
    in order, in runs of exactly [visualMaxWords] words (the last run may be
    shorter, none is empty): the words of a run are joined by a space and
    the runs by a line feed. *)
Theorem getVisualPreviewText_runs fuel visualMaxWords text :
  1 <= visualMaxWords < 50 ->
  (length (split " " text) < fuel)%nat ->
  exists runs : list (list string),
    getVisualPreviewText fuel visualMaxWords text
    = Some (join NL (map (join " ") runs))
    /\ concat runs = split " " text
    /\ Forall (fun r => 1 <= Z.of_nat (length r) <= visualMaxWords) runs
    /\ allButLast (fun r => Z.of_nat (length r) = visualMaxWords) runs.
Proof.
  intros Hv Hf. destruct fuel as [|fuel]; [lia|].
  exists (chunksOf fuel (Z.to_nat visualMaxWords) (split " " text)).
  assert (Hn : (1 <= Z.to_nat visualMaxWords)%nat) by lia.
  destruct (chunksOf_lengths fuel _ (split " " text) Hn) as [H1 H2].
  split; [|split; [|split]].
  - unfold getVisualPreviewText.
    destruct (Z.geb_spec visualMaxWords 50); [lia|].
    pose proof (previewLoop_chunks fuel (Z.to_nat visualMaxWords)
                  (split " " text) 0 [] Hn) as Hp.
    rewrite Z2Nat.id in Hp by lia. change (Z.of_nat 0) with 0 in Hp. rewrite drop_0 in Hp.
    rewrite Hp by lia. reflexivity.
  - apply chunksOf_concat; lia.
  - revert H1. apply List.Forall_impl. intros r Hr. lia.
  - revert H2. apply allButLast_impl, List.Forall_forall. intros r _ Hr. lia.
Qed.

Lemma getVisualPreviewText_runs_witness :
  exists runs : list (list string),
    getVisualPreviewText 6 2 "a b c d e"
    = Some (join NL (map (join " ") runs))
    /\ concat runs = split " " "a b c d e"
    /\ Forall (fun r => 1 <= Z.of_nat (length r) <= 2) runs
    /\ allButLast (fun r => Z.of_nat (length r) = 2) runs.
Proof. apply getVisualPreviewText_runs; [lia|cbn; lia]. Defined.

(** [getVisualPreviewText] comes to an end exactly when the word limit is at
    least 1: with a limit of 0 or less the loop variable never passes the
    first word, whatever the text. *)
Theorem getVisualPreviewText_ends visualMaxWords text :
  (exists fuel res, getVisualPreviewText fuel visualMaxWords text = Some res)
  <-> 1 <= visualMaxWords.
Proof.
  split.
  - intros (fuel & res & H). destruct (Z.le_gt_cases 1 visualMaxWords) as [|Hv];
      [assumption|exfalso].
    unfold getVisualPreviewText in H.
    destruct (Z.geb_spec visualMaxWords 50); [lia|].
    rewrite previewLoop_stuck in H; [discriminate|lia|lia|apply split_nonempty].
  - intros Hv. exists (S (length (split " " text))).
    unfold getVisualPreviewText.
    destruct (Z.geb_spec visualMaxWords 50); [now eexists|].
    pose proof (previewLoop_chunks (length (split " " text))
                  (Z.to_nat visualMaxWords) (split " " text) 0 []) as Hp.
    rewrite Z2Nat.id in Hp by lia. change (Z.of_nat 0) with 0 in Hp.
    rewrite drop_0 in Hp. rewrite Hp by lia. now eexists.
Qed.

(** *** The audio chunks of [handleFastExport] *)

Lemma slice_min {A} (l : list A) (k n : nat) :
  (k < length l)%nat ->
  slice l (Z.of_nat k)
        (Z.of_nat k + Z.min (Z.of_nat n) (Z.of_nat (length l) - Z.of_nat k))
  = take n (drop k l)
  /\ Z.min (Z.of_nat n) (Z.of_nat (length l) - Z.of_nat k)
     = Z.of_nat (length (take n (drop k l))).
Proof.
  intros Hk. rewrite length_take, length_drop. split; [|lia].
  replace (Z.min (Z.of_nat n) (Z.of_nat (length l) - Z.of_nat k))
    with (Z.of_nat (n `min` (length l - k))) by lia.
  rewrite slice_run by lia.
  destruct (Nat.min_spec n (length l - k)) as [[H ->]|[H ->]]; [reflexivity|].
  rewrite !take_ge; [reflexivity| |]; rewrite length_drop; lia.
Qed.

Lemma audioLoop_chunks {A} fuel (pcmData : list A) sampleRate n k acc :
  CHUNK_SIZE sampleRate = Z.of_nat n -> (1 <= n)%nat ->
  (length (drop (k * n) pcmData) <= fuel)%nat ->
  audioLoop (S fuel) pcmData sampleRate (Z.of_nat (k * n)) acc
  = Some (acc ++ imap (fun j c =>
                         mkAudioData (Z.of_nat (length c))
                           (inject_Z (Z.of_nat ((k + j) * n)) / sampleRate
                            * 1000000)%Q c)
                      (chunksOf fuel n (drop (k * n) pcmData))).
Proof.
  intros HC Hn. revert k acc. induction fuel as [|fuel IH]; intros k acc Hl.
  - rewrite length_drop in Hl. cbn [audioLoop chunksOf imap].
    destruct (Z.ltb_spec (Z.of_nat (k * n)) (Z.of_nat (length pcmData))); [lia|].
    now rewrite app_nil_r.
  - rewrite length_drop in Hl.
    change (audioLoop (S (S fuel)) pcmData sampleRate (Z.of_nat (k * n)) acc)
      with (let totalFrames := Z.of_nat (length pcmData) in
            if Z.of_nat (k * n) <? totalFrames then
              let len := Z.min (CHUNK_SIZE sampleRate)
                               (totalFrames - Z.of_nat (k * n)) in
              audioLoop (S fuel) pcmData sampleRate
                (Z.of_nat (k * n) + CHUNK_SIZE sampleRate)
                (acc ++ [mkAudioData len
                           (inject_Z (Z.of_nat (k * n)) / sampleRate * 1000000)%Q
                           (slice pcmData (Z.of_nat (k * n))
                                  (Z.of_nat (k * n) + len))])
            else Some acc).
    cbv zeta.
    destruct (Z.ltb_spec (Z.of_nat (k * n)) (Z.of_nat (length pcmData)))
      as [Hk|Hk].
    + rewrite HC. destruct (slice_min pcmData (k * n) n) as [-> ->]; [lia|].
      rewrite <- Nat2Z.inj_add.
      replace (k * n + n)%nat with (S k * n)%nat by lia.
      rewrite IH by (rewrite length_drop; lia).
      f_equal. rewrite <- app_assoc. f_equal.
      destruct (drop (k * n) pcmData) as [|w ws] eqn:E.
      { apply (f_equal length) in E. rewrite length_drop in E. cbn in E. lia. }
      cbn [chunksOf imap app]. rewrite <- E, drop_drop, Nat.add_0_r.
      f_equal. replace (k * n + n)%nat with (S k * n)%nat by lia.
      apply imap_ext. intros j c _. cbn.
      now replace (k + S j)%nat with (S (k + j)) by lia.
    + rewrite drop_ge by lia. cbn. now rewrite app_nil_r.
Qed.

Lemma CHUNK_SIZE_pos sampleRate :
  (1 <= sampleRate)%Q ->
  exists n, CHUNK_SIZE sampleRate = Z.of_nat n /\ (1 <= n)%nat.
Proof.
  intros Hr. exists (Z.to_nat (CHUNK_SIZE sampleRate)).
  assert (H : Qfloor 1 <= CHUNK_SIZE sampleRate).
  { apply Qfloor_resp_le. unfold CHUNK_DURATION_SEC. lra. }
  change (Qfloor 1) with 1 in H. lia.
Qed.

Lemma encodeAudio_chunks {A} fuel (pcmData : list A) sampleRate n :
  CHUNK_SIZE sampleRate = Z.of_nat n -> (1 <= n)%nat ->
  (length pcmData < fuel)%nat ->
  exists fuel',
    (length pcmData <= fuel')%nat
    /\ encodeAudio fuel pcmData sampleRate
       = Some (imap (fun j c =>
                       mkAudioData (Z.of_nat (length c))
                         (inject_Z (Z.of_nat (j * n)) / sampleRate * 1000000)%Q
                         c)
                    (chunksOf fuel' n pcmData)).
Proof.
  intros HC Hn Hf. destruct fuel as [|fuel]; [lia|]. exists fuel.
  split; [lia|]. unfold encodeAudio.
  pose proof (audioLoop_chunks fuel pcmData sampleRate n 0 [] HC Hn) as H.
  change (0 * n)%nat with 0%nat in H. change (Z.of_nat 0) with 0 in H.
  rewrite drop_0 in H. rewrite H by lia. reflexivity.
Qed.

Lemma stamped_chunks {A} (ts : nat -> Q) n (cs : list (list A)) :
  Forall (fun c => 1 <= length c <= n)%nat cs ->
  allButLast (fun c => length c = n) cs ->
  let chunks := imap (fun j c => mkAudioData (Z.of_nat (length c)) (ts j) c) cs in
  concat (map data chunks) = concat cs
  /\ Forall (fun c => numberOfFrames c = Z.of_nat (length (data c))
                      /\ 1 <= numberOfFrames c <= Z.of_nat n) chunks
  /\ allButLast (fun c => numberOfFrames c = Z.of_nat n) chunks.
Proof.
  revert ts. induction cs as [|c cs IH]; intros ts H1 H2 chunks.
  - split; [reflexivity|]. split; [constructor|exact I].
  - apply Forall_cons in H1 as [Hc H1].
    assert (H2' : allButLast (fun c => length c = n) cs)
      by (destruct cs; [exact I|apply H2]).
    destruct (IH (fun j => ts (S j)) H1 H2') as (I0 & I1 & I2).
    subst chunks. cbn [imap map concat data].
    change (imap ((fun j c0 => mkAudioData (Z.of_nat (length c0)) (ts j) c0)
                  ∘ S) cs)
      with (imap (fun j c0 => mkAudioData (Z.of_nat (length c0)) (ts (S j)) c0)
                 cs).
    split; [|split].
    + now rewrite I0.
    + constructor; [cbn; split; [reflexivity|lia]|]. exact I1.
    + destruct cs as [|c' cs]; [exact I|]. cbn [imap allButLast].
      split; [cbn; destruct H2 as [-> _]; reflexivity|]. exact I2.
Qed.

(** With a sample rate of 1 or more, the audio loop hands the encoder chunks
    that together are the PCM data, sample for sample and in order; each one
    announces as many frames as it holds, every chunk but the last holds
    [CHUNK_SIZE] frames and none is empty. *)
Theorem encodeAudio_partition {A} fuel (pcmData : list A) sampleRate :
  (1 <= sampleRate)%Q -> (length pcmData < fuel)%nat ->
  exists chunks,
    encodeAudio fuel pcmData sampleRate = Some chunks
    /\ concat (map data chunks) = pcmData
    /\ Forall (fun c => numberOfFrames c = Z.of_nat (length (data c))
                        /\ 1 <= numberOfFrames c <= CHUNK_SIZE sampleRate)
              chunks
    /\ allButLast (fun c => numberOfFrames c = CHUNK_SIZE sampleRate) chunks.
Proof.
  intros Hr Hf. destruct (CHUNK_SIZE_pos sampleRate Hr) as (n & HC & Hn).
  destruct (encodeAudio_chunks fuel pcmData sampleRate n HC Hn Hf)
    as (fuel' & Hf' & ->).
  eexists. split; [reflexivity|].
  destruct (chunksOf_lengths fuel' n pcmData Hn) as [H1 H2].
  destruct (stamped_chunks
              (fun j => (inject_Z (Z.of_nat (j * n)) / sampleRate * 1000000)%Q)
              n _ H1 H2) as (I0 & I1 & I2).
  rewrite HC. split; [|split]; [|exact I1|exact I2].
  rewrite I0. now apply chunksOf_concat.
Qed.

Lemma encodeAudio_partition_witness :
  exists chunks,
    encodeAudio 6 [1; 2; 3; 4; 5] 2 = Some chunks
    /\ concat (map data chunks) = [1; 2; 3; 4; 5]
    /\ Forall (fun c => numberOfFrames c = Z.of_nat (length (data c))
                        /\ 1 <= numberOfFrames c <= CHUNK_SIZE 2)
              chunks
    /\ allButLast (fun c => numberOfFrames c = CHUNK_SIZE 2) chunks.
Proof. apply encodeAudio_partition; [discriminate|cbn; lia]. Defined.

(** With a sample rate of 1 or more, the audio chunks tile the time line:
    the first starts at 0 and each of the others starts where the one before
    it ends, its frames counted at the sample rate, in microseconds. *)
Theorem encodeAudio_timeline {A} fuel (pcmData : list A) sampleRate :
  (1 <= sampleRate)%Q -> (length pcmData < fuel)%nat ->
  exists chunks,
    encodeAudio fuel pcmData sampleRate = Some chunks
    /\ (forall c, chunks !! 0%nat = Some c -> (timestamp c == 0)%Q)
    /\ (forall k c c',
          chunks !! k = Some c -> chunks !! S k = Some c' ->
          (timestamp c'
           == timestamp c
              + inject_Z (numberOfFrames c) / sampleRate * 1000000)%Q).
Proof.
  intros Hr Hf. destruct (CHUNK_SIZE_pos sampleRate Hr) as (n & HC & Hn).
  destruct (encodeAudio_chunks fuel pcmData sampleRate n HC Hn Hf)
    as (fuel' & Hf' & ->).
  eexists. split; [reflexivity|]. split.
  - intros c H. rewrite list_lookup_imap in H.
    destruct (chunksOf fuel' n pcmData !! 0%nat); [|discriminate].
    injection H as <-. cbn [timestamp Nat.mul]. change (inject_Z (Z.of_nat 0)) with 0%Q.
    field. lra.
  - intros k c c' H H'. rewrite list_lookup_imap in H, H'.
    destruct (chunksOf fuel' n pcmData !! k) as [d|] eqn:E; [|discriminate].
    destruct (chunksOf fuel' n pcmData !! S k) as [d'|] eqn:E'; [|discriminate].
    injection H as <-. injection H' as <-. cbn [timestamp numberOfFrames].
    assert (Hd : length d = n).
    { destruct (chunksOf_lengths fuel' n pcmData Hn) as [_ H2].
      revert E E' H2. generalize (chunksOf fuel' n pcmData) as cs.
      clear. induction k as [|k IH]; intros cs E E' H2.
      - destruct cs as [|a [|b cs]]; try discriminate.
        injection E as <-. apply H2.
      - destruct cs as [|a [|b cs]]; try discriminate.
        apply (IH (b :: cs)); [exact E|exact E'|apply H2]. }
    rewrite Hd. change (S k * n)%nat with (n + k * n)%nat.
    rewrite Nat2Z.inj_add, inject_Z_plus. field. lra.
Qed.

Lemma encodeAudio_timeline_witness :
  exists chunks,
    encodeAudio 6 [1; 2; 3; 4; 5] 2 = Some chunks
    /\ (forall c, chunks !! 0%nat = Some c -> (timestamp c == 0)%Q)
    /\ (forall k c c',
          chunks !! k = Some c -> chunks !! S k = Some c' ->
          (timestamp c'
           == timestamp c + inject_Z (numberOfFrames c) / 2 * 1000000)%Q).
Proof. apply encodeAudio_timeline; [discriminate|cbn; lia]. Defined.

(** ** The frame loop: termination and the progress it reports *)

Lemma renderLoop_acc fuel duration t frames reports :
  renderLoop fuel duration t frames reports
  = match renderLoop fuel duration t [] [] with
    | Some (fs, rs) => Some (frames ++ fs, reports ++ rs)
    | None => None
    end.
Proof.
  revert t frames reports. induction fuel as [|fuel IH]; intros t frames reports;
    [reflexivity|].
  cbn [renderLoop]. destruct (Qltb t duration).
  - rewrite IH. rewrite (IH _ ([] ++ _) ([] ++ _)).
    destruct (renderLoop fuel duration (fl (t + interval)) [] []) as [[fs rs]|];
      [|reflexivity].
    now rewrite !app_nil_l, <- !app_assoc.
  - now rewrite !app_nil_r.
Qed.

Lemma exportProgress_mono duration t1 t2 :
  (0 < duration)%Q -> (t1 <= t2)%Q ->
  exportProgress t1 duration <= exportProgress t2 duration.
Proof.
  intros Hd Ht. unfold exportProgress.
  apply Z.min_le_compat_l, Qfloor_resp_le, fl_le.
  apply Qmult_le_compat_r; [|discriminate]. apply fl_le.
  apply Qmult_le_compat_r; [exact Ht|]. apply Qlt_le_weak, Qinv_lt_0_compat, Hd.
Qed.

Lemma exportProgress_done duration t :
  (0 < duration)%Q -> (duration <= t)%Q -> exportProgress t duration = 99.
Proof.
  intros Hd Ht. unfold exportProgress. apply Z.min_l.
  assert (F1 : (fl 1 == 1)%Q) by (apply (fl_int 1); cbn; lia).
  assert (F100 : (fl 100 == 100)%Q) by (apply (fl_int 100); cbn; lia).
  assert (H1 : (1 <= fl (t / duration))%Q).
  { apply Qle_trans with (fl 1); [rewrite F1; apply Qle_refl|].
    apply fl_le, Qle_shift_div_l; [exact Hd|lra]. }
  assert (H2 : (100 <= fl (fl (t / duration) * 100))%Q).
  { apply Qle_trans with (fl 100); [rewrite F100; apply Qle_refl|].
    apply fl_le. lra. }
  apply Qfloor_resp_le in H2. change (Qfloor 100) with 100 in H2. lia.
Qed.

Lemma exportProgress_range duration t :
  (0 < duration)%Q -> (0 <= t)%Q -> 0 <= exportProgress t duration <= 99.
Proof.
  intros Hd Ht. unfold exportProgress. split; [|apply Z.le_min_l].
  apply Z.min_glb; [lia|]. change 0 with (Qfloor 0). apply Qfloor_resp_le.
  apply fl_nonneg.
  assert (0 <= fl (t / duration))%Q
    by (apply fl_nonneg, Qle_shift_div_l; [exact Hd|lra]).
  lra.
Qed.

(** The bounds on the time of turn [j] in numbers. *)
Lemma turn_bounds t (j : Z) :
  0 <= j <= frameHorizon ->
  (inject_Z j * ((1 # 30) - (1 # 2 ^ 34)) <= t
   <= inject_Z j * ((1 # 30) + (1 # 2 ^ 34)))%Q ->
  (inject_Z j / 30 - (1 # 4096) <= t <= inject_Z j / 30 + (1 # 4096))%Q.
Proof.
  intros Hj Ht.
  assert (Hq : (0 <= inject_Z j <= inject_Z frameHorizon)%Q)
    by (split; [change 0%Q with (inject_Z 0)|]; rewrite <- Zle_Qle; lia).
  change (inject_Z frameHorizon) with (4194304 # 1)%Q in Hq.
  assert (E : forall q, (q / 30 == q * (1 # 30))%Q) by (intros; field).
  rewrite E. clear E.
  generalize dependent (inject_Z j). intros q Ht Hq.
  change (1 # 2 ^ 34)%Q with (1 # 17179869184)%Q in *. split; lra.
Qed.

Lemma renderLoop_run fuel duration t (j : Z) :
  (0 < duration <= 131072)%Q ->
  0 <= j <= frameHorizon ->
  (inject_Z j * ((1 # 30) - (1 # 2 ^ 34)) <= t
   <= inject_Z j * ((1 # 30) + (1 # 2 ^ 34)))%Q ->
  (duration * 30 + 2 - inject_Z j <= inject_Z (Z.of_nat fuel))%Q ->
  exists reports,
    renderLoop (S fuel) duration t [] []
    = Some (frameLoop (S fuel) duration t, reports)
    /\ length reports = length (frameLoop (S fuel) duration t)
    /\ Forall (fun p => exportProgress (fl (t + interval)) duration <= p <= 99)
              reports
    /\ StronglySorted Z.le reports
    /\ ((t < duration)%Q -> last reports = Some 99).
Proof.
  intros [Hd Hmax]. revert t j. induction fuel as [|fuel IH]; intros t j Hj Ht Hf.
  - change (inject_Z (Z.of_nat 0)) with 0%Q in Hf.
    pose proof (turn_bounds t j Hj Ht) as Hb.
    assert (E : forall q, (q / 30 == q * (1 # 30))%Q) by (intros; field).
    rewrite E in Hb.
    exists []. cbn [renderLoop frameLoop].
    rewrite Qltb_ge by lra. repeat (split; [reflexivity || constructor|]).
    intros; lra.
  - rewrite inject_Z_succ in Hf.
    remember (S fuel) as n eqn:En.
    cbn [renderLoop frameLoop]. destruct (Qltb t duration) eqn:E.
    + apply Qltb_true in E.
      pose proof (turn_bounds t j Hj Ht) as Hb.
      assert (Ediv : forall q, (q / 30 == q * (1 # 30))%Q) by (intros; field).
      rewrite Ediv in Hb.
      assert (Hj1 : j + 1 < frameHorizon).
      { assert (Hq : (inject_Z j < inject_Z 3932200)%Q).
        { change (inject_Z 3932200) with (3932200 # 1)%Q. lra. }
        rewrite <- Zlt_Qlt in Hq. unfold frameHorizon. lia. }
      pose proof (frame_step t j ltac:(lia) Ht) as Ht'.
      pose proof (frame_step _ (j + 1) ltac:(lia) Ht') as Ht''.
      pose proof (turn_bounds _ (j + 1) ltac:(lia) Ht') as Hb'.
      pose proof (turn_bounds _ (j + 1 + 1) ltac:(lia) Ht'') as Hb''.
      rewrite Ediv in Hb', Hb''.
      rewrite inject_Z_plus in Hb'. rewrite 2 inject_Z_plus in Hb''.
      change (inject_Z 1) with 1%Q in Hb', Hb''.
      set (t' := fl (t + interval)) in *.
      assert (Hmono : (t' <= fl (t' + interval))%Q) by lra.
      assert (Hpos : (0 <= t')%Q).
      { assert (0 <= inject_Z j)%Q
          by (change 0%Q with (inject_Z 0); rewrite <- Zle_Qle; lia).
        lra. }
      destruct (IH t' (j + 1)) as (rs & H1 & H2 & H3 & H4 & H5);
        [lia|exact Ht'| |].
      { rewrite inject_Z_plus. change (inject_Z 1) with 1%Q. lra. }
      rewrite renderLoop_acc, H1.
      exists (exportProgress t' duration :: rs).
      split; [reflexivity|]. split; [cbn [length]; now rewrite H2|].
      assert (Hr : 0 <= exportProgress t' duration <= 99)
        by (apply exportProgress_range; assumption).
      split; [|split].
      * constructor; [lia|].
        revert H3. apply List.Forall_impl. intros p [Hp1 Hp2]. split; [|exact Hp2].
        etransitivity; [|exact Hp1].
        apply exportProgress_mono; assumption.
      * constructor; [exact H4|].
        revert H3. apply List.Forall_impl. intros p [Hp1 Hp2].
        etransitivity; [|exact Hp1].
        apply exportProgress_mono; assumption.
      * intros _. destruct (Qlt_le_dec t' duration) as [Hlt|Hge].
        -- specialize (H5 Hlt). destruct rs as [|r rs]; [discriminate|].
           exact H5.
        -- assert (rs = []) as ->.
           { subst n. cbn [frameLoop] in H2. rewrite Qltb_ge in H2 by exact Hge.
             now destruct rs. }
           cbn. f_equal. now apply exportProgress_done.
    + exists []. repeat (split; [reflexivity || constructor|]).
      apply Qltb_false in E. intros; lra.
Qed.

(** In double arithmetic, for a video of positive duration up to 131072
    seconds (36 hours), the frame loop comes to an end, within 30 turns a
    second and three more; it reports progress once for each frame it
    encodes, every report lies between 0 and 99, the reports never go down,
    and the last one is 99. *)
Theorem renderLoop_progress fuel duration :
  (0 < duration <= 131072)%Q ->
  (duration * 30 + 3 <= inject_Z (Z.of_nat fuel))%Q ->
  exists reports,
    renderLoop fuel duration 0 [] [] = Some (frameLoop fuel duration 0, reports)
    /\ length reports = length (frameLoop fuel duration 0)
    /\ Forall (fun p => 0 <= p <= 99) reports
    /\ StronglySorted Z.le reports
    /\ last reports = Some 99.
Proof.
  intros Hd Hf. destruct fuel as [|fuel].
  { change (inject_Z (Z.of_nat 0)) with 0%Q in Hf. lra. }
  rewrite inject_Z_succ in Hf.
  destruct (renderLoop_run fuel duration 0 0 Hd) as (rs & H1 & H2 & H3 & H4 & H5).
  { unfold frameHorizon. lia. }
  { exact zero_bounds. }
  { change (inject_Z 0) with 0%Q. lra. }
  exists rs. split; [exact H1|]. split; [exact H2|]. split; [|split].
  - revert H3. apply List.Forall_impl. intros p [Hp1 Hp2]. split; [|exact Hp2].
    assert (Hr : 0 <= exportProgress (fl (0 + interval)) duration <= 99).
    { apply exportProgress_range; [apply Hd|]. apply fl_nonneg.
      pose proof interval_near as Hi.
      change (1 # 2 ^ 58)%Q with (1 # 288230376151711744)%Q in Hi. lra. }
    lia.
  - exact H4.
  - apply H5, Hd.
Qed.

Lemma renderLoop_progress_witness :
  exists reports,
    renderLoop 7 (1 # 10) 0 [] [] = Some (frameLoop 7 (1 # 10) 0, reports)
    /\ length reports = length (frameLoop 7 (1 # 10) 0)
    /\ Forall (fun p => 0 <= p <= 99) reports
    /\ StronglySorted Z.le reports
    /\ last reports = Some 99.
Proof. apply renderLoop_progress; [split; [reflexivity|discriminate]|discriminate]. Defined.

(** ** The caption on screen *)

Lemma numericOf_setText newText c :
  numericOf (setText newText c)
  = mkNumeric (setText newText c) (start (numericOf c)) (end_ (numericOf c)).
Proof. reflexivity. Qed.

(** Editing the text of a caption changes neither which caption is active at
    a given time nor its times: the active caption after the edit is the one
    before it, with the new text if it is the edited one. *)
Theorem activeCaption_edit id_ newText captions cache currentTime :
  activeCaption currentTime
    (numericCaptions (fst (handleCaptionChange id_ newText captions cache)))
  = match activeCaption currentTime (numericCaptions captions) with
    | Some n =>
        Some (mkNumeric (if id (caption n) =? id_
                         then setText newText (caption n) else caption n)
                        (start n) (end_ n))
    | None => None
    end.
Proof.
  unfold handleCaptionChange, activeCaption, numericCaptions. cbn [fst].
  induction captions as [|c captions IH]; [reflexivity|].
  cbn [map List.find]. rewrite IH.
  destruct (id c =? id_) eqn:E; cbn [start end_ caption setText startTime endTime];
    destruct (geNum currentTime (parseTime (startTime c))
              && leNum currentTime (parseTime (endTime c)));
    try reflexivity; unfold setText;
    cbn [caption start end_ id startTime endTime text]; rewrite ?E; reflexivity.
Qed.

(** When no caption has timestamps with two colons, as with stamps of
    minutes and seconds without hours, every caption is given the times 0
    and 0: at time 0 the first caption of the list is active, at any other
    time none is. *)
Theorem activeCaption_short_stamps captions currentTime :
  Forall (fun c => (count_char ":" (startTime c) < 2)%nat
                   /\ (count_char ":" (endTime c) < 2)%nat) captions ->
  activeCaption currentTime (numericCaptions captions)
  = if Qeq_bool currentTime 0 then head (numericCaptions captions) else None.
Proof.
  unfold activeCaption, numericCaptions.
  induction 1 as [|c captions [Hs He] _ IH].
  - now destruct (Qeq_bool currentTime 0).
  - cbn [map List.find head start end_].
    rewrite (parseTime_few_colons _ Hs), (parseTime_few_colons _ He).
    cbn [geNum leNum]. destruct (Qeq_bool currentTime 0) eqn:E.
    + apply Qeq_bool_iff in E.
      assert (H1 : Qle_bool 0 currentTime = true) by (apply Qle_bool_iff; lra).
      assert (H2 : Qle_bool currentTime 0 = true) by (apply Qle_bool_iff; lra).
      now rewrite H1, H2.
    + rewrite IH. destruct (Qle_bool 0 currentTime) eqn:H1; [|reflexivity].
      destruct (Qle_bool currentTime 0) eqn:H2; [|reflexivity].
      apply Qle_bool_iff in H1, H2.
      assert (H : Qeq_bool currentTime 0 = true) by (apply Qeq_bool_iff; lra).
      congruence.
Qed.

Lemma activeCaption_short_stamps_witness :
  activeCaption 3 (numericCaptions [mkSegment 1 "00:02,000" "00:04,000" "hi"])
  = if Qeq_bool 3 0
    then head (numericCaptions [mkSegment 1 "00:02,000" "00:04,000" "hi"])
    else None.
Proof.
  apply activeCaption_short_stamps. constructor; [|constructor].
  cbn. lia.
Defined.

(** ** The layout cache between calls *)

(** Once [getWrappedLines] has answered for a caption, it gives the same
    lines for that caption on every later call, whatever the text, the
    width, the font measure and the word limit of that call, and leaves the
    cache as it is; the first call touches no entry of another caption. *)
Theorem getWrappedLines_memo measure vmw (cache : textLayoutCache) text maxWidth
    captionId measure' vmw' text' maxWidth' :
  let r := getWrappedLines measure vmw cache text maxWidth captionId in
  getWrappedLines measure' vmw' (snd r) text' maxWidth' captionId = r
  /\ forall k, k <> captionId -> snd r !! k = cache !! k.
Proof.
  cbv zeta. unfold getWrappedLines at 2 3 4.
  destruct (cache !! captionId) as [res|] eqn:E.
  - cbn [snd]. split; [now apply getWrappedLines_hit|reflexivity].
  - destruct (length (split " " text) =? 0)%nat eqn:El.
    { apply Nat.eqb_eq in El. pose proof (split_nonempty " " text) as H.
      destruct (split " " text); [congruence|discriminate]. }
    repeat match goal with
           | |- context [if ?b then _ else _] => destruct b
           end;
      cbn [snd]; (split; [apply getWrappedLines_hit, lookup_insert_eq
                         |intros k Hk; now apply lookup_insert_ne]).
Qed.

(** ** Edits of the caption text *)

(** Edits of two different captions can be made in either order, and of two
    edits of the same caption the later one stands: the caption list is the
    same, and so is the cache. *)
Theorem handleCaptionChange_compose captions (cache : textLayoutCache) :
  (forall i a j b, i <> j ->
     (let r := handleCaptionChange j b captions cache in
      handleCaptionChange i a (fst r) (snd r))
     = (let r := handleCaptionChange i a captions cache in
        handleCaptionChange j b (fst r) (snd r)))
  /\ (forall i a b,
        (let r := handleCaptionChange i a captions cache in
         handleCaptionChange i b (fst r) (snd r))
        = handleCaptionChange i b captions cache).
Proof.
  unfold handleCaptionChange. cbn [fst snd]. split.
  - intros i a j b Hij. f_equal; [|apply delete_delete].
    rewrite !map_map. apply map_ext. intros c.
    destruct (Z.eqb_spec (id c) j) as [Hj|Hj], (Z.eqb_spec (id c) i) as [Hi|Hi];
      cbn [id setText]; try congruence;
      rewrite ?(proj2 (Z.eqb_eq _ _) Hi), ?(proj2 (Z.eqb_eq _ _) Hj),
              ?(proj2 (Z.eqb_neq _ _) Hi), ?(proj2 (Z.eqb_neq _ _) Hj);
      reflexivity.
  - intros i a b. f_equal; [|apply delete_delete_eq].
    rewrite map_map. apply map_ext. intros c.
    destruct (Z.eqb_spec (id c) i) as [Hi|Hi]; cbn [id setText].
    + now rewrite (proj2 (Z.eqb_eq _ _) Hi).
    + now rewrite (proj2 (Z.eqb_neq _ _) Hi).
Qed.

Lemma handleCaptionChange_compose_witness :
  (let r := handleCaptionChange 2 "b" sampleCaptions sampleCache in
   handleCaptionChange 1 "a" (fst r) (snd r))
  = (let r := handleCaptionChange 1 "a" sampleCaptions sampleCache in
     handleCaptionChange 2 "b" (fst r) (snd r)).
Proof.
  apply (proj1 (handleCaptionChange_compose sampleCaptions sampleCache)). lia.
Defined.

(** ** The controls of the caption style *)

Lemma parseInt_rangeValue lo hi value :
  rangeValue lo hi value = true ->
  parseInt (Some value) = Some (digitsValue value)
  /\ lo <= digitsValue value <= hi.
Proof.
  unfold rangeValue, isDigits. rewrite !andb_true_iff.
  intros [[[Hne Hd] Hlo] Hhi]. split; [now apply parseInt_digits|lia].
Qed.

Lemma placementStep_inv st e :
  sliderInBounds e = true ->
  (exists y, captionY st = Some y /\ 5 <= y <= 95
             /\ (captionPosition st = top -> y = 10)
             /\ (captionPosition st = bottom -> y = 90)) ->
  exists y, captionY (placementStep st e) = Some y /\ 5 <= y <= 95
            /\ (captionPosition (placementStep st e) = top -> y = 10)
            /\ (captionPosition (placementStep st e) = bottom -> y = 90).
Proof.
  intros He (y & Hy & Hr & Ht & Hb). destruct e as [pos|value]; cbn in *.
  - destruct pos; cbn.
    + exists 10. repeat split; (lia || discriminate || reflexivity).
    + exists 90. repeat split; (lia || discriminate || reflexivity).
    + exists y. repeat split; (lia || discriminate || assumption).
  - unfold onPositionSlider. destruct (captionPosition st) eqn:E;
      try (exists y; rewrite E; repeat split; (lia || assumption)).
    destruct (parseInt_rangeValue 5 95 value He) as [-> Hv]. cbn.
    exists (digitsValue value). repeat split; (lia || discriminate).
Qed.

(** Whatever the user does with the position menu and the position slider,
    the vertical position of the caption is a number from 5 to 95 (per cent
    of the frame height): it is 10 while the position is [top] and 90 while
    it is [bottom]. *)
Theorem placementRun_bounds es :
  forallb sliderInBounds es = true ->
  exists y,
    captionY (placementRun es) = Some y /\ 5 <= y <= 95
    /\ (captionPosition (placementRun es) = top -> y = 10)
    /\ (captionPosition (placementRun es) = bottom -> y = 90).
Proof.
  unfold placementRun. intros Hes.
  assert (H0 : exists y, captionY initialPlacement = Some y /\ 5 <= y <= 95
                 /\ (captionPosition initialPlacement = top -> y = 10)
                 /\ (captionPosition initialPlacement = bottom -> y = 90)).
  { exists 90. repeat split; (lia || discriminate || reflexivity). }
  revert H0. generalize initialPlacement as st.
  induction es as [|e es IH]; intros st Hst; [exact Hst|].
  cbn [forallb] in Hes. apply andb_true_iff in Hes as [He Hes].
  cbn [fold_left]. apply IH; [exact Hes|]. now apply placementStep_inv.
Qed.

Lemma placementRun_bounds_witness :
  exists y,
    captionY (placementRun [SelectPosition custom; SlidePosition "42";
                            SelectPosition top; SlidePosition "7"]) = Some y
    /\ 5 <= y <= 95
    /\ (captionPosition (placementRun [SelectPosition custom; SlidePosition "42";
                                       SelectPosition top; SlidePosition "7"])
        = top -> y = 10)
    /\ (captionPosition (placementRun [SelectPosition custom; SlidePosition "42";
                                       SelectPosition top; SlidePosition "7"])
        = bottom -> y = 90).
Proof. apply placementRun_bounds. reflexivity. Defined.

Lemma getVisualPreviewText_total visualMaxWords text :
  1 <= visualMaxWords ->
  exists fuel res, getVisualPreviewText fuel visualMaxWords text = Some res.
Proof.
  intros Hv. exists (S (length (split " " text))).
  unfold getVisualPreviewText.
  destruct (Z.geb_spec visualMaxWords 50); [now eexists|].
  pose proof (previewLoop_chunks (length (split " " text))
                (Z.to_nat visualMaxWords) (split " " text) 0 []) as Hp.
  rewrite Z2Nat.id in Hp by lia. change (Z.of_nat 0) with 0 in Hp.
  rewrite drop_0 in Hp. rewrite Hp by lia. now eexists.
Qed.

(** Every position of the word-limit slider, from 1 to 15, sets a word limit
    that the slider shows back as the same position; the limit is the
    position itself up to 14 and 100 at 15, and with it the live preview of
    any text comes to an end. *)
Theorem maxWords_slider value :
  rangeValue 1 15 value = true ->
  exists visualMaxWords,
    onMaxWordsSlider value = Some visualMaxWords
    /\ maxWordsSliderValue visualMaxWords = digitsValue value
    /\ visualMaxWords
       = (if digitsValue value =? 15 then 100 else digitsValue value)
    /\ forall text, exists fuel res,
         getVisualPreviewText fuel visualMaxWords text = Some res.
Proof.
  intros Hv. destruct (parseInt_rangeValue 1 15 value Hv) as [Hp Hr].
  unfold onMaxWordsSlider. rewrite Hp. eexists. split; [reflexivity|].
  split; [|split; [reflexivity|]].
  - unfold maxWordsSliderValue.
    destruct (Z.eqb_spec (digitsValue value) 15) as [->|Hne]; [reflexivity|].
    destruct (Z.eqb_spec (digitsValue value) 100); [lia|reflexivity].
  - intros text. apply getVisualPreviewText_total.
    destruct (digitsValue value =? 15); lia.
Qed.

Lemma maxWords_slider_witness :
  exists visualMaxWords,
    onMaxWordsSlider "15" = Some visualMaxWords
    /\ maxWordsSliderValue visualMaxWords = digitsValue "15"
    /\ visualMaxWords = (if digitsValue "15" =? 15 then 100 else digitsValue "15")
    /\ forall text, exists fuel res,
         getVisualPreviewText fuel visualMaxWords text = Some res.
Proof. apply maxWords_slider. reflexivity. Defined.

(** ** The waveform *)

(** With a positive duration and a canvas of positive width, a click on the
    waveform seeks, unless an export is running or the video or the canvas
    is missing; the time it seeks to lies within the video, and for a click
    inside the canvas it is the duration times the fraction of the width
    left of the click. *)
Theorem handleWaveformClick_seek hasVideo duration isExporting hasCanvas
    clientX rectLeft rectWidth :
  (0 < duration)%Q -> (0 < rectWidth)%Q ->
  match handleWaveformClick hasVideo duration isExporting hasCanvas
                            clientX rectLeft rectWidth with
  | SeekTo t =>
      hasVideo = true /\ isExporting = false /\ hasCanvas = true
      /\ (0 <= t <= duration)%Q
      /\ ((rectLeft <= clientX <= rectLeft + rectWidth)%Q ->
          (t == (clientX - rectLeft) / rectWidth * duration)%Q)
  | NoSeek => hasVideo = false \/ isExporting = true \/ hasCanvas = false
  | SeekNaN => False
  end.
Proof.
  intros Hd Hw. unfold handleWaveformClick.
  assert (E0 : Qeq_bool duration 0 = false).
  { destruct (Qeq_bool duration 0) eqn:E; [|reflexivity].
    apply Qeq_bool_iff in E. lra. }
  assert (E1 : Qeq_bool rectWidth 0 = false).
  { destruct (Qeq_bool rectWidth 0) eqn:E; [|reflexivity].
    apply Qeq_bool_iff in E. lra. }
  rewrite E0, E1.
  destruct hasVideo; cbn [negb orb]; [|now left].
  destruct isExporting; [now right; left|].
  destruct hasCanvas; cbn [negb]; [|now right; right].
  split; [reflexivity|]. split; [reflexivity|]. split; [reflexivity|].
  fold (clamp01 ((clientX - rectLeft) / rectWidth)).
  pose proof (clamp01_range ((clientX - rectLeft) / rectWidth)) as [H1 H2].
  split; [split|].
  - apply Qmult_le_0_compat; lra.
  - apply Qle_trans with (1 * duration)%Q; [apply Qmult_le_compat_r; lra|lra].
  - intros [Hl Hr].
    assert (H0 : (0 <= (clientX - rectLeft) / rectWidth)%Q)
      by (apply Qle_shift_div_l; lra).
    assert (H3 : ((clientX - rectLeft) / rectWidth <= 1)%Q)
      by (apply Qle_shift_div_r; lra).
    unfold clamp01.
    rewrite (Q.min_r 1 _ H3), (Q.max_r 0 _ H0). reflexivity.
Qed.

Lemma handleWaveformClick_seek_witness :
  match handleWaveformClick true 10 false true 30 10 40 with
  | SeekTo t =>
      true = true /\ false = false /\ true = true
      /\ (0 <= t <= 10)%Q
      /\ ((10 <= 30 <= 10 + 40)%Q -> (t == (30 - 10) / 40 * 10)%Q)
  | NoSeek => true = false \/ false = true \/ true = false
  | SeekNaN => False
  end.
Proof. apply (handleWaveformClick_seek true 10 false true 30 10 40); reflexivity. Defined.

Lemma drawWaveform_lookup width height peaks duration currentTime i b :
  drawWaveform width height peaks duration currentTime !! i = Some b ->
  exists peak,
    peaks !! i = Some peak
    /\ barH b = Qmax (peak * height) 2
    /\ barY b = ((height - barH b) / 2)%Q
    /\ isPlayed b
       = Qltb (inject_Z (Z.of_nat i) / inject_Z (Z.of_nat (length peaks)))
              (if Qltb 0 duration then (currentTime / duration)%Q else 0%Q).
Proof.
  unfold drawWaveform. destruct (length peaks =? 0)%nat; [discriminate|].
  rewrite list_lookup_imap. destruct (peaks !! i) as [peak|]; [|discriminate].
  intros [= <-]. exists peak. cbn. repeat split.
Qed.

(** On a canvas at least 2 high, with peaks from 0 to 1, there is a bar for
    each peak; each bar is at least 2 high, lies within the height of the
    canvas, and is centred on the middle line. *)
Theorem drawWaveform_bars width height peaks duration currentTime :
  (2 <= height)%Q -> Forall (fun p => (0 <= p <= 1)%Q) peaks ->
  length (drawWaveform width height peaks duration currentTime) = length peaks
  /\ Forall (fun b => (2 <= barH b <= height)%Q
                      /\ (0 <= barY b)%Q /\ (barY b + barH b <= height)%Q
                      /\ (barY b + barH b / 2 == height / 2)%Q)
            (drawWaveform width height peaks duration currentTime).
Proof.
  intros Hh Hp. split.
  - unfold drawWaveform. destruct (length peaks =? 0)%nat eqn:E.
    + apply Nat.eqb_eq in E. now rewrite E.
    + apply length_imap.
  - apply List.Forall_forall. intros b Hb.
    apply list_elem_of_In, list_elem_of_lookup in Hb as [i Hi].
    apply drawWaveform_lookup in Hi as (peak & Hpk & HH & HY & _).
    rewrite HY, HH. rewrite List.Forall_forall in Hp.
    apply list_elem_of_lookup_2, list_elem_of_In in Hpk.
    specialize (Hp peak Hpk).
    assert (Hph : (peak * height <= height)%Q).
    { apply Qle_trans with (1 * height)%Q; [apply Qmult_le_compat_r; lra|lra]. }
    assert (Hhalf : forall q, (q / 2 == q * (1 # 2))%Q) by (intros; field).
    clear Hp. revert Hph. generalize (peak * height)%Q as ph. intros ph Hph.
    destruct (Q.max_spec ph 2) as [[H ->]|[H ->]];
      (split; [split|split; [|split]]); rewrite ?Hhalf; lra.
Qed.

Lemma drawWaveform_bars_witness :
  length (drawWaveform 300 40 [0; 1 # 2; 1]%Q 10 5) = length [0; 1 # 2; 1]%Q
  /\ Forall (fun b => (2 <= barH b <= 40)%Q
                      /\ (0 <= barY b)%Q /\ (barY b + barH b <= 40)%Q
                      /\ (barY b + barH b / 2 == 40 / 2)%Q)
            (drawWaveform 300 40 [0; 1 # 2; 1]%Q 10 5).
Proof.
  apply drawWaveform_bars; [discriminate|].
  repeat constructor; discriminate.
Defined.

(** The played bars of the waveform are the first bars: a bar left of a
    played bar is played.  No bar is played at time 0 or while the duration
    is not positive, and every bar is played at the end of the video, once
    the current time has passed the duration. *)
Theorem drawWaveform_played width height peaks duration currentTime :
  let bars := drawWaveform width height peaks duration currentTime in
  (forall i j bi bj,
      (i <= j)%nat -> bars !! i = Some bi -> bars !! j = Some bj ->
      isPlayed bj = true -> isPlayed bi = true)
  /\ ((currentTime == 0)%Q \/ (duration <= 0)%Q ->
      Forall (fun b => isPlayed b = false) bars)
  /\ ((0 < duration)%Q -> (duration <= currentTime)%Q ->
      Forall (fun b => isPlayed b = true) bars).
Proof.
  cbv zeta.
  assert (Hfrac : forall i j : nat, (i <= j)%nat ->
            (inject_Z (Z.of_nat i) / inject_Z (Z.of_nat (length peaks))
             <= inject_Z (Z.of_nat j) / inject_Z (Z.of_nat (length peaks)))%Q).
  { intros i j Hij. apply Qmult_le_compat_r; [rewrite <- Zle_Qle; lia|].
    apply Qinv_le_0_compat. change 0%Q with (inject_Z 0).
    rewrite <- Zle_Qle. lia. }
  split; [|split].
  - intros i j bi bj Hij Hi Hj.
    apply drawWaveform_lookup in Hi as (_ & _ & _ & _ & ->).
    apply drawWaveform_lookup in Hj as (_ & _ & _ & _ & ->).
    rewrite !Qltb_true. specialize (Hfrac i j Hij). lra.
  - intros H. apply List.Forall_forall. intros b Hb.
    apply list_elem_of_In, list_elem_of_lookup in Hb as [i Hi].
    apply drawWaveform_lookup in Hi as (_ & _ & _ & _ & ->).
    apply Qltb_false. specialize (Hfrac 0%nat i (Nat.le_0_l i)).
    change (inject_Z (Z.of_nat 0)) with 0%Q in Hfrac.
    assert (Hz : forall q, (0 / q == 0)%Q) by (intros; unfold Qdiv; ring).
    rewrite Hz in Hfrac.
    destruct (Qltb 0 duration) eqn:E; [|exact Hfrac].
    apply Qltb_true in E. destruct H as [H|H]; [|lra].
    rewrite H, Hz. exact Hfrac.
  - intros Hd Ht. apply List.Forall_forall. intros b Hb.
    apply list_elem_of_In, list_elem_of_lookup in Hb as [i Hi].
    pose proof Hi as Hlen. apply lookup_lt_Some in Hlen.
    assert (Hl : length (drawWaveform width height peaks duration currentTime)
                 = length peaks).
    { unfold drawWaveform. destruct (length peaks =? 0)%nat eqn:E.
      - apply Nat.eqb_eq in E. now rewrite E.
      - apply length_imap. }
    rewrite Hl in Hlen.
    apply drawWaveform_lookup in Hi as (_ & _ & _ & _ & ->).
    rewrite (proj2 (Qltb_true 0 duration) Hd). apply Qltb_true.
    assert (H1 : (1 <= currentTime / duration)%Q)
      by (apply Qle_shift_div_l; lra).
    assert (H2 : (inject_Z (Z.of_nat i) / inject_Z (Z.of_nat (length peaks)) < 1)%Q).
    { apply Qlt_shift_div_r.
      - change 0%Q with (inject_Z 0). rewrite <- Zlt_Qlt. lia.
      - rewrite Qmult_1_l, <- Zlt_Qlt. lia. }
    lra.
Qed.

(** ** The caption panel of a frame *)

Lemma maxLineWidth_acc (measure : string -> Q) (lines : list string) m0 :
  let m := fold_left (fun maxLineWidth line =>
                        if Qltb maxLineWidth (measure line) then measure line
                        else maxLineWidth) lines m0 in
  (m0 <= m)%Q /\ Forall (fun line => (measure line <= m)%Q) lines.
Proof.
  revert m0. induction lines as [|l lines IH]; intros m0; cbn [fold_left].
  - split; [lra|constructor].
  - destruct (IH (if Qltb m0 (measure l) then measure l else m0)) as [H1 H2].
    destruct (Qltb m0 (measure l)) eqn:E.
    + apply Qltb_true in E. split; [lra|]. now constructor.
    + apply Qltb_false in E. split; [lra|]. constructor; [lra|exact H2].
Qed.

Lemma drawLine_fold sb bo x lh lines :
  forall acc y w,
    let r := fst (fst (fold_left (drawLine sb bo x lh) lines (acc, y, w))) in
    length r = (length acc + length lines)%nat
    /\ (forall k d, acc !! k = Some d -> r !! k = Some d)
    /\ (forall k d, r !! (length acc + k)%nat = Some d ->
          lines !! k = Some (lineText d) /\ lineX d = x
          /\ (lineY d == y + inject_Z (Z.of_nat k) * lh)%Q
          /\ (if negb sb || (bo <? 50) then (strokeWidth d == w)%Q
              else (strokeWidth d * inject_Z (2 ^ Z.of_nat (S k)) == w)%Q)).
Proof.
  induction lines as [|l lines IH]; intros acc y w; cbv zeta.
  - cbn [fold_left fst length]. split; [lia|]. split; [auto|].
    intros k d H. apply lookup_lt_Some in H. lia.
  - cbn [fold_left].
    set (w' := if negb sb || (bo <? 50) then w else (w * 0.5)%Q).
    set (d0 := mkDrawn l x y w').
    change (drawLine sb bo x lh (acc, y, w) l)
      with (acc ++ [d0], (y + lh)%Q, w').
    specialize (IH (acc ++ [d0]) (y + lh)%Q w'). cbv zeta in IH.
    destruct IH as (I1 & I2 & I3).
    split; [|split].
    + rewrite I1, length_app. cbn [length]. lia.
    + intros k d H. apply I2. now apply lookup_app_l_Some.
    + intros k d H. destruct k as [|k].
      * rewrite Nat.add_0_r in H.
        assert (Hd : d = d0).
        { specialize (I2 (length acc) d0).
          rewrite lookup_app_r, Nat.sub_diag in I2 by lia.
          specialize (I2 eq_refl). congruence. }
        subst d d0. cbn [lineText lineX lineY strokeWidth].
        split; [reflexivity|]. split; [reflexivity|].
        split; [change (inject_Z (Z.of_nat 0)) with 0%Q; ring|].
        subst w'. destruct (negb sb || (bo <? 50)); [reflexivity|].
        change (inject_Z (2 ^ Z.of_nat 1)) with 2%Q. field.
      * replace (length acc + S k)%nat with (length (acc ++ [d0]) + k)%nat in H
          by (rewrite length_app; cbn [length]; lia).
        destruct (I3 k d H) as (J1 & J2 & J3 & J4).
        split; [exact J1|]. split; [exact J2|]. split.
        -- rewrite J3, inject_Z_succ. ring.
        -- subst w'. destruct (negb sb || (bo <? 50)); [exact J4|].
           replace (2 ^ Z.of_nat (S (S k))) with (2 * 2 ^ Z.of_nat (S k))
             by (rewrite (Nat2Z.inj_succ (S k)), Z.pow_succ_r by lia; reflexivity).
           rewrite inject_Z_mult. change (inject_Z 2) with 2%Q.
           setoid_replace (strokeWidth d * (2 * inject_Z (2 ^ Z.of_nat (S k))))%Q
             with (2 * (strokeWidth d * inject_Z (2 ^ Z.of_nat (S k))))%Q
             using relation Qeq by ring.
           rewrite J4. field.
Qed.

Lemma drawText_lookup sb bo lines width height fontSize captionY k d :
  drawText sb bo lines width height fontSize captionY !! k = Some d ->
  let size := inject_Z (calculatedFontSize height fontSize) in
  lines !! k = Some (lineText d) /\ lineX d = (width / 2)%Q
  /\ (lineY d == height * (captionY / 100)
                 - inject_Z (Z.of_nat (length lines)) * (size * 1.2) / 2
                 + size * 1.2 - size * 1.2 * 0.15
                 + inject_Z (Z.of_nat k) * (size * 1.2))%Q
  /\ (if negb sb || (bo <? 50)
      then (strokeWidth d == Qmax 2 (size * 0.08))%Q
      else (strokeWidth d * inject_Z (2 ^ Z.of_nat (S k))
            == Qmax 2 (size * 0.08))%Q).
Proof.
  unfold drawText. intros H.
  pose proof (drawLine_fold sb bo (width / 2)%Q
                (inject_Z (calculatedFontSize height fontSize) * 1.2)%Q lines []) as F.
  cbv zeta in F. edestruct F as (_ & _ & F3). exact (F3 k d H).
Qed.

(** When the panel is shown and its opacity is 50 or more, the stroke width
    is halved again at every line: line [k] of a caption, counted from 0, is
    stroked at the width set for the caption divided by [2^(k+1)].
    Otherwise every line is stroked at the width set for the caption, the
    larger of 2 and 0.08 of the font size. *)
Theorem drawText_strokes showBackground backgroundOpacity lines
    width height fontSize captionY k d :
  drawText showBackground backgroundOpacity lines width height fontSize captionY
    !! k = Some d ->
  let lineWidth :=
    Qmax 2 (inject_Z (calculatedFontSize height fontSize) * 0.08) in
  if showBackground && (50 <=? backgroundOpacity)
  then (strokeWidth d * inject_Z (2 ^ Z.of_nat (S k)) == lineWidth)%Q
  else (strokeWidth d == lineWidth)%Q.
Proof.
  intros H. apply drawText_lookup in H as (_ & _ & _ & H). cbv zeta in *.
  destruct showBackground; cbn [negb orb andb] in *; [|exact H].
  destruct (Z.ltb_spec backgroundOpacity 50), (Z.leb_spec 50 backgroundOpacity);
    (lia || exact H).
Qed.

Lemma drawText_strokes_witness :
  let d := default (mkDrawn "c" 0 0 0)
             (drawText true 70 ["a"; "b"; "c"] 1280 720 5 90 !! 2%nat) in
  let lineWidth := Qmax 2 (inject_Z (calculatedFontSize 720 5) * 0.08) in
  if true && (50 <=? 70)
  then (strokeWidth d * inject_Z (2 ^ Z.of_nat 3) == lineWidth)%Q
  else (strokeWidth d == lineWidth)%Q.
Proof.
  apply (drawText_strokes true 70 ["a"; "b"; "c"] 1280 720 5 90 2%nat).
  reflexivity.
Defined.

(** When the font size is not negative, every line of the caption is drawn
    inside the rectangle of the background panel, clear of its padding: the
    line, centred on its anchor, stays between the left and right padding,
    and the band of one font size above its base line stays between the top
    and bottom padding.  The lines drawn are the lines given, in order. *)
Theorem drawText_inside_box measure showBackground backgroundOpacity lines
    width height fontSize captionY :
  0 <= calculatedFontSize height fontSize ->
  let size := inject_Z (calculatedFontSize height fontSize) in
  let b := backgroundBox measure lines width height fontSize captionY in
  let drawn :=
    drawText showBackground backgroundOpacity lines width height fontSize
             captionY in
  map lineText drawn = lines
  /\ Forall (fun d =>
               (boxX b + size * 0.6 <= lineX d - measure (lineText d) / 2)%Q
               /\ (lineX d + measure (lineText d) / 2
                   <= boxX b + boxWidth b - size * 0.6)%Q
               /\ (boxY b + size * 0.3 <= lineY d - size)%Q
               /\ (lineY d <= boxY b + boxHeight b - size * 0.3)%Q)
            drawn.
Proof.
  intros Hs. cbv zeta.
  assert (Hsize : (0 <= inject_Z (calculatedFontSize height fontSize))%Q).
  { change 0%Q with (inject_Z 0). now rewrite <- Zle_Qle. }
  set (size := inject_Z (calculatedFontSize height fontSize)) in *.
  set (drawn := drawText showBackground backgroundOpacity lines width height
                         fontSize captionY).
  assert (Hlen : length drawn = length lines).
  { unfold drawn, drawText.
    pose proof (drawLine_fold showBackground backgroundOpacity (width / 2)%Q
                  (size * 1.2)%Q lines []) as F.
    cbv zeta in F. edestruct F as (F1 & _). exact F1. }
  split.
  - apply list_eq. intros k. rewrite list_lookup_fmap.
    destruct (drawn !! k) as [d|] eqn:E; cbn.
    + apply drawText_lookup in E as (E & _). now rewrite E.
    + apply lookup_ge_None in E. symmetry. apply lookup_ge_None. lia.
  - apply List.Forall_forall. intros d Hd.
    apply list_elem_of_In, list_elem_of_lookup in Hd as [k Hk].
    pose proof Hk as Hlt. apply lookup_lt_Some in Hlt. rewrite Hlen in Hlt.
    apply drawText_lookup in Hk as (Hl & Hx & Hy & _). cbv zeta in Hy.
    fold size in Hy.
    destruct (maxLineWidth_acc measure lines 0%Q) as [_ Hm]. cbv zeta in Hm.
    fold (maxLineWidth measure lines) in Hm.
    rewrite List.Forall_forall in Hm.
    apply list_elem_of_lookup_2, list_elem_of_In in Hl. specialize (Hm _ Hl).
    unfold backgroundBox. cbn [boxX boxY boxWidth boxHeight]. fold size.
    rewrite Hx, Hy.
    assert (Hk1 : (inject_Z (Z.of_nat k) + 1 <= inject_Z (Z.of_nat (length lines)))%Q).
    { rewrite <- inject_Z_succ, <- Zle_Qle. lia. }
    assert (Hk0 : (0 <= inject_Z (Z.of_nat k))%Q).
    { change 0%Q with (inject_Z 0). rewrite <- Zle_Qle. lia. }
    revert Hm Hk1 Hk0.
    generalize (measure (lineText d)) as w, (maxLineWidth measure lines) as mw,
      (inject_Z (Z.of_nat k)) as qk, (inject_Z (Z.of_nat (length lines))) as qn.
    intros w mw qk qn Hm Hk1 Hk0.
    assert (Hhalf : forall q, (q / 2 == q * (1 # 2))%Q) by (intros; field).
    rewrite !Hhalf.
    assert (Hqk : (0 <= qk * size)%Q) by (apply Qmult_le_0_compat; lra).
    assert (Hqn : ((qk + 1) * size <= qn * size)%Q)
      by (apply Qmult_le_compat_r; lra).
    repeat split; nra.
Qed.

Lemma drawText_inside_box_witness :
  let size := inject_Z (calculatedFontSize 720 5) in
  let b := backgroundBox (fun s => inject_Z (len_measure s)) ["ab"; "c"]
                         1280 720 5 90 in
  let drawn := drawText true 70 ["ab"; "c"] 1280 720 5 90 in
  map lineText drawn = ["ab"; "c"]
  /\ Forall (fun d =>
               (boxX b + size * 0.6
                <= lineX d - inject_Z (len_measure (lineText d)) / 2)%Q
               /\ (lineX d + inject_Z (len_measure (lineText d)) / 2
                   <= boxX b + boxWidth b - size * 0.6)%Q
               /\ (boxY b + size * 0.3 <= lineY d - size)%Q
               /\ (lineY d <= boxY b + boxHeight b - size * 0.3)%Q)
            drawn.
Proof.
  apply (drawText_inside_box (fun s => inject_Z (len_measure s)) true 70
           ["ab"; "c"] 1280 720 5 90).
  discriminate.
Defined.

(** ** The peaks of the waveform *)

Lemma blockLoop_run fuel channelData start blockSize stride :
  1 <= stride -> 0 <= start ->
  start + blockSize <= Z.of_nat (length channelData) ->
  forall j sum count,
    0 <= j -> blockSize - j <= Z.of_nat fuel -> (0 <= sum)%Q -> 0 <= count ->
    exists sum' count',
      blockLoop (S fuel) channelData start blockSize stride j (Some sum) count
      = Some (Some sum', count')
      /\ (0 <= sum')%Q /\ count <= count' /\ (j < blockSize -> count < count').
Proof.
  intros Hst Hs Hlen. induction fuel as [|fuel IH]; intros j sum count Hj Hf H0 Hc.
  - exists sum, count. cbn [blockLoop].
    destruct (Z.ltb_spec j blockSize); [lia|]. repeat split; (assumption || lia).
  - remember (S fuel) as n eqn:En. cbn [blockLoop].
    destruct (Z.ltb_spec j blockSize) as [Hlt|Hge].
    + assert (Hin : (Z.to_nat (start + j) < length channelData)%nat) by lia.
      apply lookup_lt_is_Some in Hin as [x Hx].
      unfold absAt. destruct (Z.ltb_spec (start + j) 0); [lia|].
      rewrite Hx. cbn [option_map addNum]. subst n.
      destruct (IH (j + stride) (sum + Qabs x)%Q (count + 1))
        as (s' & c' & -> & H1 & H2 & H3); try lia.
      { pose proof (Qabs_nonneg x). lra. }
      exists s', c'. repeat split; (assumption || lia).
    + exists sum, count. repeat split; (assumption || lia).
Qed.

Lemma stride_pos blockSize :
  1 <= blockSize -> 1 <= Qceiling (inject_Z blockSize / 100).
Proof.
  intros H. pose proof (Qle_ceiling (inject_Z blockSize / 100)) as Hc.
  assert (H0 : (0 < inject_Z blockSize / 100)%Q).
  { apply Qlt_shift_div_l; [reflexivity|].
    rewrite Qmult_0_l. change 0%Q with (inject_Z 0). rewrite <- Zlt_Qlt. lia. }
  assert (H1 : (inject_Z 0 < inject_Z (Qceiling (inject_Z blockSize / 100)))%Q)
    by (change (inject_Z 0) with 0%Q; lra).
  rewrite <- Zlt_Qlt in H1. lia.
Qed.

Lemma blockPeak_run fuel channelData blockSize i :
  1 <= blockSize -> 0 <= i ->
  (i + 1) * blockSize <= Z.of_nat (length channelData) ->
  blockSize < Z.of_nat fuel ->
  exists p, blockPeak fuel channelData blockSize i = Some (Some p) /\ (0 <= p)%Q.
Proof.
  intros Hb Hi Hlen Hf. unfold blockPeak.
  destruct fuel as [|fuel]; [cbn in Hf; lia|].
  destruct (blockLoop_run fuel channelData (i * blockSize) blockSize
              (Qceiling (inject_Z blockSize / 100)) (stride_pos _ Hb))
    with (j := 0) (sum := 0%Q) (count := 0)
    as (s & c & -> & H1 & H2 & H3); try lia; try lra.
  specialize (H3 ltac:(lia)). unfold average.
  destruct (Z.eqb_spec c 0); [lia|]. eexists. split; [reflexivity|].
  apply Qle_shift_div_l; [change 0%Q with (inject_Z 0); rewrite <- Zlt_Qlt; lia|].
  lra.
Qed.

Lemma mapM_numbers {A} (f : A -> option num) (l : list A) :
  Forall (fun x => exists p, f x = Some (Some p) /\ (0 <= p)%Q) l ->
  exists ps, mapM f l = Some (map Some ps)
             /\ length ps = length l /\ Forall (fun p => (0 <= p)%Q) ps.
Proof.
  induction 1 as [|x l (p & Hp & H0) _ (ps & IH & Hl & Hps)].
  - exists []. repeat split. constructor.
  - exists (p :: ps). cbn [mapM map]. rewrite Hp, IH. cbn.
    split; [reflexivity|]. split; [now rewrite Hl|now constructor].
Qed.

Lemma Math_max_numbers ps (floor : Q) :
  exists m, Math_max (map Some ps ++ [Some floor]) = Some m
            /\ (floor <= m)%Q /\ Forall (fun p => (p <= m)%Q) ps.
Proof.
  induction ps as [|p ps (m & IH & Hf & Hps)].
  - exists floor. cbn. split; [reflexivity|]. split; [lra|constructor].
  - exists (Qmax p m). cbn [map app].
    change (Math_max (Some p :: (map Some ps ++ [Some floor])))
      with (match map Some ps ++ [Some floor] with
            | [] => Some p
            | _ :: _ =>
                match Math_max (map Some ps ++ [Some floor]) with
                | Some b => Some (Qmax p b)
                | None => None
                end
            end).
    rewrite IH. destruct (map Some ps ++ [Some floor]) eqn:E.
    { destruct ps; discriminate. }
    split; [reflexivity|].
    pose proof (Q.le_max_l p m). pose proof (Q.le_max_r p m).
    split; [lra|]. constructor; [assumption|].
    revert Hps. apply List.Forall_impl. intros; lra.
Qed.

(** From a recording of 100 samples or more the waveform gets 100 peaks,
    each a number from 0 to 1; the loops come to an end within one turn
    more than the size of a block. *)
Theorem calculatePeaks_range fuel channelData :
  (100 <= length channelData)%nat ->
  Z.of_nat (length channelData) / 100 < Z.of_nat fuel ->
  exists peaks,
    calculatePeaks fuel channelData = Some (map Some peaks)
    /\ length peaks = 100%nat
    /\ Forall (fun p => (0 <= p <= 1)%Q) peaks.
Proof.
  intros Hlen Hf. unfold calculatePeaks, SAMPLES.
  set (blockSize := Z.of_nat (length channelData) / 100) in *.
  assert (Hb : 1 <= blockSize).
  { unfold blockSize. apply Z.div_le_lower_bound; lia. }
  assert (Hbl : 100 * blockSize <= Z.of_nat (length channelData)).
  { unfold blockSize. apply Z.mul_div_le. lia. }
  destruct (mapM_numbers
              (fun i => blockPeak fuel channelData blockSize (Z.of_nat i))
              (seq 0 (Z.to_nat 100))) as (ps & -> & Hl & Hps).
  { apply List.Forall_forall. intros i Hi. apply in_seq in Hi.
    apply blockPeak_run; try lia. change (Z.to_nat 100) with 100%nat in Hi. nia. }
  cbn [mbind option_bind].
  destruct (Math_max_numbers ps 0.01%Q) as (m & -> & Hm & Hle).
  exists (map (fun p => (p / m)%Q) ps). split; [|split].
  - f_equal. rewrite !map_map. reflexivity.
  - now rewrite length_map, Hl, length_seq.
  - apply List.Forall_forall. intros q Hq. apply in_map_iff in Hq as (p & <- & Hp).
    rewrite List.Forall_forall in Hps, Hle.
    specialize (Hps p Hp). specialize (Hle p Hp).
    assert (H0 : (0 < m)%Q) by lra. split.
    + apply Qle_shift_div_l; lra.
    + apply Qle_shift_div_r; lra.
Qed.

Lemma calculatePeaks_range_witness :
  exists peaks,
    calculatePeaks 3 (replicate 250 (1 # 2)%Q) = Some (map Some peaks)
    /\ length peaks = 100%nat
    /\ Forall (fun p => (0 <= p <= 1)%Q) peaks.
Proof. apply calculatePeaks_range; [cbn; lia|reflexivity]. Defined.

(** From a recording of fewer than 100 samples every block is empty: the
    waveform gets 100 peaks, and every one of them is NaN. *)
Theorem calculatePeaks_short fuel channelData :
  (length channelData < 100)%nat ->
  calculatePeaks (S fuel) channelData = Some (replicate 100 None).
Proof.
  intros Hlen. unfold calculatePeaks, SAMPLES.
  rewrite Z.div_small by lia. reflexivity.
Qed.

Lemma calculatePeaks_short_witness :
  calculatePeaks 1 [1 # 2; 1 # 3]%Q = Some (replicate 100 None).
Proof. apply calculatePeaks_short. cbn. lia. Defined.

(** ** The greedy loop breaks no line early *)

Lemma greedyBreaks_snoc measure vmw maxWidth l c next :
  greedyBreaks measure vmw maxWidth (l ++ [c]) ->
  (forall w, head next = Some w -> mustBreak measure vmw maxWidth c w) ->
  greedyBreaks measure vmw maxWidth ((l ++ [c]) ++ [next]).
Proof.
  intros H Hn. induction l as [|a l IH].
  - cbn. split; [exact Hn|exact I].
  - cbn [app greedyBreaks] in *.
    destruct (l ++ [c]) as [|b l'] eqn:E; [now destruct l|].
    cbn [app]. destruct H as [H1 H2]. split; [exact H1|]. now apply IH.
Qed.

Lemma greedyBreaks_last measure vmw maxWidth l c c' :
  greedyBreaks measure vmw maxWidth (l ++ [c]) ->
  head c' = head c ->
  greedyBreaks measure vmw maxWidth (l ++ [c']).
Proof.
  intros H Hh. induction l as [|a l IH]; [exact I|].
  cbn [app greedyBreaks] in *.
  destruct l as [|b l].
  - cbn [app] in *. destruct H as [H1 _]. split; [|exact I].
    intros w Hw. apply H1. congruence.
  - cbn [app] in *. destruct H as [H1 H2]. split; [exact H1|]. now apply IH.
Qed.

Lemma wrapStep_greedy measure vmw maxWidth processed st w :
  (exists chunks : list (list string),
      lines st = map (join " ") chunks
      /\ concat chunks ++ currentLine st = processed
      /\ (currentLine st = [] -> chunks = [])
      /\ (currentLine st <> [] ->
          currentWidth st = wordsWidth measure (currentLine st))
      /\ greedyBreaks measure vmw maxWidth (chunks ++ [currentLine st])) ->
  let st' := wrapStep (measure " ") maxWidth vmw st (w, measure w) in
  exists chunks : list (list string),
    lines st' = map (join " ") chunks
    /\ concat chunks ++ currentLine st' = processed ++ [w]
    /\ (currentLine st' = [] -> chunks = [])
    /\ (currentLine st' <> [] ->
        currentWidth st' = wordsWidth measure (currentLine st'))
    /\ greedyBreaks measure vmw maxWidth (chunks ++ [currentLine st']).
Proof.
  intros (chunks & Hl & Hc & Hnil & Hcw & Hg). cbv zeta. unfold wrapStep.
  destruct (currentLine st) as [|c cur] eqn:Ecur.
  - specialize (Hnil eq_refl). subst chunks.
    assert (Hst : exists chunks : list (list string),
               lines (mkWrap (lines st) [w] (measure w)) = map (join " ") chunks
               /\ concat chunks ++ currentLine (mkWrap (lines st) [w] (measure w))
                  = processed ++ [w]
               /\ (currentLine (mkWrap (lines st) [w] (measure w)) = []
                   -> chunks = [])
               /\ (currentLine (mkWrap (lines st) [w] (measure w)) <> [] ->
                   currentWidth (mkWrap (lines st) [w] (measure w))
                   = wordsWidth measure
                       (currentLine (mkWrap (lines st) [w] (measure w))))
               /\ greedyBreaks measure vmw maxWidth
                    (chunks ++ [currentLine (mkWrap (lines st) [w] (measure w))])).
    { exists []. cbn [lines currentLine currentWidth map concat app].
      split; [exact Hl|]. split; [now rewrite <- Hc|].
      split; [discriminate|]. split; [|exact I].
      intros _. symmetry. apply wordsWidth_one. }
    cbn [length Nat.ltb Nat.leb andb orb Nat.eqb app].
    destruct (Z.of_nat 0 >=? vmw); exact Hst.
  - specialize (Hcw ltac:(discriminate)).
    cbn [length Nat.ltb Nat.leb andb Nat.eqb].
    destruct ((currentWidth st + measure " " + measure w >? maxWidth)
              || (Z.of_nat (S (length cur)) >=? vmw)) eqn:Eo.
    + exists (chunks ++ [c :: cur]).
      cbn [lines currentLine currentWidth].
      split; [now rewrite map_app, Hl|].
      split; [rewrite concat_app; cbn [concat]; rewrite app_nil_r, <- Hc;
              now rewrite <- app_assoc|].
      split; [discriminate|]. split; [intros _; symmetry; apply wordsWidth_one|].
      apply greedyBreaks_snoc; [exact Hg|].
      intros w' [= <-]. apply orb_true_iff in Eo as [Eo|Eo].
      * left. rewrite Hcw in Eo. apply Z.gtb_lt in Eo. lia.
      * right. apply Z.geb_le in Eo. cbn [length]. lia.
    + exists chunks. cbn [lines currentLine currentWidth].
      split; [exact Hl|].
      split; [rewrite <- Hc; now rewrite <- app_assoc|].
      split; [intros H; now destruct cur|].
      split.
      * intros _. rewrite Hcw.
        change (c :: cur ++ [w]) with ((c :: cur) ++ [w]).
        now rewrite wordsWidth_snoc by discriminate.
      * eapply greedyBreaks_last; [exact Hg|reflexivity].
Qed.

(** The greedy loop breaks a line only when it must: its lines are the
    words, in order, and every line but the last is followed by a word that
    could not join it, because the line would then be wider than the
    maximum or because the line already has the most words allowed. *)
Theorem greedyWrap_breaks measure vmw maxWidth (words : list string) :
  exists chunks : list (list string),
    greedyWrap (measure " ") maxWidth vmw words (map measure words)
    = map (join " ") chunks
    /\ concat chunks = words
    /\ greedyBreaks measure vmw maxWidth chunks.
Proof.
  unfold greedyWrap. rewrite combine_map_self.
  assert (H : forall ws processed st,
    (exists chunks : list (list string),
        lines st = map (join " ") chunks
        /\ concat chunks ++ currentLine st = processed
        /\ (currentLine st = [] -> chunks = [])
        /\ (currentLine st <> [] ->
            currentWidth st = wordsWidth measure (currentLine st))
        /\ greedyBreaks measure vmw maxWidth (chunks ++ [currentLine st])) ->
    let st' := fold_left (wrapStep (measure " ") maxWidth vmw)
                         (map (fun a => (a, measure a)) ws) st in
    exists chunks : list (list string),
      lines st' = map (join " ") chunks
      /\ concat chunks ++ currentLine st' = processed ++ ws
      /\ (currentLine st' = [] -> chunks = [])
      /\ (currentLine st' <> [] ->
          currentWidth st' = wordsWidth measure (currentLine st'))
      /\ greedyBreaks measure vmw maxWidth (chunks ++ [currentLine st'])).
  { induction ws as [|w ws IH]; intros processed st Hst; cbv zeta.
    - now rewrite app_nil_r.
    - cbn [map fold_left].
      replace (processed ++ w :: ws) with ((processed ++ [w]) ++ ws)
        by now rewrite <- app_assoc.
      apply IH. now apply wrapStep_greedy. }
  specialize (H words [] (mkWrap [] [] 0)). cbv zeta in H.
  destruct H as (chunks & Hl & Hc & Hnil & Hcw & Hg).
  { exists []. cbn. repeat split; auto; congruence. }
  cbn [app] in Hc. set (st := fold_left _ _ _) in *.
  destruct (currentLine st) as [|c cur] eqn:Ecur; cbn [length Nat.ltb Nat.leb].
  - exists chunks. rewrite app_nil_r in Hc. split; [exact Hl|].
    split; [exact Hc|]. rewrite (Hnil eq_refl). exact I.
  - exists (chunks ++ [c :: cur]).
    rewrite map_app, concat_app, Hl. cbn [map concat]. rewrite app_nil_r.
    repeat split; auto.
Qed.

(** ** The text track of the player *)

Lemma has_char_replace_first_comma c s :
  Ascii.eqb c "." = false ->
  has_char c s = false -> has_char c (replace_first_comma s) = false.
Proof.
  intros Hc. induction s as [|d s IH]; [reflexivity|].
  cbn [has_char replace_first_comma]. rewrite orb_false_iff. intros [H1 H2].
  destruct (Ascii.eqb d ","); cbn [has_char]; [now rewrite Hc, H2|].
  now rewrite H1, IH.
Qed.

Lemma vttCue_lines c :
  has_char LF (startTime c) = false -> has_char LF (endTime c) = false ->
  has_char LF (text c) = false ->
  split NL (vttCue c)
  = [replace_first_comma (startTime c) +:+ ARROW
     +:+ replace_first_comma (endTime c); text c]
  /\ no_occ BLANK (vttCue c) = true
  /\ (truthy (text c) = true -> no_early BLANK (vttCue c) = true).
Proof.
  intros Hs He Ht.
  assert (Htl : has_char LF (replace_first_comma (startTime c) +:+ ARROW
                             +:+ replace_first_comma (endTime c)) = false).
  { rewrite !has_char_app, !has_char_replace_first_comma by (reflexivity || assumption).
    reflexivity. }
  set (timing := replace_first_comma (startTime c) +:+ ARROW
                 +:+ replace_first_comma (endTime c)) in *.
  assert (Hcue : vttCue c = timing +:+ NL +:+ text c)
    by (unfold vttCue, timing; now rewrite !app_assoc').
  rewrite Hcue.
  split; [|split].
  - unfold NL. rewrite split_app_sep by (discriminate || now apply no_early_first_char).
    now rewrite split_no_occ by now apply no_early_no_occ, no_early_first_char.
  - apply no_occ_blank_line; [exact Htl|now apply no_char_starts_with|].
    now apply no_early_no_occ, no_early_first_char.
  - intros Hne. apply no_early_blank_line; [exact Htl|exact Hne| |].
    + now apply no_char_starts_with.
    + now apply no_early_first_char.
Qed.

(** For the captions read from an SRT text, when every caption but the last
    has some text, the text track of the player is the header [WEBVTT], a
    blank line, and a body that blank lines cut into exactly one cue for
    each caption, in order; each cue is two lines, the times with the first
    comma of each turned into a dot, and the text. *)
Theorem vttContent_cues srt captions :
  parseSRT srt = Ok captions -> captions <> [] ->
  allButLast (fun c => truthy (text c) = true) captions ->
  exists vttBody,
    vttContent captions = Some ("WEBVTT" +:+ BLANK +:+ vttBody)
    /\ split BLANK vttBody = map vttCue captions
    /\ Forall (fun c =>
                 split NL (vttCue c)
                 = [replace_first_comma (startTime c) +:+ ARROW
                    +:+ replace_first_comma (endTime c); text c])
              captions.
Proof.
  rewrite parseSRT_pure. intros [= <-] Hne Htxt.
  set (captions := omap segmentOf (blocksOf srt)) in *.
  assert (Hshape : Forall (fun c => has_char LF (startTime c) = false
                                    /\ has_char LF (endTime c) = false
                                    /\ has_char LF (text c) = false) captions).
  { apply List.Forall_forall. intros c Hc.
    apply list_elem_of_In, list_elem_of_omap in Hc as (block & _ & Hseg).
    apply segmentOf_shape in Hseg. tauto. }
  exists (join BLANK (map vttCue captions)). split; [|split].
  - unfold vttContent. destruct captions; [congruence|reflexivity].
  - apply split_join_last.
    + discriminate.
    + now destruct captions.
    + apply allButLast_map. revert Htxt. apply allButLast_impl.
      revert Hshape. apply List.Forall_impl. intros c (Hs & He & Ht) Hn.
      now apply vttCue_lines.
    + apply Forall_map. revert Hshape. apply List.Forall_impl.
      intros c (Hs & He & Ht). now apply vttCue_lines.
  - revert Hshape. apply List.Forall_impl.
    intros c (Hs & He & Ht). now apply vttCue_lines.
Qed.

Lemma vttContent_cues_witness :
  exists vttBody,
    vttContent [mkSegment 1 "00:00:01,000" "00:00:02,500" "hello  there";
                mkSegment 2 "00:00:03.000" "00:00:04.000" EmptyString]
    = Some ("WEBVTT" +:+ BLANK +:+ vttBody)
    /\ split BLANK vttBody
       = map vttCue [mkSegment 1 "00:00:01,000" "00:00:02,500" "hello  there";
                     mkSegment 2 "00:00:03.000" "00:00:04.000" EmptyString]
    /\ Forall (fun c =>
                 split NL (vttCue c)
                 = [replace_first_comma (startTime c) +:+ ARROW
                    +:+ replace_first_comma (endTime c); text c])
              [mkSegment 1 "00:00:01,000" "00:00:02,500" "hello  there";
               mkSegment 2 "00:00:03.000" "00:00:04.000" EmptyString].
Proof.
  apply (vttContent_cues sampleSRT).
  - reflexivity.
  - discriminate.
  - cbn. auto.
Defined.

(** ** How far an animation moves the caption *)

Lemma bounceOffset_range progress :
  (0 <= progress <= 1)%Q -> (-20 <= bounceOffset progress <= 0)%Q.
Proof.
  intros [H0 H1]. unfold bounceOffset, Qdiv.
  change (/ 0.3)%Q with (10 # 3)%Q. change (/ 0.2)%Q with (10 # 2)%Q.
  change (/ 0.1)%Q with 10%Q.
  destruct (Qltb progress 0.3) eqn:E1; [apply Qltb_true in E1; lra|].
  apply Qltb_false in E1.
  destruct (Qltb progress 0.5) eqn:E2; [apply Qltb_true in E2; lra|].
  apply Qltb_false in E2.
  destruct (Qltb progress 0.7) eqn:E3; [apply Qltb_true in E3; lra|].
  apply Qltb_false in E3.
  destruct (Qltb progress 0.9) eqn:E4; [apply Qltb_true in E4; lra|].
  apply Qltb_false in E4. lra.
Qed.

Lemma scaled_range (lo hi k x : Q) :
  (lo <= x <= hi)%Q -> (0 <= k)%Q -> (lo * k <= x * k <= hi * k)%Q.
Proof. intros [H1 H2] Hk. split; apply Qmult_le_compat_r; assumption. Qed.

(** With a frame of sides that are not negative and a sine between -1 and
    1, an animation moves the caption within fixed bounds at every time:
    [pop] scales it by a factor from 0.5 to 1 about its anchor, which stays
    in place; [slide] lowers it by at most 0.05 of the height; [bounce]
    raises it by at most the height; [shake] shifts it sideways by at most
    a fortieth of the width; [glow] sets a blur from 5 to 20 thousandths of
    the height.  Only [pop] scales. *)
Theorem animate_displacement sin anim elapsed width height captionY :
  (0 <= width)%Q -> (0 <= height)%Q -> (forall a, (-1 <= sin a <= 1)%Q) ->
  let c := animate sin anim elapsed width height captionY defaultCtx in
  (anim = pop ->
   (0.5 <= scaleXY c <= 1)%Q
   /\ (scaleXY c * (width / 2) + translateX c == width / 2)%Q
   /\ (scaleXY c * (height * (captionY / 100)) + translateY c
       == height * (captionY / 100))%Q)
  /\ (anim <> pop -> (scaleXY c == 1)%Q)
  /\ (anim = slide ->
      (translateX c == 0)%Q /\ (0 <= translateY c <= height * 0.05)%Q)
  /\ (anim = bounce ->
      (translateX c == 0)%Q /\ (- height <= translateY c <= 0)%Q)
  /\ (anim = shake ->
      (translateY c == 0)%Q /\ (- (width / 40) <= translateX c <= width / 40)%Q)
  /\ (anim = glow ->
      (5 * (height / 1000) <= shadowBlur c <= 20 * (height / 1000))%Q).
Proof.
  intros Hw Hh Hsin. cbv zeta.
  split; [|split; [|split; [|split; [|split]]]].
  - intros ->. cbn.
    pose proof (clamp01_range (elapsed / popDuration)) as Hp.
    revert Hp. generalize (clamp01 (elapsed / popDuration)) as p. intros p Hp.
    split; [lra|]. split; ring.
  - intros Hne. destruct anim; try congruence; cbn; try reflexivity.
    + destruct (Qltb _ _); reflexivity.
    + destruct (Qltb _ _); reflexivity.
  - intros ->. cbn.
    pose proof (clamp01_range (elapsed / slideDuration)) as Hp.
    revert Hp. generalize (clamp01 (elapsed / slideDuration)) as p. intros p Hp.
    split; [ring|].
    pose proof (scaled_range 0 1 (height * 0.05) (1 - p)) as Hs.
    destruct Hs as [Hs1 Hs2]; [lra|lra|]. lra.
  - intros ->.
    pose proof (bounceOffset_range (clamp01 (elapsed / bounceDuration))
                  (clamp01_range _)) as Hb.
    unfold animate. revert Hb.
    generalize (bounceOffset (clamp01 (elapsed / bounceDuration))) as y.
    intros y Hy.
    assert (Hk : (0 <= height * (50 # 1000))%Q) by lra.
    destruct (scaled_range (-20) 0 (height * (50 # 1000)) y Hy Hk) as [Hs1 Hs2].
    assert (Ht : forall ctx1, scaleXY ctx1 = 1%Q -> translateX ctx1 = 0%Q ->
                   translateY ctx1 = 0%Q ->
                   (translateX (translate 0 (y * (height / 1000) * 50) ctx1) == 0)%Q
                   /\ (- height
                       <= translateY (translate 0 (y * (height / 1000) * 50) ctx1)
                       <= 0)%Q).
    { intros ctx1 E1 E2 E3. cbn. rewrite E1, E2, E3. split; [ring|].
      assert (Hy' : (y * (height / 1000) * 50 == y * (height * (50 # 1000)))%Q)
        by field.
      rewrite Hy'. lra. }
    destruct (Qltb _ _); apply Ht; reflexivity.
  - intros ->. cbn.
    pose proof (clamp01_range (elapsed / shakeDuration)) as Hp.
    specialize (Hsin (clamp01 (elapsed / shakeDuration) * 50)%Q).
    revert Hp Hsin.
    generalize (sin (clamp01 (elapsed / shakeDuration) * 50)%Q) as s.
    generalize (clamp01 (elapsed / shakeDuration)) as p.
    intros p s Hp Hsin.
    destruct (Qltb p 1); cbn.
    + split; [ring|].
      assert (Hq : (0 <= 25 * (1 - p) * (width / 1000))%Q).
      { apply Qmult_le_0_compat; [lra|].
        apply Qle_shift_div_l; [reflexivity|lra]. }
      destruct (scaled_range (-1) 1 (25 * (1 - p) * (width / 1000)) s Hsin Hq)
        as [Hs1 Hs2].
      assert (Hq1 : (25 * (1 - p) * (width / 1000) <= width / 40)%Q).
      { assert (E : (width / 40 == 25 * 1 * (width / 1000))%Q) by field.
        rewrite E. apply Qmult_le_compat_r;
          [lra|apply Qle_shift_div_l; [reflexivity|lra]]. }
      assert (E : (0 + 1 * (s * (5 * (1 - p)) * (width / 1000) * 5)
                   == s * (25 * (1 - p) * (width / 1000)))%Q) by ring.
      rewrite E. lra.
    + split; [reflexivity|].
      assert (0 <= width / 40)%Q by (apply Qle_shift_div_l; [reflexivity|lra]).
      lra.
  - intros ->. cbn. specialize (Hsin (elapsed * 4)%Q). revert Hsin.
    generalize (sin (elapsed * 4)%Q) as s. intros s Hs.
    assert (Hk : (0 <= height / 1000)%Q)
      by (apply Qle_shift_div_l; [reflexivity|lra]).
    assert (Hr : (5 <= 5 + (s + 1) / 2 * 15 <= 20)%Q).
    { unfold Qdiv. change (/ 2)%Q with (1 # 2)%Q. lra. }
    destruct (scaled_range 5 20 (height / 1000) _ Hr Hk) as [H1 H2]. lra.
Qed.

Lemma animate_displacement_witness :
  let c := animate (fun _ => 0%Q) shake (1 # 10) 1280 720 90 defaultCtx in
  (shake = pop ->
   (0.5 <= scaleXY c <= 1)%Q
   /\ (scaleXY c * (1280 / 2) + translateX c == 1280 / 2)%Q
   /\ (scaleXY c * (720 * (90 / 100)) + translateY c == 720 * (90 / 100))%Q)
  /\ (shake <> pop -> (scaleXY c == 1)%Q)
  /\ (shake = slide ->
      (translateX c == 0)%Q /\ (0 <= translateY c <= 720 * 0.05)%Q)
  /\ (shake = bounce ->
      (translateX c == 0)%Q /\ (- 720 <= translateY c <= 0)%Q)
  /\ (shake = shake ->
      (translateY c == 0)%Q /\ (- (1280 / 40) <= translateX c <= 1280 / 40)%Q)
  /\ (shake = glow ->
      (5 * (720 / 1000) <= shadowBlur c <= 20 * (720 / 1000))%Q).
Proof.
  apply (animate_displacement (fun _ => 0%Q) shake (1 # 10) 1280 720 90).
  - discriminate.
  - discriminate.
  - intros _. split; discriminate.
Defined.

(** ** Small helpers *)

(** The handler of [fileToBase64] resolves with what follows the first comma
    of the data URL, up to the next comma: this is the payload when the
    media type before it holds no comma, the payload holding none.  A result
    without a comma gives [undefined]. *)
Theorem base64Of_payload :
  (forall header payload,
      has_char "," header = false -> has_char "," payload = false ->
      base64Of (header +:+ "," +:+ payload) = Some payload)
  /\ (forall result, has_char "," result = false -> base64Of result = None).
Proof.
  unfold base64Of. split.
  - intros header payload Hh Hp.
    rewrite split_app_sep by (discriminate || now apply no_early_first_char).
    now rewrite split_no_occ by now apply no_early_no_occ, no_early_first_char.
  - intros result Hr.
    now rewrite split_no_occ by now apply no_early_no_occ, no_early_first_char.
Qed.

Lemma minutes_seconds seconds :
  (0 <= seconds)%Q ->
  Qfloor (seconds / 60) = Qfloor seconds / 60
  /\ Qfloor (remNum seconds 60) = Qfloor seconds mod 60.
Proof.
  intros H0.
  assert (Hhalf : (seconds / 60 == seconds * (1 # 60))%Q) by field.
  pose proof (Qfloor_le (seconds / 60)) as Ha1.
  pose proof (Qlt_floor (seconds / 60)) as Ha2.
  pose proof (Qfloor_le seconds) as Hn1.
  pose proof (Qlt_floor seconds) as Hn2.
  rewrite inject_Z_plus in Ha2, Hn2. change (inject_Z 1) with 1%Q in *.
  set (a := Qfloor (seconds / 60)) in *. set (n := Qfloor seconds) in *.
  rewrite Hhalf in Ha1, Ha2.
  assert (H1 : 60 * a <= n).
  { assert (H : (inject_Z (60 * a) <= seconds)%Q)
      by (rewrite inject_Z_mult; change (inject_Z 60) with 60%Q; lra).
    apply Qfloor_resp_le in H. now rewrite Qfloor_Z in H. }
  assert (H2 : n < 60 * a + 60).
  { assert (H : (inject_Z n < inject_Z (60 * a + 60))%Q)
      by (rewrite inject_Z_plus, inject_Z_mult;
          change (inject_Z 60) with 60%Q; lra).
    now rewrite <- Zlt_Qlt in H. }
  assert (Ha : a = n / 60) by (apply Z.div_unique with (n - 60 * a); lia).
  split; [exact Ha|].
  assert (Hm : n mod 60 = n - 60 * a) by (rewrite Ha; apply Z.mod_eq; lia).
  unfold remNum, trunc.
  assert (Hq : Qle_bool 0 (seconds / 60) = true).
  { apply Qle_bool_iff. rewrite Hhalf. lra. }
  rewrite Hq. fold a. rewrite Hm. apply Qfloor_unique.
  - unfold Z.sub. rewrite inject_Z_plus, inject_Z_opp, inject_Z_mult.
    change (inject_Z 60) with 60%Q. lra.
  - unfold Z.sub. rewrite inject_Z_plus, inject_Z_opp, inject_Z_mult.
    change (inject_Z 60) with 60%Q. lra.
Qed.

Lemma seconds_field r :
  0 <= r < 60 ->
  isDigits (padStart 2 "0" (Number_toString r)) = true
  /\ String.length (padStart 2 "0" (Number_toString r)) = 2%nat
  /\ digitsValue (padStart 2 "0" (Number_toString r)) = r.
Proof.
  intros Hr.
  assert (H : forallb (fun n =>
                let s := padStart 2 "0" (Number_toString (Z.of_nat n)) in
                isDigits s && (String.length s =? 2)%nat
                && (digitsValue s =? Z.of_nat n)) (seq 0 60) = true)
    by (vm_compute; reflexivity).
  rewrite forallb_forall in H. specialize (H (Z.to_nat r)).
  rewrite Z2Nat.id in H by lia. cbv zeta in H.
  rewrite !andb_true_iff, Nat.eqb_eq, Z.eqb_eq in H.
  destruct H as [[H1 H2] H3]; [apply in_seq; lia|]. auto.
Qed.

(** For a time that is not negative, [formatTime] writes the minutes, a
    colon and two digits of seconds below 60; read back as numbers, the two
    fields give the whole seconds of the time. *)
Theorem formatTime_reads_back seconds :
  (0 <= seconds)%Q ->
  exists mins secs,
    formatTime seconds = mins +:+ ":" +:+ secs
    /\ isDigits mins = true /\ isDigits secs = true
    /\ String.length secs = 2%nat /\ digitsValue secs < 60
    /\ digitsValue mins * 60 + digitsValue secs = Qfloor seconds.
Proof.
  intros H0. destruct (minutes_seconds seconds H0) as [Hm Hs].
  assert (Hn : 0 <= Qfloor seconds).
  { rewrite <- (Qfloor_Z 0). now apply Qfloor_resp_le. }
  assert (Ha : 0 <= Qfloor seconds / 60) by (apply Z.div_pos; lia).
  pose proof (Z.mod_pos_bound (Qfloor seconds) 60 ltac:(lia)) as Hr.
  destruct (seconds_field _ Hr) as (S1 & S2 & S3).
  destruct (Number_toString_digits _ Ha) as [M1 M2].
  unfold formatTime. rewrite Hm, Hs.
  eexists _, _. split; [reflexivity|].
  split; [unfold isDigits; now rewrite M1, M2|].
  split; [exact S1|]. split; [exact S2|]. rewrite S3.
  split; [lia|].
  unfold digitsValue at 1. rewrite read_Number_toString by exact Ha.
  pose proof (Z.div_mod (Qfloor seconds) 60 ltac:(lia)). lia.
Qed.

Lemma formatTime_reads_back_witness :
  exists mins secs,
    formatTime (3675 # 10) = mins +:+ ":" +:+ secs
    /\ isDigits mins = true /\ isDigits secs = true
    /\ String.length secs = 2%nat /\ digitsValue secs < 60
    /\ digitsValue mins * 60 + digitsValue secs = Qfloor (3675 # 10).
Proof. apply formatTime_reads_back. discriminate. Defined.

Lemma base64Of_payload_witness :
  base64Of ("data:video/mp4;base64" +:+ "," +:+ "AAAA") = Some "AAAA".
Proof. apply (proj1 base64Of_payload); reflexivity. Defined.
